(** * The bucket executor of the dataplanner engine

    A shallow embedding of [packages/dataplanner/src/engine/executeBucket.ts]
    with the error wrapper of [error.ts], and the properties the
    specification states about them.

    How the program is modelled:
    - Columns are lists; the store and the error map of the invoker are
      finite maps.  [pendingSteps] and [inProgressSteps] are sets of step
      objects in the source; here they are finite sets of step ids, so the
      model follows the code on the plans in which the steps that share an
      id are one step, which the properties that depend on it assume.
    - A step holds its dependents, as in the source, so the synchronous part
      of [executeBucket] (dispatching a step, completing it, walking its
      dependents) is a total function by recursion on the step.
    - [step.execute] is a function from the dependency columns to a raise, a
      direct result, or a future together with its settlement.  The [extra]
      argument, which the executor only passes on, is left out.
    - Every callback the executor registers on a future ([result.then],
      [resultWithoutErrors.then], [Promise.allSettled(..).then],
      [Promise.all(..).then]) is a node of a tree of futures; a small-step relation runs the callbacks one per turn
      in an arbitrary order, which covers every order in which the futures
      of the steps may settle.  A future that never settles is covered by
      the runs in which its callback is never taken.
    - Values are compared by content; the identity of objects is not
      modelled. *)

From stdpp Require Import gmap list strings.

Set Default Proof Using "Type".
Set Warnings "-register-all,-clear-no-such-hyp".
Open Scope Z_scope.
Open Scope nat_scope.

(** ** Errors and values *)

Abbreviation StepId := nat (only parsing).

(** What a [throw] or a rejection carries.  [StepFault] is anything raised by
    the code of a step; the other constructors are the errors raised inside
    the executor itself, one per [throw new Error(..)] of the source,
    [TypeError] for a property read on [undefined], and [ReferenceError] for
    the use of a name that is bound nowhere. *)
Inductive Thrown :=
| StepFault (message : string)
| TypeError
| NotAnArray (step : StepId)
| WrongLength (step : StepId) (expected actual : nat)
| StepsRemaining (remaining : list StepId)
| Todo
| RootNotRoot
| UnhandledReason
| ReferenceError (name : string).

(** [class _CrystalError extends Error]: the only field the class declares is
    [originalError] (the inherited [message] text is not modelled). *)
Record CrystalError := _CrystalError { originalError : Thrown }.

(** [export function newCrystalError(error: Error)] *)
Definition newCrystalError (error : Thrown) : CrystalError :=
  _CrystalError error.

(** The call [newCrystalError(error, step.id)] as it is written at the three
    call sites of [executeBucket.ts].  The callee declares one parameter, so
    the second argument is dropped by the call. *)
Definition newCrystalError_call (error : Thrown) (stepId : StepId) : CrystalError :=
  newCrystalError error.

(** An entry of a column: a plain datum, [undefined], an error value, or a
    future entry that will fulfil with a value or reject. *)
Inductive value :=
| VUndefined
| VData (z : Z)
| VError (e : CrystalError)
| VFulfils (v : value)
| VRejects (e : Thrown).

(** [isCrystalError(value)] of [error.ts]:
    [value != null && value.constructor === _CrystalError] *)
Definition isCrystalError (v : value) : bool :=
  match v with VError _ => true | _ => false end.

(** [PromiseSettledResult]: how [Promise.allSettled] sees one entry.  A future
    fulfilled with another future adopts the state of the latter. *)
Inductive Settled := fulfilled (v : value) | rejected (reason : Thrown).

Fixpoint settle (v : value) : Settled :=
  match v with
  | VFulfils v' => settle v'
  | VRejects e => rejected e
  | _ => fulfilled v
  end.

(** Normal completion or [throw]. *)
Inductive Result (A : Type) :=
| Ok (a : A)
| Throw (e : Thrown).
Arguments Ok {A} a.
Arguments Throw {A} e.

#[global] Instance Result_ret : MRet Result := @Ok.
#[global] Instance Result_bind : MBind Result := λ A B k r,
  match r with Ok a => k a | Throw e => Throw e end.

(** What a step hands back where a column is expected: an array, [null] or
    [undefined], or any other value, of which only the indexed properties
    matter to the executor. *)
Inductive Returned :=
| RArray (l : list value)
| RNullish
| RIndexable (l : list value).

(** [results[i]]: out of range is [undefined]; on a nullish receiver the
    property read raises. *)
Definition at_index (results : Returned) (i : nat) : Result value :=
  match results with
  | RArray l | RIndexable l => Ok (default VUndefined (l !! i))
  | RNullish => Throw TypeError
  end.

Inductive Settlement :=
| Fulfilled (r : Returned)
| Rejected (e : Thrown).

(** The three ways a call of [step.execute] can end. *)
Inductive Executed :=
| Raises (e : Thrown)
| Returns (r : Returned)
| ReturnsFuture (s : Settlement).

(** A dependency column as [executeStep] collects it: [store[depId]], which is
    [undefined] as long as nothing was written there. *)
Abbreviation DepList := (option (list value)) (only parsing).

(** ** Steps, layer plans, buckets *)

(** [ExecutableStep], with the members the executor reads.  [dependentPlans]
    holds the dependent steps themselves, as in the source; two steps are the
    same member of [pendingSteps] and [inProgressSteps] when they have the
    same [id]. *)
Inductive ExecutableStep := mkStep {
  id : StepId;
  dependencies : list StepId;
  dependentPlans : list ExecutableStep;
  isSyncAndSafe : bool;
  execute : list DepList → Executed
}.

(** [childLayerPlan.reason.type]; [unknown] stands for any tag outside the
    declared union, which reaches the [default] branch. *)
Inductive ReasonType :=
| root | listItem | mutationField | polymorphic
| subroutine | subscription | defer | stream | unknown.

Record LayerPlan := {
  steps : list ExecutableStep;
  startSteps : list ExecutableStep;
  children : list ReasonType
}.

Record Bucket := {
  size : nat;
  layerPlan : LayerPlan;
  store : gmap nat (list value);
  noDepsList : list value;
  hasErrors : bool;
  isComplete : bool
}.

(** ** The error-aware invoker *)

(** [mergeErrorsBackIn]: the loop [for (let i = 0; i < resultCount; i++)].
    [todo] counts the iterations left; [finalResults[i] = x] appends, since
    [i] is the current length. *)
Fixpoint mergeLoop (results : Returned) (errors : gmap nat CrystalError)
    (todo i resultIndex : nat) (finalResults : list value) : Result (list value) :=
  match todo with
  | 0 => Ok finalResults
  | S todo' =>
      match errors !! i with
      | Some error =>
          mergeLoop results errors todo' (S i) resultIndex (finalResults ++ [VError error])
      | None =>
          v ← at_index results resultIndex ;
          mergeLoop results errors todo' (S i) (S resultIndex) (finalResults ++ [v])
      end
  end.

Definition mergeErrorsBackIn (results : Returned) (errors : gmap nat CrystalError)
    (resultCount : nat) : Result (list value) :=
  mergeLoop results errors resultCount 0 0 [].

(** The scan of [reallyExecuteStepWithErrors] calls [isCrystalError] on
    every entry.  The loops are written over what that name stands for where
    they run: a test that gives a boolean or raises. *)
Section scan.
Variable isCrystalError_ : value → Result bool.

(** The inner loop of the scan: one dependency column, row by row.  Where the
    test holds the entry is an error value, which is what [errors] keeps. *)
Fixpoint scanColumn (depList : list value) (index : nat)
    (errors : gmap nat CrystalError) (foundErrors : bool)
    : Result (gmap nat CrystalError * bool) :=
  match depList with
  | [] => Ok (errors, foundErrors)
  | v :: rest =>
      isError ← isCrystalError_ v ;
      match isError, v with
      | true, VError e =>
          match errors !! index with
          | None => scanColumn rest (S index) (<[index := e]> errors) true
          | Some _ => scanColumn rest (S index) errors foundErrors
          end
      | _, _ => scanColumn rest (S index) errors foundErrors
      end
  end.

(** The outer loop: [for (const depList of dependencies)]; reading
    [depList.length] of a column that is [undefined] raises. *)
Fixpoint scanDependencies (dependencies : list DepList)
    (errors : gmap nat CrystalError) (foundErrors : bool)
    : Result (gmap nat CrystalError * bool) :=
  match dependencies with
  | [] => Ok (errors, foundErrors)
  | None :: _ => Throw TypeError
  | Some depList :: rest =>
      '(errors', foundErrors') ← scanColumn depList 0 errors foundErrors ;
      scanDependencies rest errors' foundErrors'
  end.
End scan.

(** The call [isCrystalError(v)] as [executeBucket.ts] has it.  The module
    imports [newCrystalError] and the type [CrystalError] from [../error.js]
    and nothing else of it, and declares no [isCrystalError] of its own: the
    name is bound nowhere, so the call raises a ReferenceError before [v] is
    looked at. *)
Definition isCrystalError_call (v : value) : Result bool :=
  Throw (ReferenceError "isCrystalError").

(** [depList.filter((_, index) => !errors[index])] *)
Fixpoint filterRows (errors : gmap nat CrystalError) (index : nat)
    (depList : list value) : list value :=
  match depList with
  | [] => []
  | v :: rest =>
      match errors !! index with
      | None => v :: filterRows errors (S index) rest
      | Some _ => filterRows errors (S index) rest
      end
  end.

(** [dependencies[0].length] *)
Definition firstLength (dependencies : list DepList) : Result nat :=
  match dependencies with
  | Some depList :: _ => Ok (length depList)
  | _ => Throw TypeError
  end.

Definition reallyExecuteStepWithNoErrors (step : ExecutableStep)
    (dependencies : list DepList) : Executed :=
  execute step dependencies.

(** What the invoker hands to [executeStep]: what the step gave, as it is or
    merged at once, or the future [resultWithoutErrors.then(..)], which waits
    for the future the step returned. *)
Inductive Invoked :=
| Handed (x : Executed)
| MergedLater (s : Settlement) (errors : gmap nat CrystalError)
    (dependencies : list DepList).
Coercion Handed : Executed >-> Invoked.

(** The callback [r => mergeErrorsBackIn(r, errors, dependencies[0].length)]
    of that future, run on the settlement of the future of the step: how the
    future [resultWithoutErrors.then(..)] settles.  A rejection passes
    through, since the [then] has no second callback. *)
Definition mergeWhenSettled (s : Settlement) (errors : gmap nat CrystalError)
    (dependencies : list DepList) : Settlement :=
  match s with
  | Rejected e => Rejected e
  | Fulfilled r =>
      match (n ← firstLength dependencies ; mergeErrorsBackIn r errors n) with
      | Ok merged => Fulfilled (RArray merged)
      | Throw e => Rejected e
      end
  end.

Definition reallyExecuteStepWithErrors (step : ExecutableStep)
    (dependencies : list DepList) : Invoked :=
  match scanDependencies isCrystalError_call dependencies ∅ false with
  | Throw e => Raises e
  | Ok (errors, foundErrors) =>
      if foundErrors then
        let dependenciesWithoutErrors :=
          fmap (M := list) (fmap (M := option) (filterRows errors 0)) dependencies in
        match execute step dependenciesWithoutErrors with
        | Raises e => Raises e
        | ReturnsFuture s => MergedLater s errors dependencies
        | Returns resultWithoutErrors =>
            match (n ← firstLength dependencies ;
                   mergeErrorsBackIn resultWithoutErrors errors n) with
            | Ok merged => Returns (RArray merged)
            | Throw e => Raises e
            end
        end
      else reallyExecuteStepWithNoErrors step dependencies
  end.

(** ** Futures and the state of one execution *)

(** The callbacks [executeBucket] registers on futures it does not control:
    - [WhenStepSettles]: [result.then(onFulfilled, onRejected)] in
      [executeStep], with the settlement of the future the step returned;
    - [WhenEntriesSettle]: [Promise.allSettled(result).then(..)] in
      [completedStep];
    - [WhenMergeSettles]: [resultWithoutErrors.then(..)] in
      [reallyExecuteStepWithErrors], with the settlement of the future the
      step returned; the callbacks of [executeStep] wait for the future of
      this [then]. *)
Inductive Task :=
| WhenStepSettles (step : ExecutableStep) (s : Settlement)
| WhenEntriesSettle (finishedStep : ExecutableStep) (result : list value)
| WhenMergeSettles (step : ExecutableStep) (s : Settlement)
    (errors : gmap nat CrystalError) (dependencies : list DepList).

(** The futures the executor builds.  [Waiting t] is the future returned by
    the [then] that registered [t]; once [t] has run it is replaced by what
    the callback returned.  [All] is [Promise.all]; [ThenChildren p] is
    [p.then(executeSamePhaseChildren)]. *)
Inductive Promise :=
| Waiting (t : Task)
| All (ps : list Promise)
| Resolved
| RejectedWith (e : Thrown)
| ThenChildren (p : Promise).

(** [PromiseOrDirect<void>]: [None] is the direct [undefined]. *)
Abbreviation PromiseOrDirect := (option Promise) (only parsing).

(** One dispatch: a step that passed the guard of [executeStep], the store at
    that moment and the dependency columns collected from it.  [step.execute]
    is called at most once per dispatch, from the invoker.  The log is not
    part of the program; it only records what the program did. *)
Record Dispatch := {
  dispatched : ExecutableStep;
  storeThen : gmap nat (list value);
  passed : list DepList
}.

(** The bucket with the local variables of [executeBucket]. *)
Record State := {
  bucket : Bucket;
  inProgressSteps : gset nat;
  pendingSteps : gset nat;
  dispatchLog : list Dispatch
}.

(** [inProgressSteps.add(step)] *)
Definition dispatch (step : ExecutableStep) (st : State) : State :=
  {| bucket := bucket st;
     inProgressSteps := {[ id step ]} ∪ inProgressSteps st;
     pendingSteps := pendingSteps st;
     dispatchLog := dispatchLog st |}.

(** The log entry of a dispatch. *)
Definition logDispatch (step : ExecutableStep) (dependencies : list DepList)
    (st : State) : State :=
  {| bucket := bucket st;
     inProgressSteps := inProgressSteps st;
     pendingSteps := pendingSteps st;
     dispatchLog :=
       {| dispatched := step; storeThen := store (bucket st); passed := dependencies |}
       :: dispatchLog st |}.

Definition withBucket (f : Bucket → Bucket) (st : State) : State :=
  {| bucket := f (bucket st);
     inProgressSteps := inProgressSteps st;
     pendingSteps := pendingSteps st;
     dispatchLog := dispatchLog st |}.

(** [bucket.hasErrors = true] *)
Definition setHasErrors : State → State :=
  withBucket (λ b,
    {| size := size b; layerPlan := layerPlan b; store := store b;
       noDepsList := noDepsList b; hasErrors := true; isComplete := isComplete b |}).

(** [store[stepId] = column] *)
Definition publish (stepId : StepId) (column : list value) : State → State :=
  withBucket (λ b,
    {| size := size b; layerPlan := layerPlan b; store := <[stepId := column]> (store b);
       noDepsList := noDepsList b; hasErrors := hasErrors b; isComplete := isComplete b |}).

(** [inProgressSteps.delete(finishedStep); pendingSteps.delete(finishedStep)] *)
Definition forget (stepId : StepId) (st : State) : State :=
  {| bucket := bucket st;
     inProgressSteps := inProgressSteps st ∖ {[ stepId ]};
     pendingSteps := pendingSteps st ∖ {[ stepId ]};
     dispatchLog := dispatchLog st |}.

(** Modelled from the spec: [arrayOfLength] of [utils.js], which is not among
    the sources; the spec has it broadcast one value across all [size] rows. *)
Definition arrayOfLength (length : nat) (fill : value) : list value :=
  replicate length fill.

(** [rejectOnThrow]: a raise becomes a rejected future. *)
Definition rejectOnThrow (r : Result PromiseOrDirect) : PromiseOrDirect :=
  match r with
  | Ok v => v
  | Throw e => Some (RejectedWith e)
  end.

(** [if (isPromiseLike(r)) promises.push(r)] *)
Definition pushIfPromise (promises : list Promise) (r : PromiseOrDirect) : list Promise :=
  match r with
  | Some p => promises ++ [p]
  | None => promises
  end.

(** The dependency columns [executeStep] collects. *)
Definition collectDependencies (step : ExecutableStep) (st : State) : list DepList :=
  if decide (0 < length (dependencies step))
  then (λ depId, store (bucket st) !! depId) <$> dependencies step
  else [Some (noDepsList (bucket st))].

(** [bucket.hasErrors ? reallyExecuteStepWithErrors(..) : reallyExecuteStepWithNoErrors(..)] *)
Definition invoke (step : ExecutableStep) (dependencies : list DepList)
    (st : State) : Invoked :=
  if hasErrors (bucket st)
  then reallyExecuteStepWithErrors step dependencies
  else reallyExecuteStepWithNoErrors step dependencies.

(** [potentialNextStep.dependencies.every((depId) => Array.isArray(store[depId]))] *)
Definition allMaterialized (step : ExecutableStep) (st : State) : bool :=
  forallb (λ depId, bool_decide (is_Some (store (bucket st) !! depId)))
          (dependencies step).

(** ** Completing a step

    [completedStep] and [reallyCompletedStep] call [executeStep] on the
    dependents of the finished step only; they are written over the function
    that dispatches a dependent, and [executeStep] ties the knot by
    recursion on the step. *)
Section completion.
Variable executeDependent : ExecutableStep → State → State * Result PromiseOrDirect.

(** [for (const potentialNextStep of finishedStep.dependentPlans)] *)
Fixpoint dependentsLoop (dependents : list ExecutableStep) (st : State)
    (promises : list Promise) : State * list Promise :=
  match dependents with
  | [] => (st, promises)
  | potentialNextStep :: rest =>
      let isPending := bool_decide (id potentialNextStep ∈ pendingSteps st) in
      let isSuitable := isPending && allMaterialized potentialNextStep st in
      if isSuitable then
        let '(st', r) := executeDependent potentialNextStep st in
        dependentsLoop rest st' (pushIfPromise promises (rejectOnThrow r))
      else dependentsLoop rest st promises
  end.

Definition reallyCompletedStep_ (finishedStep : ExecutableStep) (st : State)
    : State * PromiseOrDirect :=
  let st := forget (id finishedStep) st in
  if decide (base.size (pendingSteps st) = 0) then (st, None)
  else
    let '(st', promises) := dependentsLoop (dependentPlans finishedStep) st [] in
    if decide (0 < length promises) then (st', Some (All promises)) else (st', None).

Definition completedStep_ (finishedStep : ExecutableStep) (result : Returned)
    (noNewErrors : bool) (st : State) : State * Result PromiseOrDirect :=
  match result with
  | RArray column =>
      if decide (length column ≠ size (bucket st))
      then (st, Throw (WrongLength (id finishedStep) (size (bucket st)) (length column)))
      else if isSyncAndSafe finishedStep && noNewErrors
      then
        let '(st', r) := reallyCompletedStep_ finishedStep (publish (id finishedStep) column st) in
        (st', Ok r)
      else (st, Ok (Some (Waiting (WhenEntriesSettle finishedStep column))))
  | _ => (st, Throw (NotAnArray (id finishedStep)))
  end.
End completion.

(** [executeStep].  The [try] block covers the call of the step and, for a
    synchronous result, the call of [completedStep]; the [catch] block
    completes the step with a column that repeats one error value. *)
Fixpoint executeStep (step : ExecutableStep) (st : State) {struct step}
    : State * Result PromiseOrDirect :=
  if decide (id step ∈ inProgressSteps st) then (st, Ok None)
  else
    let st := dispatch step st in
    let dependencies := collectDependencies step st in
    let st := logDispatch step dependencies st in
    let tried :=
      match invoke step dependencies st with
      | Handed (Raises error) => (st, Throw error)
      | Handed (ReturnsFuture s) => (st, Ok (Some (Waiting (WhenStepSettles step s))))
      | MergedLater s errors dependencies' =>
          (st, Ok (Some (Waiting (WhenMergeSettles step s errors dependencies'))))
      | Handed (Returns result) => completedStep_ executeStep step result true st
      end in
    match tried with
    | (st', Ok r) => (st', Ok r)
    | (st', Throw error) =>
        let st' := setHasErrors st' in
        completedStep_ executeStep step
          (RArray (arrayOfLength (size (bucket st'))
                                 (VError (newCrystalError_call error (id step)))))
          true st'
    end.

Definition completedStep := completedStep_ executeStep.
Definition reallyCompletedStep := reallyCompletedStep_ executeStep.

(** The callback of [Promise.allSettled(result).then(..)]: a fulfilled entry
    gives its value, a rejected one a new error value. *)
Definition reduceEntry (stepId : StepId) (entry : value) : value :=
  match settle entry with
  | fulfilled v => v
  | rejected reason => VError (newCrystalError_call reason stepId)
  end.

Definition rejects (entry : value) : bool :=
  match settle entry with
  | fulfilled _ => false
  | rejected _ => true
  end.

(** The [map] of that callback; [bucket.hasErrors = true] runs once per
    rejected entry. *)
Definition reduceEntries (finishedStep : ExecutableStep) (result : list value)
    (st : State) : State * list value :=
  (if existsb rejects result then setHasErrors st else st,
   reduceEntry (id finishedStep) <$> result).

(** Running a registered callback. *)
Definition runTask (t : Task) (st : State) : State * Result PromiseOrDirect :=
  match t with
  | WhenStepSettles step (Fulfilled values) =>
      completedStep step values false st
  | WhenStepSettles step (Rejected error) =>
      let st := setHasErrors st in
      completedStep step
        (RArray (arrayOfLength (size (bucket st))
                               (VError (newCrystalError_call error (id step)))))
        false st
  | WhenEntriesSettle finishedStep result =>
      let '(st, result') := reduceEntries finishedStep result st in
      let '(st, r) := reallyCompletedStep finishedStep (publish (id finishedStep) result' st) in
      (st, Ok r)
  | WhenMergeSettles step s errors dependencies =>
      (st, Ok (Some (Waiting (WhenStepSettles step (mergeWhenSettled s errors dependencies)))))
  end.

(** ** Hand-off to the child layer plans *)

(** [for (const childLayerPlan of childLayerPlans) switch (..)]: no branch
    pushes to [childPromises]. *)
Fixpoint childrenLoop (childLayerPlans : list ReasonType)
    (childPromises : list Promise) : Result (list Promise) :=
  match childLayerPlans with
  | [] => Ok childPromises
  | reason :: rest =>
      match reason with
      | listItem => Throw Todo
      | mutationField => Throw Todo
      | polymorphic => Throw Todo
      | subroutine | subscription | defer | stream => childrenLoop rest childPromises
      | root => Throw RootNotRoot
      | unknown => Throw UnhandledReason
      end
  end.

(** The first occurrence of each member of a list, in the order of the list:
    the order in which [new Set(list)] lists its members. *)
Fixpoint insertionOrder (seen : gset nat) (l : list nat) : list nat :=
  match l with
  | [] => []
  | i :: rest =>
      if decide (i ∈ seen) then insertionOrder seen rest
      else i :: insertionOrder ({[ i ]} ∪ seen) rest
  end.

(** [[...pendingSteps]]: a Set lists its members in the order in which they
    were inserted, and [pendingSteps] was built from [layerPlan.steps]. *)
Definition pendingInOrder (st : State) : list StepId :=
  filter (λ i, i ∈ pendingSteps st)
         (insertionOrder ∅ (id <$> steps (layerPlan (bucket st)))).

(** [executeSamePhaseChildren].  Both branches of the final [if] return; the
    assignment [bucket.isComplete = true] that follows them in the source is
    never reached, so the state is returned as it came. *)
Definition executeSamePhaseChildren (st : State) : State * Result PromiseOrDirect :=
  if decide (0 < base.size (pendingSteps st))
  then (st, Throw (StepsRemaining (pendingInOrder st)))
  else
    match childrenLoop (children (layerPlan (bucket st))) [] with
    | Throw e => (st, Throw e)
    | Ok childPromises =>
        if decide (0 < length childPromises)
        then (st, Ok (Some (All childPromises)))
        else (st, Ok None)
    end.

(** ** [executeBucket] *)

(** [for (const step of startSteps)] *)
Fixpoint startLoop (starters : list ExecutableStep) (st : State)
    (starterPromises : list Promise) : State * list Promise :=
  match starters with
  | [] => (st, starterPromises)
  | step :: rest =>
      let '(st', r) := executeStep step st in
      startLoop rest st' (pushIfPromise starterPromises (rejectOnThrow r))
  end.

Definition initialState (bucket : Bucket) : State :=
  {| bucket := bucket;
     inProgressSteps := ∅;
     pendingSteps := list_to_set (id <$> steps (layerPlan bucket));
     dispatchLog := [] |}.

(** The request context only reaches the steps (as [extra]); the executor
    itself does not depend on it. *)
Definition executeBucket (bucket : Bucket) : State * Result PromiseOrDirect :=
  let '(st, starterPromises) :=
    startLoop (startSteps (layerPlan bucket)) (initialState bucket) [] in
  if decide (0 < length starterPromises)
  then (st, Ok (Some (ThenChildren (All starterPromises))))
  else executeSamePhaseChildren st.

(** ** Settling futures *)

Inductive Status :=
| StillPending
| HasResolved
| HasRejected (e : Thrown).

(** [Promise.all]: rejected as soon as one member is, resolved once all are.
    When several members are rejected the model reports the leftmost. *)
Fixpoint statusAll (l : list Status) : Status :=
  match l with
  | [] => HasResolved
  | HasRejected e :: _ => HasRejected e
  | StillPending :: rest =>
      match statusAll rest with
      | HasRejected e => HasRejected e
      | _ => StillPending
      end
  | HasResolved :: rest => statusAll rest
  end.

Fixpoint status (p : Promise) : Status :=
  match p with
  | Waiting _ => StillPending
  | Resolved => HasResolved
  | RejectedWith e => HasRejected e
  | All ps => statusAll (map status ps)
  | ThenChildren p =>
      match status p with
      | HasRejected e => HasRejected e
      | _ => StillPending
      end
  end.

(** The future a [then] returned, once its callback has run. *)
Definition settled (r : Result PromiseOrDirect) : Promise :=
  match r with
  | Throw e => RejectedWith e
  | Ok None => Resolved
  | Ok (Some p) => p
  end.

(** What ran in one turn of the event loop. *)
Inductive Event :=
| Ran (t : Task)
| RanChildren.

(** One turn of the event loop: one registered callback runs to completion.
    Any callback whose future has settled may be next; the futures of the
    steps settle in an order the executor does not control. *)
Inductive turn : Event → State → Promise → State → Promise → Prop :=
| turn_task t st :
    turn (Ran t) st (Waiting t) (runTask t st).1 (settled (runTask t st).2)
| turn_all ev ps1 p ps2 st st' p' :
    turn ev st p st' p' →
    turn ev st (All (ps1 ++ p :: ps2)) st' (All (ps1 ++ p' :: ps2))
| turn_inside ev p st st' p' :
    turn ev st p st' p' →
    turn ev st (ThenChildren p) st' (ThenChildren p')
| turn_children p st :
    status p = HasResolved →
    turn RanChildren st (ThenChildren p)
         (executeSamePhaseChildren st).1 (settled (executeSamePhaseChildren st).2).

(** Any number of turns, with the events in the order they happened. *)
Inductive turns : list Event → State → Promise → State → Promise → Prop :=
| turns_refl st p : turns [] st p st p
| turns_step ev evs st p st1 p1 st2 p2 :
    turn ev st p st1 p1 → turns evs st1 p1 st2 p2 → turns (ev :: evs) st p st2 p2.

(** No callback is left to run. *)
Fixpoint idle (p : Promise) : bool :=
  match p with
  | Waiting _ => false
  | All ps => forallb idle ps
  | Resolved | RejectedWith _ => true
  | ThenChildren p => idle p && negb (match status p with HasResolved => true | _ => false end)
  end.

(** ** Running every schedule

    [nexts] lists the configurations one turn away; [explore] follows every
    order of turns down to the configurations where no callback is left. *)
Section nexts.
Variable nextsOf : Promise → list (State * Promise).

Fixpoint nextsAll (before rest : list Promise) : list (State * Promise) :=
  match rest with
  | [] => []
  | p :: rest' =>
      ((λ c : State * Promise, (c.1, All (before ++ c.2 :: rest'))) <$> nextsOf p)
      ++ nextsAll (before ++ [p]) rest'
  end.
End nexts.

Fixpoint nexts (p : Promise) (st : State) : list (State * Promise) :=
  match p with
  | Waiting t => [((runTask t st).1, settled (runTask t st).2)]
  | All ps => nextsAll (λ q, nexts q st) [] ps
  | Resolved | RejectedWith _ => []
  | ThenChildren q =>
      ((λ c : State * Promise, (c.1, ThenChildren c.2)) <$> nexts q st)
      ++ match status q with
         | HasResolved =>
             [((executeSamePhaseChildren st).1, settled (executeSamePhaseChildren st).2)]
         | _ => []
         end
  end.

(** [None] when the fuel did not suffice. *)
Fixpoint explore (fuel : nat) (c : State * Promise) : option (list (State * Promise)) :=
  match nexts c.2 c.1 with
  | [] => Some [c]
  | cs =>
      match fuel with
      | 0 => None
      | S fuel' => mjoin <$> mapM (explore fuel') cs
      end
  end.

(** What the caller of [executeBucket] observes. *)
Inductive Outcome :=
| Completed
| Threw (e : Thrown)
| Future (s : Status).

Definition outcome (r : Result PromiseOrDirect) : Outcome :=
  match r with
  | Throw e => Threw e
  | Ok None => Completed
  | Ok (Some p) => Future (status p)
  end.

(** ** Notions used to state the properties *)

(** The error value a column holds at a row, if any. *)
Definition errorAt (depList : list value) (i : nat) : option CrystalError :=
  match depList !! i with
  | Some (VError e) => Some e
  | _ => None
  end.

(** The first error value at row [i], in the declared order of the columns. *)
Fixpoint firstError (cols : list (list value)) (i : nat) : option CrystalError :=
  match cols with
  | [] => None
  | depList :: rest =>
      match errorAt depList i with
      | Some e => Some e
      | None => firstError rest i
      end
  end.

(** Rows free of errors among the [len] rows starting at [i]. *)
Definition consumedBetween (errors : gmap nat CrystalError) (i len : nat) : nat :=
  length (filter (λ j, errors !! j = None) (seq i len)).

(** How many rows before [i] are free of errors: the number of entries of the
    step's result consumed before row [i]. *)
Definition consumedBefore (errors : gmap nat CrystalError) (i : nat) : nat :=
  consumedBetween errors 0 i.

(** The entries of what a step returned, unless it is nullish. *)
Definition entries (results : Returned) : option (list value) :=
  match results with
  | RArray l | RIndexable l => Some l
  | RNullish => None
  end.

(** The test of the scan, were its name bound to the predicate of
    [error.ts]. *)
Definition isCrystalError_imported (v : value) : Result bool := Ok (isCrystalError v).

(** The error map the loops of the scan build from materialized columns with
    that test: the rows that hold an error value in some column, each with
    the first such value in the order of the columns. *)
Definition errorsOf (cols : list (list value)) : gmap nat CrystalError :=
  match scanDependencies isCrystalError_imported (Some <$> cols) ∅ false with
  | Ok (errors, _) => errors
  | Throw _ => ∅
  end.

(** What stops the scan of the code as it is: the first dependency column
    that is missing, for which reading [length] raises, or that has an
    entry, for which the call of the unbound name raises. *)
Fixpoint firstObstacle (dependencies : list (option (list value))) : option Thrown :=
  match dependencies with
  | [] => None
  | None :: _ => Some TypeError
  | Some [] :: rest => firstObstacle rest
  | Some (_ :: _) :: _ => Some (ReferenceError "isCrystalError")
  end.

(** A result [completedStep] refuses. *)
Definition shapeViolation (result : Returned) (size : nat) : Prop :=
  match result with
  | RArray column => length column ≠ size
  | _ => True
  end.

(** The errors [completedStep] raises. *)
Definition shapeFault (e : Thrown) : Prop :=
  match e with
  | NotAnArray _ | WrongLength _ _ _ => True
  | _ => False
  end.

(** The errors [executeSamePhaseChildren] raises. *)
Definition handOffFault (e : Thrown) : Prop :=
  match e with
  | StepsRemaining _ | Todo | RootNotRoot | UnhandledReason => True
  | _ => False
  end.

Definition executorFault (e : Thrown) : Prop := shapeFault e ∨ handOffFault e.

(** The steps below a step: its dependents, their dependents, and so on. *)
Fixpoint descendants (step : ExecutableStep) : list ExecutableStep :=
  dependentPlans step ≫= λ t, t :: descendants t.

Definition selfOrDescendant (step t : ExecutableStep) : Prop :=
  t = step ∨ t ∈ descendants step.

(** The state right after the guard of [executeStep] let a step through. *)
Definition dispatchedNow (step : ExecutableStep) (st : State) : State :=
  logDispatch step (collectDependencies step (dispatch step st)) (dispatch step st).

(** The elementary changes of the state the executor makes once the start
    steps are under way: dispatching a pending dependent whose dependency
    columns are all there, raising [hasErrors], and completing a step with a
    column.  [allowed] bounds the steps concerned. *)
Inductive change (allowed : ExecutableStep → Prop) : State → State → Prop :=
| change_dispatch step st :
    allowed step →
    id step ∉ inProgressSteps st →
    id step ∈ pendingSteps st →
    allMaterialized step st = true →
    change allowed st (dispatchedNow step st)
| change_error st :
    change allowed st (setHasErrors st)
| change_complete step column st :
    allowed step →
    change allowed st (forget (id step) (publish (id step) column st)).

Definition changes (allowed : ExecutableStep → Prop) : State → State → Prop :=
  rtc (change allowed).

(** What [executeStep] does to the state, seen from a caller: nothing, or the
    dispatch of the step followed by elementary changes that concern the step
    and the steps below it. *)
Definition dispatchesWithin
    (exec : ExecutableStep → State → State * Result (option Promise))
    (t : ExecutableStep) : Prop :=
  ∀ st, (exec t st).1 = st
        ∨ ((id t ∉ inProgressSteps st)
           ∧ changes (selfOrDescendant t) (dispatchedNow t st) (exec t st).1).

(** The step a callback belongs to. *)
Definition taskStep (t : Task) : ExecutableStep :=
  match t with
  | WhenStepSettles step _ => step
  | WhenEntriesSettle finishedStep _ => finishedStep
  | WhenMergeSettles step _ _ _ => step
  end.

Definition anyStep (_ : ExecutableStep) : Prop := True.

(** Any evolution of the state: dispatches that passed the guard of
    [executeStep], and elementary changes. *)
Inductive progress : State → State → Prop :=
| progress_refl st : progress st st
| progress_dispatch step st st' :
    id step ∉ inProgressSteps st →
    progress (dispatchedNow step st) st' → progress st st'
| progress_change st st1 st' :
    change anyStep st st1 → progress st1 st' → progress st st'.

(** Futures in which every rejection is one the executor raised itself. *)
Fixpoint sound (p : Promise) : Prop :=
  match p with
  | Waiting _ | Resolved => True
  | RejectedWith e => executorFault e
  | All ps => foldr (λ q acc, sound q ∧ acc) True ps
  | ThenChildren q => sound q
  end.

(** What [executeStep] gives back is a sound future, never a raise. *)
Definition yieldsSound
    (exec : ExecutableStep → State → State * Result (option Promise))
    (t : ExecutableStep) : Prop :=
  ∀ st, ∃ r, (exec t st).2 = Ok r ∧ sound (settled (Ok r)).

(** The ids of the steps dispatched so far, latest first. *)
Definition dispatchedIds (st : State) : list nat :=
  (λ d, id (dispatched d)) <$> dispatchLog st.

(** Every dispatch found the columns of all the dependencies of the step in
    the store, and collected no [undefined] column. *)
Definition dispatchedWhenReady (st : State) : Prop :=
  ∀ d, d ∈ dispatchLog st →
    (∀ depId, depId ∈ dependencies (dispatched d) → is_Some (storeThen d !! depId))
    ∧ Forall is_Some (passed d).

(** What the scheduler maintains: no step is in the log twice, and a logged
    step is in progress or no longer pending. *)
Definition schedulerInv (st : State) : Prop :=
  NoDup (dispatchedIds st)
  ∧ (∀ i, i ∈ dispatchedIds st → i ∈ inProgressSteps st ∨ i ∉ pendingSteps st)
  ∧ dispatchedWhenReady st.

(** Weights that every turn consumes. *)
Fixpoint stepWeight (step : ExecutableStep) : nat :=
  3 + sum_list_with stepWeight (dependentPlans step).

Definition taskWeight (t : Task) : nat :=
  match t with
  | WhenStepSettles step _ => stepWeight step
  | WhenEntriesSettle finishedStep _ => stepWeight finishedStep - 1
  | WhenMergeSettles step _ _ _ => S (stepWeight step)
  end.

Fixpoint weight (p : Promise) : nat :=
  match p with
  | Waiting t => taskWeight t
  | All ps => 1 + sum_list_with weight ps
  | Resolved | RejectedWith _ => 0
  | ThenChildren q => 2 + weight q
  end.

Definition boundedBy
    (exec : ExecutableStep → State → State * Result (option Promise))
    (t : ExecutableStep) : Prop :=
  ∀ st, weight (settled (exec t st).2) ≤ stepWeight t.

(** The well-formedness of a bucket that the scheduler relies on: the start
    steps are distinct, none of them is a dependent of a step of the layer,
    and the columns they depend on were put in the store by the parent. *)
Record wellFormed (b : Bucket) : Prop := {
  starters_distinct : NoDup (id <$> startSteps (layerPlan b));
  starters_not_dependents :
    ∀ s t, s ∈ startSteps (layerPlan b) → t ∈ startSteps (layerPlan b) →
           id s ∉ id <$> descendants t;
  starters_ready :
    ∀ s depId, s ∈ startSteps (layerPlan b) → depId ∈ dependencies s →
               is_Some (store b !! depId)
}.

(** A future that has rejected. *)
Definition isRejected (p : Promise) : Prop := ∃ e, status p = HasRejected e.

(** ** Concrete steps and buckets *)

Definition boom : Thrown := StepFault "boom".

(** The first dependency column a step received. *)
Definition firstColumn (dependencies : list (option (list value))) : list value :=
  match dependencies with
  | Some depList :: _ => depList
  | _ => []
  end.

Definition times (k : Z) (v : value) : value :=
  match v with
  | VData z => VData (z * k)
  | _ => v
  end.

Definition unitsOf (n : nat) : list value := replicate n VUndefined.

Definition bucketOf (n : nat) (all starters : list ExecutableStep)
    (childLayerPlans : list ReasonType) (columns : gmap nat (list value))
    (errors : bool) : Bucket :=
  {| size := n;
     layerPlan := {| steps := all; startSteps := starters; children := childLayerPlans |};
     store := columns;
     noDepsList := unitsOf n;
     hasErrors := errors;
     isComplete := false |}.

(** A sync-and-safe step over column 1 that multiplies by ten. *)
Definition timesTen : ExecutableStep :=
  mkStep 2 [1] [] true (λ dependencies, Returns (RArray (times 10 <$> firstColumn dependencies))).

(** A bucket whose column 1 came with an error in its second row. *)
Definition erroredColumn : list value :=
  [VData 1; VError (newCrystalError boom); VData 3].

Definition erroredBucket : Bucket :=
  bucketOf 3 [timesTen] [timesTen] [] {[ 1 := erroredColumn ]} true.

(** The same bucket with no error value in column 1: [hasErrors] was raised
    for another reason. *)
Definition flaggedBucket : Bucket :=
  bucketOf 3 [timesTen] [timesTen] [] {[ 1 := [VData 1; VData 2; VData 3] ]} true.

(** Any sync-and-safe step over column 1, in the place of [timesTen]. *)
Definition overColumnOne (f : list (option (list value)) → Executed) : ExecutableStep :=
  mkStep 2 [1] [] true f.

(** The error value of the unbound name. *)
Definition unboundError : CrystalError :=
  newCrystalError (ReferenceError "isCrystalError").

(** A sync-and-safe step that returns a column with an entry that rejects. *)
Definition rejectingEntry : ExecutableStep :=
  mkStep 1 [] [] true (λ _, Returns (RArray [VData 1; VRejects boom])).

Definition rejectingEntryBucket : Bucket :=
  bucketOf 2 [rejectingEntry] [rejectingEntry] [] ∅ false.

(** A step that raises, after a step that returns [1, 2, 3]. *)
Definition raising : ExecutableStep :=
  mkStep 2 [1] [] true (λ _, Raises boom).

Definition oneTwoThree : ExecutableStep :=
  mkStep 1 [] [raising] true (λ _, Returns (RArray [VData 1; VData 2; VData 3])).

Definition catastrophicBucket : Bucket :=
  bucketOf 3 [oneTwoThree; raising] [oneTwoThree] [] ∅ false.

(** A step whose future rejects. *)
Definition rejecting : ExecutableStep :=
  mkStep 2 [1] [] false (λ _, ReturnsFuture (Rejected boom)).

(** A bucket of no rows with one step. *)
Definition noRows : ExecutableStep :=
  mkStep 1 [] [] true (λ _, Returns (RArray [])).

Definition zeroSizeBucket : Bucket :=
  bucketOf 0 [noRows] [noRows] [] ∅ false.

(** A bucket whose layer plan has the root layer plan as a child. *)
Definition rootChildBucket : Bucket :=
  bucketOf 0 [] [] [root] ∅ false.

(** A bucket whose layer plan has a list-item child. *)
Definition listItemBucket : Bucket :=
  bucketOf 0 [] [] [listItem] ∅ false.

(** A step of a two-row bucket that returns one row, directly or through a
    future. *)
Definition tooShort : ExecutableStep :=
  mkStep 1 [] [] true (λ _, Returns (RArray [VData 1])).

Definition tooShortLater : ExecutableStep :=
  mkStep 1 [] [] false (λ _, ReturnsFuture (Fulfilled (RArray [VData 1]))).

Definition tooShortBucket : Bucket :=
  bucketOf 2 [tooShort] [tooShort] [] ∅ false.

Definition tooShortLaterBucket : Bucket :=
  bucketOf 2 [tooShortLater] [tooShortLater] [] ∅ false.

(** A step that hands its input column on, in a bucket whose parent left an
    error value in that column without raising [hasErrors]. *)
Definition passThrough : ExecutableStep :=
  mkStep 1 [0] [] true (λ dependencies, Returns (RArray (firstColumn dependencies))).

Definition passThroughBucket : Bucket :=
  bucketOf 1 [passThrough] [passThrough] []
           {[ 0 := [VError (newCrystalError boom)] ]} false.

(** The diamond A → {B, C} → D(B, C): B answers through a future, C directly. *)
Definition diamondD : ExecutableStep :=
  mkStep 4 [2; 3] [] true (λ dependencies, Returns (RArray (firstColumn dependencies))).

Definition diamondB : ExecutableStep :=
  mkStep 2 [1] [diamondD] false
    (λ _, ReturnsFuture (Fulfilled (RArray [VData 21; VData 22]))).

Definition diamondC (safe : bool) : ExecutableStep :=
  mkStep 3 [1] [diamondD] safe (λ _, Returns (RArray [VData 31; VData 32])).

Definition diamondA (safe : bool) : ExecutableStep :=
  mkStep 1 [] [diamondB; diamondC safe] true (λ _, Returns (RArray [VData 1; VData 2])).

Definition diamond (safe : bool) : Bucket :=
  bucketOf 2 [diamondA safe; diamondB; diamondC safe; diamondD] [diamondA safe] [] ∅ false.

(** The dispatches of one step in the log. *)
Definition dispatchesOf (stepId : nat) (st : State) : list Dispatch :=
  filter (λ d, id (dispatched d) = stepId) (dispatchLog st).

(** What the log says about the dispatches of D in the diamond. *)
Definition seenByD (st : State) :=
  (λ d, (storeThen d !! 2, storeThen d !! 3, passed d)) <$> dispatchesOf 4 st.

(** A step that is not sync-and-safe and returns an error value as an
    ordinary entry, followed by a dependent step. *)
Definition plainErrorUser : ExecutableStep :=
  mkStep 2 [1] [] true (λ dependencies, Returns (RArray (firstColumn dependencies))).

Definition plainError : ExecutableStep :=
  mkStep 1 [] [plainErrorUser] false (λ _, Returns (RArray erroredColumn)).

Definition plainErrorBucket : Bucket :=
  bucketOf 3 [plainError; plainErrorUser] [plainError] [] ∅ false.

(** ** Notions used to state further properties of the code *)

(** An entry that is a future. *)
Definition isFuture (v : value) : bool :=
  match v with
  | VFulfils _ | VRejects _ => true
  | _ => false
  end.

(** A column with the error values of the map put in place of its entries. *)
Definition withErrors (errors : gmap nat CrystalError) (depList : list value) : list value :=
  imap (λ i v, match errors !! i with
               | Some e => VError e
               | None => v
               end) depList.

(** The reasons of child layer plans that [executeSamePhaseChildren] passes
    over. *)
Definition handledElsewhere (reason : ReasonType) : bool :=
  match reason with
  | subroutine | subscription | defer | stream => true
  | _ => false
  end.

(** What [executeSamePhaseChildren] raises at a child layer plan it does not
    pass over. *)
Definition raisedAt (reason : ReasonType) : Thrown :=
  match reason with
  | root => RootNotRoot
  | unknown => UnhandledReason
  | _ => Todo
  end.

(** ** What the executor does to the state, with what holds when it does it *)

(** A column with an entry that rejects, and a result [completedStep]
    refuses (the boolean form of [shapeViolation]). *)
Definition rejectingColumn (r : Returned) : bool :=
  match r with
  | RArray column => existsb rejects column
  | _ => false
  end.

Definition wrongShape (r : Returned) (n : nat) : bool :=
  match r with
  | RArray column => negb (length column =? n)
  | _ => true
  end.

(** A dispatch whose step, called on the columns that were collected for it,
    failed in one of the ways that make the executor produce error values:
    it raised, its future rejected, it returned directly something that is
    not an array of [n] rows, or it returned a column with an entry that
    rejects (directly, for a step that is not sync-and-safe, or through its
    future). *)
Definition faulty (n : nat) (d : Dispatch) : bool :=
  match execute (dispatched d) (passed d) with
  | Raises _ => true
  | Returns r =>
      wrongShape r n || (negb (isSyncAndSafe (dispatched d)) && rejectingColumn r)
  | ReturnsFuture (Rejected _) => true
  | ReturnsFuture (Fulfilled r) => rejectingColumn r
  end.

(** The elementary effects of the executor on the state, each with what is
    known at the place of the source that makes it: the dispatch of a start
    step; the dispatch of a dependent, which is pending and has all its
    dependency columns; [hasErrors = true], which, when it changes the flag,
    follows a faulty dispatch; and the completion of a step that was
    dispatched, with a column of [size] rows.  [starter] and [allowed] bound
    the steps that are dispatched. *)
Inductive effect (starter allowed : ExecutableStep → Prop) : State → State → Prop :=
| effect_start step st :
    starter step →
    id step ∉ inProgressSteps st →
    effect starter allowed st (dispatchedNow step st)
| effect_dispatch step st :
    allowed step →
    id step ∉ inProgressSteps st →
    id step ∈ pendingSteps st →
    allMaterialized step st = true →
    effect starter allowed st (dispatchedNow step st)
| effect_error st :
    (hasErrors (bucket st) = false →
     ∃ d, d ∈ dispatchLog st ∧ faulty (size (bucket st)) d = true) →
    effect starter allowed st (setHasErrors st)
| effect_complete step column st :
    id step ∈ dispatchedIds st →
    length column = size (bucket st) →
    effect starter allowed st (forget (id step) (publish (id step) column st)).

Definition effects (starter allowed : ExecutableStep → Prop) : State → State → Prop :=
  rtc (effect starter allowed).

Definition noStarter (_ : ExecutableStep) : Prop := False.

(** What the invoker gave for a dispatch, on the direct or on the
    error-aware path. *)
Definition invokedAs (errorAware : bool) (d : Dispatch) : Invoked :=
  if errorAware then reallyExecuteStepWithErrors (dispatched d) (passed d)
  else reallyExecuteStepWithNoErrors (dispatched d) (passed d).

(** Where a registered callback comes from: the dispatch of its step, for
    which the invoker gave the future, or the column, the callback waits
    for; the entries callback may also wait for the column that repeats one
    error value. *)
Definition origin (errorAware : bool) (t : Task) (d : Dispatch) : Prop :=
  dispatched d = taskStep t
  ∧ match t with
    | WhenStepSettles _ s => invokedAs errorAware d = ReturnsFuture s
    | WhenEntriesSettle finishedStep result =>
        (isSyncAndSafe finishedStep = false
         ∧ invokedAs errorAware d = Returns (RArray result))
        ∨ invokedAs errorAware d = ReturnsFuture (Fulfilled (RArray result))
        ∨ ∃ e, result = arrayOfLength (length result) (VError e)
    | WhenMergeSettles _ s errors dependencies =>
        invokedAs errorAware d = MergedLater s errors dependencies
    end.

(** What holds of a registered callback: its step was dispatched, the column
    the entries callback waits for has [size] rows, and the callback has its
    origin in the log, on the direct path as long as [hasErrors] is false. *)
Definition taskReady (st : State) (t : Task) : Prop :=
  id (taskStep t) ∈ dispatchedIds st
  ∧ match t with
    | WhenEntriesSettle _ result => length result = size (bucket st)
    | WhenStepSettles _ _ | WhenMergeSettles _ _ _ _ => True
    end
  ∧ ∃ d errorAware,
      d ∈ dispatchLog st
      ∧ (hasErrors (bucket st) = false → errorAware = false)
      ∧ origin errorAware t d.

(** The callbacks registered in a future. *)
Fixpoint tasksOf (p : Promise) : list Task :=
  match p with
  | Waiting t => [t]
  | All ps => ps ≫= tasksOf
  | ThenChildren q => tasksOf q
  | Resolved | RejectedWith _ => []
  end.

Definition tasksReady (st : State) (p : Promise) : Prop :=
  Forall (taskReady st) (tasksOf p).

(** What [executeStep] does, seen from a caller: nothing, or the dispatch of
    the step followed by elementary effects; the callbacks of the future it
    hands back are ready. *)
Definition performs
    (exec : ExecutableStep → State → State * Result (option Promise))
    (t : ExecutableStep) : Prop :=
  ∀ st, ((exec t st).1 = st
         ∨ ((id t ∉ inProgressSteps st)
            ∧ effects noStarter (selfOrDescendant t) (dispatchedNow t st) (exec t st).1))
        ∧ tasksReady (exec t st).1 (settled (exec t st).2).

(** The steps below the start steps of a bucket. *)
Definition reached (b : Bucket) (u : ExecutableStep) : Prop :=
  ∃ s, s ∈ startSteps (layerPlan b) ∧ selfOrDescendant s u.

(** The ids identify the steps of the bucket: the steps of the layer plan
    have distinct ids, and a step below a start step that carries the id of
    a step of the layer plan is that step.  On such buckets the sets of step
    ids of the model are the sets of step objects of the source. *)
Definition identifiedById (b : Bucket) : Prop :=
  NoDup (id <$> steps (layerPlan b))
  ∧ ∀ u, reached b u → id u ∈ id <$> steps (layerPlan b) → u ∈ steps (layerPlan b).

(** An execution of a bucket: the state and the future [executeBucket]
    returned (the settled future, when it returned directly or raised),
    followed by any number of turns. *)
Definition runsTo (b : Bucket) (st : State) (p : Promise) : Prop :=
  ∃ evs, turns evs (executeBucket b).1 (settled (executeBucket b).2) st p.

(** ** Buckets on which the scheduler completes *)

(** A step that keeps the contract for futures: called on columns of [n]
    rows, its future, if it fulfils, fulfils with an array of [n] rows. *)
Definition wellBehaved (n : nat) (u : ExecutableStep) : Prop :=
  ∀ dependencies r,
    firstLength dependencies = Ok n →
    execute u dependencies = ReturnsFuture (Fulfilled r) →
    ∃ column, r = RArray column ∧ length column = n.

(** The ids of the start steps. *)
Definition starterIds (b : Bucket) : list nat := id <$> startSteps (layerPlan b).

(** What the scheduler needs of a bucket to complete every step:
    - the child layer plans are all handled elsewhere;
    - the steps of the layer plan have distinct ids, and a step below a
      start step that carries the id of a step of the layer plan is that
      step;
    - a step that is no start step waits for a column that is not yet in
      the store, and each such column is the column of a step of the layer
      plan that has the waiting step among its dependents;
    - the columns the start steps depend on are in the store;
    - the columns of the store, and [noDepsList], have [size] rows;
    - the steps below the start steps keep the contract for futures. *)
Record runnable (b : Bucket) : Prop := {
  children_elsewhere : forallb handledElsewhere (children (layerPlan b)) = true;
  plan_ids : NoDup (id <$> steps (layerPlan b));
  plan_objects :
    ∀ u, reached b u → id u ∈ id <$> steps (layerPlan b) → u ∈ steps (layerPlan b);
  plan_waits :
    ∀ u, u ∈ steps (layerPlan b) → id u ∉ starterIds b →
         ∃ depId, depId ∈ dependencies u ∧ store b !! depId = None;
  plan_links :
    ∀ u depId, u ∈ steps (layerPlan b) → id u ∉ starterIds b →
               depId ∈ dependencies u → store b !! depId = None →
               ∃ t, t ∈ steps (layerPlan b) ∧ id t = depId ∧ u ∈ dependentPlans t;
  starters_have_columns :
    ∀ s depId, s ∈ startSteps (layerPlan b) → depId ∈ dependencies s →
               is_Some (store b !! depId);
  columns_sized : ∀ i column, store b !! i = Some column → length column = size b;
  noDepsList_sized : length (noDepsList b) = size b;
  steps_behave : ∀ u, reached b u → wellBehaved (size b) u
}.

(** The states of an execution of a bucket. *)
Definition sane (b : Bucket) (st : State) : Prop :=
  effects (λ s, s ∈ startSteps (layerPlan b)) (reached b) (initialState b) st.

(** The columns the bucket came with are in the store, and the steps in
    progress are in the log. *)
Definition inOrder (b : Bucket) (st : State) : Prop :=
  (∀ i, is_Some (store b !! i) → is_Some (store (bucket st) !! i))
  ∧ (∀ i, i ∈ inProgressSteps st → i ∈ dispatchedIds st).

(** Futures without a rejection, as [executeStep] and the callbacks build
    them. *)
Fixpoint clean (p : Promise) : Prop :=
  match p with
  | Waiting _ | Resolved => True
  | RejectedWith _ | ThenChildren _ => False
  | All ps => foldr (λ q acc, clean q ∧ acc) True ps
  end.

(** The ids of the steps that have a callback registered in a future. *)
Definition taskIds (p : Promise) : list nat :=
  (λ t, id (taskStep t)) <$> tasksOf p.

(** Every step of the layer plan, other than the start steps and the steps
    of [deferred], that has all its dependency columns was dispatched or is
    no longer pending. *)
Definition awaited (b : Bucket) (deferred : list ExecutableStep) (st : State) : Prop :=
  ∀ u, u ∈ steps (layerPlan b) → id u ∉ starterIds b →
       allMaterialized u st = true →
       id u ∈ dispatchedIds st ∨ id u ∉ pendingSteps st ∨ u ∈ deferred.

(** Every step in the log is [known], or no longer pending, or has a
    callback registered in one of the futures. *)
Definition accounted (known : nat → Prop) (st : State) (ps : list Promise) : Prop :=
  ∀ i, i ∈ dispatchedIds st →
       known i ∨ i ∉ pendingSteps st ∨ i ∈ ps ≫= taskIds.

(** What [executeStep] keeps, for a step below the start steps of the
    bucket: the steps that are ready were dispatched, the steps it
    dispatched are completed or have a callback in the future it hands
    back, which holds no rejection, and the step itself is in the log. *)
Definition lives (b : Bucket)
    (exec : ExecutableStep → State → State * Result (option Promise))
    (t : ExecutableStep) : Prop :=
  reached b t →
  ∀ st, inOrder b st →
    (∀ deferred, awaited b deferred st → awaited b deferred (exec t st).1)
    ∧ accounted (λ i, i ∈ dispatchedIds st) (exec t st).1 [settled (exec t st).2]
    ∧ clean (settled (exec t st).2)
    ∧ id t ∈ dispatchedIds (exec t st).1.

(** ** Counting callbacks *)

(** The callbacks a registered callback stands for: the callback of the
    future of a step is followed by the entries callback, and the callback
    of the merge by both. *)
Definition taskCost (t : Task) : nat :=
  match t with
  | WhenStepSettles _ _ => 2
  | WhenEntriesSettle _ _ => 1
  | WhenMergeSettles _ _ _ _ => 3
  end.

Definition owed (p : Promise) : nat := sum_list_with taskCost (tasksOf p).

(** The turns that ran a callback of a step. *)
Definition isRan (ev : Event) : bool :=
  match ev with
  | Ran _ => true
  | RanChildren => false
  end.

Definition callbacks (evs : list Event) : nat := length (filter (λ ev, isRan ev = true) evs).

(** [executeStep] registers callbacks for at most two turns per dispatch. *)
Definition frugal
    (exec : ExecutableStep → State → State * Result (option Promise))
    (t : ExecutableStep) : Prop :=
  ∀ st, owed (settled (exec t st).2) + 2 * length (dispatchLog st)
        ≤ 2 * length (dispatchLog (exec t st).1).

(** ** The text of an error value *)

(** The text [_CrystalError]'s constructor hands to [super]:
    [message ? `CrystalError: ${message}` : `CrystalError`], where [message]
    is [originalError?.message], which is [None] here when the original
    error is nullish or has no message.  The empty text is falsy. *)
Definition crystalErrorMessage (message : option string) : string :=
  match message with
  | Some EmptyString | None => "CrystalError"
  | Some m => "CrystalError: " +:+ m
  end.

(** ** The benchmark runner

    [run] of [benchmark]: [CONCURRENCY] chains of callbacks share the counter
    [remaining]; a chain ends when its [runner] finds the counter at zero. *)
Module Benchmark.

#[warnings="-abstract-large-number"]
Definition NUMBER_OF_REQUESTS : nat := 10000.
Definition CONCURRENCY : nat := 2.

(** How a call of [callback()] settles. *)
Inductive Outcome :=
| Passes (res : string)
| Fails (e : string).

(** [remaining] and [result] are the variables of the source; [inFlight]
    counts the calls of [callback()] that have not settled, [called] all the
    calls made, and [exited] records [process.exit(1)]. *)
Record Run := {
  remaining : nat;
  result : option string;
  inFlight : nat;
  called : nat;
  exited : bool
}.

(** [if (remaining > 0) { --remaining; return callback().then(pass, fail); }] *)
Definition runner (s : Run) : Run :=
  if decide (0 < remaining s)
  then {| remaining := remaining s - 1; result := result s;
          inFlight := S (inFlight s); called := S (called s); exited := exited s |}
  else s.

(** [result = res; return runner();] *)
Definition pass (res : string) (s : Run) : Run :=
  runner {| remaining := remaining s; result := Some res;
            inFlight := inFlight s; called := called s; exited := exited s |}.

(** [console.error(e); process.exit(1);] *)
Definition fail (e : string) (s : Run) : Run :=
  {| remaining := remaining s; result := result s;
     inFlight := inFlight s; called := called s; exited := true |}.

(** One outstanding call settles and its [then] callback runs; nothing
    runs once the process has exited or when no call is outstanding. *)
Definition settle (s : Run) (o : Outcome) : Run :=
  if exited s then s
  else if decide (inFlight s = 0) then s
  else
    let s' := {| remaining := remaining s; result := result s;
                 inFlight := inFlight s - 1; called := called s; exited := exited s |} in
    match o with
    | Passes res => pass res s'
    | Fails e => fail e s'
    end.

(** [for (let i = 0; i < CONCURRENCY; i++) promises.push(runner());] *)
Definition start (requests concurrency : nat) : Run :=
  Nat.iter concurrency runner
    {| remaining := requests; result := None; inFlight := 0; called := 0; exited := false |}.

Definition run : Run := start NUMBER_OF_REQUESTS CONCURRENCY.

Definition settleAll (outcomes : list Outcome) (s : Run) : Run := foldl settle s outcomes.

Definition isPasses (o : Outcome) : bool :=
  match o with
  | Passes _ => true
  | Fails _ => false
  end.

(** What every state of a run satisfies. *)
Definition inBounds (requests concurrency : nat) (s : Run) : Prop :=
  called s + remaining s = requests
  ∧ inFlight s ≤ concurrency
  ∧ inFlight s ≤ called s
  ∧ (exited s = false → 0 < concurrency → remaining s = 0 ∨ inFlight s = concurrency).

End Benchmark.

(** * The error-aware invoker *)

(** ** The scan as the code has it *)

Lemma scanDependencies_unbound dependencies errors foundErrors :
  scanDependencies isCrystalError_call dependencies errors foundErrors =
    match firstObstacle dependencies with
    | Some e => Throw e
    | None => Ok (errors, foundErrors)
    end.
Proof.
  induction dependencies as [|[[|v depList]|] rest IH]; simpl; try done.
Qed.

Lemma reallyExecuteStepWithErrors_unbound step dependencies :
  reallyExecuteStepWithErrors step dependencies =
    match firstObstacle dependencies with
    | Some e => Handed (Raises e)
    | None => Handed (execute step dependencies)
    end.
Proof.
  unfold reallyExecuteStepWithErrors. rewrite scanDependencies_unbound.
  by destruct (firstObstacle dependencies).
Qed.

Lemma firstObstacle_None dependencies :
  firstObstacle dependencies = None ↔ Forall (λ depList, depList = Some []) dependencies.
Proof.
  induction dependencies as [|[[|v depList]|] rest IH]; simpl.
  - split; [constructor|done].
  - rewrite Forall_cons. naive_solver.
  - split; [done|]. by intros [[=] _]%Forall_cons.
  - split; [done|]. by intros [[=] _]%Forall_cons.
Qed.

(** The invoker never hands on the future of a merge. *)
Lemma invoke_handed step dependencies st :
  ∃ x : Executed, invoke step dependencies st = Handed x.
Proof.
  unfold invoke. destruct (hasErrors (bucket st)); [|by eexists].
  rewrite reallyExecuteStepWithErrors_unbound.
  destruct (firstObstacle dependencies); by eexists.
Qed.

(** ** The scan with the predicate of [error.ts] *)

Lemma scanColumn_lookup depList : ∀ k errors found,
  ∃ errors' found',
    scanColumn isCrystalError_imported depList k errors found = Ok (errors', found')
    ∧ (∀ i, errors' !! i =
         match errors !! i with
         | Some e => Some e
         | None => if decide (k ≤ i) then errorAt depList (i - k) else None
         end).
Proof.
  induction depList as [|v rest IH]; intros k errors found; simpl.
  - exists errors, found. split; [done|]. intros i.
    destruct (errors !! i); [done|]. by case_decide.
  - assert (Hskip : ∀ errors1 found1,
      errors1 = errors →
      (∀ e, v ≠ VError e ∨ is_Some (errors !! k)) →
      ∃ errors' found',
        scanColumn isCrystalError_imported rest (S k) errors1 found1 = Ok (errors', found')
        ∧ ∀ i, errors' !! i =
            match errors !! i with
            | Some e => Some e
            | None => if decide (k ≤ i) then errorAt (v :: rest) (i - k) else None
            end).
    { intros errors1 found1 -> Hv.
      destruct (IH (S k) errors found1) as (errors' & found' & Hscan & Hlook).
      exists errors', found'. split; [done|]. intros i. rewrite Hlook.
      destruct (errors !! i) eqn:Hi; [done|].
      repeat case_decide; try lia; try done.
      - replace (i - k) with (S (i - S k)) by lia. done.
      - assert (i = k) as -> by lia. rewrite Nat.sub_diag. unfold errorAt. simpl.
        destruct v; try done. destruct (Hv e) as [?|[? ?]]; congruence. }
    destruct v; simpl; try (apply Hskip; [done | by left]).
    destruct (errors !! k) eqn:Hk.
    + apply Hskip; [done | right; eauto].
    + destruct (IH (S k) (<[k := e]> errors) true) as (errors' & found' & Hscan & Hlook).
      exists errors', found'. split; [done|]. intros i. rewrite Hlook.
      destruct (decide (i = k)) as [->|Hne].
      * rewrite lookup_insert_eq, Hk. rewrite decide_True by lia.
        by rewrite Nat.sub_diag.
      * rewrite lookup_insert_ne by done.
        destruct (errors !! i); [done|].
        repeat case_decide; try lia; try done.
        replace (i - k) with (S (i - S k)) by lia. done.
Qed.

Lemma scanDependencies_materialized cols : ∀ errors found,
  ∃ errors' found',
    scanDependencies isCrystalError_imported (Some <$> cols) errors found
      = Ok (errors', found')
    ∧ (∀ i, errors' !! i =
         match errors !! i with Some e => Some e | None => firstError cols i end).
Proof.
  induction cols as [|depList rest IH]; intros errors found; csimpl.
  - exists errors, found. split; [done|].
    intros i. by destruct (errors !! i).
  - destruct (scanColumn_lookup depList 0 errors found)
      as (errors1 & found1 & -> & Hlook1). simpl.
    destruct (IH errors1 found1) as (errors' & found' & -> & Hlook).
    exists errors', found'. split; [done|].
    intros i. rewrite Hlook, Hlook1.
    destruct (errors !! i); [done|].
    by rewrite Nat.sub_0_r.
Qed.

Lemma scan_materialized cols i : errorsOf cols !! i = firstError cols i.
Proof.
  unfold errorsOf.
  destruct (scanDependencies_materialized cols ∅ false) as (errors & found & -> & Hlook).
  by rewrite Hlook, lookup_empty.
Qed.

(** ** Merging *)

Lemma consumedBetween_S errors i len :
  consumedBetween errors i (S len) =
    match errors !! i with Some _ => 0 | None => 1 end + consumedBetween errors (S i) len.
Proof.
  unfold consumedBetween. simpl. rewrite filter_cons.
  destruct (errors !! i) eqn:Hi; case_decide; naive_solver.
Qed.

Lemma mergeLoop_rows results R errors :
  entries results = Some R →
  ∀ todo i resultIndex finalResults,
  ∃ M,
    mergeLoop results errors todo i resultIndex finalResults = Ok (finalResults ++ M)
    ∧ length M = todo
    ∧ ∀ j, j < todo →
        M !! j = Some
          match errors !! (i + j) with
          | Some e => VError e
          | None => default VUndefined (R !! (resultIndex + consumedBetween errors i j))
          end.
Proof.
  intros HR. induction todo as [|todo IH]; intros i resultIndex finalResults; simpl.
  - exists []. rewrite app_nil_r. split_and!; [done..|]. intros j ?; lia.
  - assert (Hidx : ∀ k, at_index results k = Ok (default VUndefined (R !! k))).
    { intros k. destruct results; simplify_eq/=; done. }
    destruct (errors !! i) as [e|] eqn:Hi.
    + destruct (IH (S i) resultIndex (finalResults ++ [VError e])) as (M & -> & Hlen & Hrows).
      exists (VError e :: M). rewrite <- app_assoc. split_and!; [done|simpl; lia|].
      intros [|j] Hj; simpl.
      * by rewrite Nat.add_0_r, Hi.
      * rewrite Hrows by lia. rewrite consumedBetween_S, Hi.
        by replace (i + S j) with (S i + j) by lia.
    + rewrite Hidx. simpl.
      destruct (IH (S i) (S resultIndex)
                  (finalResults ++ [default VUndefined (R !! resultIndex)]))
        as (M & -> & Hlen & Hrows).
      exists (default VUndefined (R !! resultIndex) :: M).
      rewrite <- app_assoc. split_and!; [done|simpl; lia|].
      intros [|j] Hj; simpl.
      * rewrite Nat.add_0_r, Hi. unfold consumedBetween. simpl. by rewrite Nat.add_0_r.
      * rewrite Hrows by lia. rewrite consumedBetween_S, Hi.
        replace (i + S j) with (S i + j) by lia.
        by replace (S resultIndex + consumedBetween errors (S i) j)
          with (resultIndex + (1 + consumedBetween errors (S i) j)) by lia.
Qed.

Lemma mergeErrorsBackIn_rows results R errors resultCount :
  entries results = Some R →
  ∃ M,
    mergeErrorsBackIn results errors resultCount = Ok M
    ∧ length M = resultCount
    ∧ ∀ i, i < resultCount →
        M !! i = Some
          match errors !! i with
          | Some e => VError e
          | None => default VUndefined (R !! consumedBefore errors i)
          end.
Proof.
  intros HR.
  destruct (mergeLoop_rows results R errors HR resultCount 0 0 []) as (M & HM & Hlen & Hrows).
  exists M. split_and!; [done..|]. intros i Hi. by rewrite (Hrows i Hi).
Qed.

(** * The scheduler *)

(** Induction on a step with the hypothesis for all its dependents. *)
Lemma ExecutableStep_ind' (P : ExecutableStep → Prop) :
  (∀ step, Forall P (dependentPlans step) → P step) → ∀ step, P step.
Proof.
  intros H. fix IH 1. intros [i deps dependents safe exec].
  apply H. simpl. induction dependents as [|t rest IHrest]; constructor.
  - apply IH.
  - apply IHrest.
Qed.

Lemma executeStep_unfold step st :
  executeStep step st =
    if decide (id step ∈ inProgressSteps st) then (st, Ok None)
    else
      let st1 := dispatchedNow step st in
      let tried :=
        match invoke step (collectDependencies step (dispatch step st)) st1 with
        | Handed (Raises error) => (st1, Throw error)
        | Handed (ReturnsFuture s) => (st1, Ok (Some (Waiting (WhenStepSettles step s))))
        | MergedLater s errors dependencies =>
            (st1, Ok (Some (Waiting (WhenMergeSettles step s errors dependencies))))
        | Handed (Returns result) => completedStep step result true st1
        end in
      match tried with
      | (st', Ok r) => (st', Ok r)
      | (st', Throw error) =>
          completedStep step
            (RArray (arrayOfLength (size (bucket (setHasErrors st')))
                                   (VError (newCrystalError_call error (id step)))))
            true (setHasErrors st')
      end.
Proof. by destruct step. Qed.

(** The cases of what the invoker handed to [executeStep]. *)
Ltac invoked step st Hinvoke :=
  destruct (invoke_handed step (collectDependencies step (dispatch step st))
              (dispatchedNow step st)) as [[error|result|s] Hinvoke];
  rewrite Hinvoke.

Lemma descendants_unfold step u :
  u ∈ descendants step ↔ ∃ t, t ∈ dependentPlans step ∧ selfOrDescendant t u.
Proof.
  destruct step as [i deps dependents safe exec]. simpl.
  rewrite list_elem_of_bind. unfold selfOrDescendant.
  split; intros (t & H1 & H2); exists t.
  - by apply elem_of_cons in H1.
  - split; [|done]. by apply elem_of_cons.
Qed.

(** ** Every change of the state is an elementary one *)

Lemma changes_mono (A B : ExecutableStep → Prop) st st' :
  (∀ s, A s → B s) → changes A st st' → changes B st st'.
Proof.
  intros HAB. induction 1 as [|st st1 st2 Hc _ IH]; [apply rtc_refl|].
  eapply rtc_l; [|exact IH]. destruct Hc; constructor; auto.
Qed.

Lemma changes_trans A st1 st2 st3 :
  changes A st1 st2 → changes A st2 st3 → changes A st1 st3.
Proof. apply rtc_trans. Qed.

Section completion_changes.
Variable exec : ExecutableStep → State → State * Result (option Promise).

Lemma dependentsLoop_changes dependents :
  Forall (dispatchesWithin exec) dependents →
  ∀ st promises,
    changes (λ u, ∃ t, t ∈ dependents ∧ selfOrDescendant t u)
            st (dependentsLoop exec dependents st promises).1.
Proof.
  induction 1 as [|t rest Ht _ IH]; intros st promises; simpl; [apply rtc_refl|].
  assert (Hrest : ∀ st' promises',
    changes (λ u, ∃ t0, t0 ∈ t :: rest ∧ selfOrDescendant t0 u)
            st' (dependentsLoop exec rest st' promises').1).
  { intros st' promises'. eapply changes_mono; [|apply IH].
    intros u (t0 & ? & ?). exists t0. split; [by right|done]. }
  destruct (bool_decide (id t ∈ pendingSteps st) && allMaterialized t st) eqn:Hsuit;
    [|apply Hrest].
  apply andb_true_iff in Hsuit as [Hpend%bool_decide_eq_true Hmat].
  destruct (exec t st) as [st' r] eqn:Hexec.
  eapply changes_trans; [|apply Hrest].
  destruct (Ht st) as [Hsame | [Hfree Hch]]; rewrite Hexec in *; simpl in *.
  - subst. apply rtc_refl.
  - eapply rtc_l.
    + apply change_dispatch; [|done..]. exists t. split; [by left|by left].
    + eapply changes_mono; [|exact Hch]. intros u Hu. exists t. split; [by left|done].
Qed.

Lemma reallyCompletedStep_changes finishedStep column st :
  Forall (dispatchesWithin exec) (dependentPlans finishedStep) →
  changes (selfOrDescendant finishedStep) st
    (reallyCompletedStep_ exec finishedStep (publish (id finishedStep) column st)).1.
Proof.
  intros Hdeps. unfold reallyCompletedStep_.
  eapply rtc_l; [apply (change_complete _ finishedStep column); by left|].
  case_decide; [apply rtc_refl|].
  pose proof (dependentsLoop_changes _ Hdeps
    (forget (id finishedStep) (publish (id finishedStep) column st)) []) as Hloop.
  destruct (dependentsLoop exec (dependentPlans finishedStep) _ []) as [st' promises].
  simpl in Hloop.
  assert (changes (selfOrDescendant finishedStep)
            (forget (id finishedStep) (publish (id finishedStep) column st)) st').
  { eapply changes_mono; [|exact Hloop]. intros u Hu. right.
    by apply descendants_unfold. }
  by case_decide.
Qed.

Lemma completedStep_changes finishedStep result noNewErrors st :
  Forall (dispatchesWithin exec) (dependentPlans finishedStep) →
  changes (selfOrDescendant finishedStep) st
    (completedStep_ exec finishedStep result noNewErrors st).1.
Proof.
  intros Hdeps. unfold completedStep_.
  destruct result as [column| |]; try apply rtc_refl.
  case_decide as Hlen; [apply rtc_refl|].
  destruct (isSyncAndSafe finishedStep && noNewErrors); [|apply rtc_refl].
  pose proof (reallyCompletedStep_changes finishedStep column st Hdeps) as Hch.
  by destruct (reallyCompletedStep_ exec finishedStep _) as [st' r].
Qed.

(** [completedStep] raises before it changes anything. *)
Lemma completedStep_throws finishedStep result noNewErrors st st' e :
  completedStep_ exec finishedStep result noNewErrors st = (st', Throw e) →
  st' = st ∧ shapeViolation result (size (bucket st)) ∧ shapeFault e.
Proof.
  unfold completedStep_. destruct result as [column| |]; simpl.
  - case_decide; [by intros [= <- <-]|].
    destruct (isSyncAndSafe finishedStep && noNewErrors); [|done].
    by destruct (reallyCompletedStep_ exec finishedStep _).
  - by intros [= <- <-].
  - by intros [= <- <-].
Qed.

(** A column of the right length is always accepted. *)
Lemma completedStep_accepts finishedStep column noNewErrors st :
  length column = size (bucket st) →
  ∃ r, (completedStep_ exec finishedStep (RArray column) noNewErrors st).2 = Ok r.
Proof.
  intros Hlen. unfold completedStep_. rewrite decide_False by (by intros ?).
  destruct (isSyncAndSafe finishedStep && noNewErrors); [|by eexists].
  destruct (reallyCompletedStep_ exec finishedStep _). by eexists.
Qed.
End completion_changes.

Lemma length_arrayOfLength n v : length (arrayOfLength n v) = n.
Proof. apply length_replicate. Qed.

Lemma executeStep_dispatches step : dispatchesWithin executeStep step.
Proof.
  induction step as [step IH] using ExecutableStep_ind'. intros st.
  rewrite executeStep_unfold. case_decide as Hin; [by left|]. right. split; [done|].
  cbv zeta.
  assert (Hcatch : ∀ st' error,
    changes (selfOrDescendant step) (dispatchedNow step st) st' →
    changes (selfOrDescendant step) (dispatchedNow step st)
      (completedStep step
         (RArray (arrayOfLength (size (bucket (setHasErrors st')))
                                (VError (newCrystalError_call error (id step)))))
         true (setHasErrors st')).1).
  { intros st' error Hst'. eapply changes_trans; [exact Hst'|].
    eapply rtc_l; [apply change_error|]. by apply completedStep_changes. }
  invoked step st Hinvoke.
  - apply Hcatch, rtc_refl.
  - pose proof (completedStep_changes executeStep step result true
                  (dispatchedNow step st) IH) as Hch.
    fold completedStep in Hch.
    destruct (completedStep step result true (dispatchedNow step st)) as [st' [r|error]].
    + done.
    + by apply Hcatch.
  - apply rtc_refl.
Qed.

Lemma executeStep_ok step st : ∃ r, (executeStep step st).2 = Ok r.
Proof.
  rewrite executeStep_unfold. case_decide; [by eexists|]. cbv zeta.
  assert (Hcatch : ∀ st' error,
    ∃ r, (completedStep step
            (RArray (arrayOfLength (size (bucket (setHasErrors st')))
                                   (VError (newCrystalError_call error (id step)))))
            true (setHasErrors st')).2 = Ok r).
  { intros st' error. apply completedStep_accepts, length_arrayOfLength. }
  invoked step st Hinvoke; [apply Hcatch| |by eexists].
  destruct (completedStep step result true (dispatchedNow step st)) as [st' [r|error]];
    [by eexists|apply Hcatch].
Qed.

(** ** From the elementary changes to the whole execution *)

Lemma progress_trans st1 st2 st3 : progress st1 st2 → progress st2 st3 → progress st1 st3.
Proof.
  induction 1; intros; [done|..].
  - eapply progress_dispatch; eauto.
  - eapply progress_change; eauto.
Qed.

Lemma changes_progress A st st' : changes A st st' → progress st st'.
Proof.
  induction 1 as [|st st1 st2 Hc _ IH]; [constructor|].
  eapply progress_change; [|exact IH].
  destruct Hc; constructor; done.
Qed.

Lemma executeStep_progress step st : progress st (executeStep step st).1.
Proof.
  destruct (executeStep_dispatches step st) as [-> | [Hfree Hch]]; [constructor|].
  eapply progress_dispatch; [done|]. by eapply changes_progress.
Qed.

Lemma reduceEntries_changes A finishedStep result st :
  changes A st (reduceEntries finishedStep result st).1.
Proof.
  unfold reduceEntries. simpl. destruct (existsb rejects result); [|apply rtc_refl].
  apply rtc_once, change_error.
Qed.

(** What a callback does: elementary changes on its step and the steps below
    it. *)
Lemma runTask_changes t st :
  changes (selfOrDescendant (taskStep t)) st (runTask t st).1.
Proof.
  assert (Hdeps : ∀ step, Forall (dispatchesWithin executeStep) (dependentPlans step)).
  { intros step. apply Forall_forall. intros t' _. apply executeStep_dispatches. }
  destruct t as [step [values|error]|finishedStep result|step s errors dependencies];
    cbn [runTask taskStep].
  - by apply completedStep_changes.
  - eapply rtc_l; [apply change_error|]. by apply completedStep_changes.
  - pose proof (reduceEntries_changes (selfOrDescendant finishedStep) finishedStep result st) as H1.
    destruct (reduceEntries finishedStep result st) as [st1 result'].
    pose proof (reallyCompletedStep_changes executeStep finishedStep result' st1
                  (Hdeps _)) as H3.
    fold reallyCompletedStep in H3.
    destruct (reallyCompletedStep finishedStep _) as [st2 r]. simpl in *.
    by eapply changes_trans.
  - apply rtc_refl.
Qed.

Lemma executeSamePhaseChildren_state st : (executeSamePhaseChildren st).1 = st.
Proof.
  unfold executeSamePhaseChildren. case_decide; [done|].
  destruct (childrenLoop _ _); [|done]. by case_decide.
Qed.

(** ** Futures built by the executor *)

Lemma sound_All ps : sound (All ps) ↔ Forall sound ps.
Proof.
  simpl. induction ps as [|p ps IH]; simpl.
  - split; [constructor|done].
  - rewrite Forall_cons, IH. done.
Qed.

Lemma Promise_ind' (P : Promise → Prop) :
  (∀ t, P (Waiting t)) →
  (∀ ps, Forall P ps → P (All ps)) →
  P Resolved →
  (∀ e, P (RejectedWith e)) →
  (∀ p, P p → P (ThenChildren p)) →
  ∀ p, P p.
Proof.
  intros Hw Ha Hr Hj Ht. fix IH 1. intros [t|ps| |e|p]; [apply Hw| |apply Hr|apply Hj|apply Ht, IH].
  apply Ha. induction ps as [|q ps IHps]; constructor; [apply IH|apply IHps].
Qed.

Lemma statusAll_rejected l e :
  statusAll l = HasRejected e → HasRejected e ∈ l.
Proof.
  induction l as [|s l IH]; simpl; [done|].
  destruct s as [| |e'].
  - destruct (statusAll l) eqn:Hl; try done. intros [= ->]. right. by apply IH.
  - intros H. right. by apply IH.
  - intros [= ->]. by left.
Qed.

Lemma statusAll_rejected_inv l e :
  HasRejected e ∈ l → ∃ e', statusAll l = HasRejected e'.
Proof.
  induction l as [|s l IH]; [by inversion 1|].
  intros [<-|Hin]%elem_of_cons; simpl; [by eexists|].
  destruct (IH Hin) as [e' He']. rewrite He'. destruct s; by eexists.
Qed.

Lemma statusAll_pending l :
  statusAll l = StillPending → StillPending ∈ l.
Proof.
  induction l as [|s l IH]; simpl; [done|].
  destruct s as [| |e']; [by left| |done]. intros H. right. by apply IH.
Qed.

(** A rejection of a future built by the executor carries a fault of the
    executor. *)
Lemma sound_rejected p e : sound p → status p = HasRejected e → executorFault e.
Proof.
  revert e. induction p as [t|ps IH| |e'|p IH] using Promise_ind'; intros e Hs Hst.
  - done.
  - apply sound_All in Hs. simpl in Hst. apply statusAll_rejected in Hst.
    apply list_elem_of_fmap in Hst as (q & Hq & Hin).
    rewrite Forall_forall in IH. rewrite Forall_forall in Hs.
    apply (IH q Hin e); [by apply Hs|done].
  - done.
  - simpl in *. by simplify_eq.
  - simpl in *. destruct (status p) eqn:Hp; try done. simplify_eq. by apply IH.
Qed.

(** When no callback is left, the future has settled. *)
Lemma idle_settled p : idle p = true → status p ≠ StillPending.
Proof.
  induction p as [t|ps IH| |e'|p IH] using Promise_ind'; simpl; try done.
  - intros Hidle Hst. apply statusAll_pending, list_elem_of_fmap in Hst as (q & Hq & Hin).
    rewrite forallb_forall in Hidle. rewrite Forall_forall in IH.
    apply (IH q Hin); [|done]. apply Hidle. by apply list_elem_of_In.
  - intros [Hidle Hres]%andb_true_iff. specialize (IH Hidle).
    destruct (status p); done.
Qed.

Section completion_sound.
Variable exec : ExecutableStep → State → State * Result (option Promise).

Lemma dependentsLoop_sound dependents :
  Forall (yieldsSound exec) dependents →
  ∀ st promises,
    Forall sound promises →
    Forall sound (dependentsLoop exec dependents st promises).2.
Proof.
  induction 1 as [|t rest Ht _ IH]; intros st promises Hps; simpl; [done|].
  destruct (bool_decide (id t ∈ pendingSteps st) && allMaterialized t st);
    [|by apply IH].
  destruct (Ht st) as (r & Hr & Hsound).
  destruct (exec t st) as [st' r']. simpl in *. subst r'.
  apply IH. destruct r as [p|]; simpl; [|done].
  apply Forall_app. split; [done|]. by apply Forall_singleton.
Qed.

Lemma reallyCompletedStep_sound finishedStep st :
  Forall (yieldsSound exec) (dependentPlans finishedStep) →
  sound (settled (Ok (reallyCompletedStep_ exec finishedStep st).2)).
Proof.
  intros Hs. unfold reallyCompletedStep_. case_decide; [done|].
  pose proof (dependentsLoop_sound _ Hs (forget (id finishedStep) st) []
                (Forall_nil_2 _)) as Hloop.
  destruct (dependentsLoop exec _ _ []) as [st' promises]. simpl in *.
  case_decide; [|done]. by apply sound_All.
Qed.

Lemma completedStep_sound finishedStep result noNewErrors st :
  Forall (yieldsSound exec) (dependentPlans finishedStep) →
  sound (settled (completedStep_ exec finishedStep result noNewErrors st).2).
Proof.
  intros Hs. unfold completedStep_.
  destruct result as [column| |]; simpl; try (by left).
  case_decide as Hlen; [by left|].
  destruct (isSyncAndSafe finishedStep && noNewErrors); [|done].
  pose proof (reallyCompletedStep_sound finishedStep
                (publish (id finishedStep) column st) Hs) as H.
  by destruct (reallyCompletedStep_ exec finishedStep _).
Qed.
End completion_sound.

Lemma executeStep_yieldsSound step : yieldsSound executeStep step.
Proof.
  induction step as [step IH] using ExecutableStep_ind'. intros st.
  destruct (executeStep_ok step st) as [r Hr]. exists r. split; [done|].
  revert Hr. rewrite executeStep_unfold. case_decide; [by intros [= <-]|]. cbv zeta.
  assert (Hcatch : ∀ st' error,
    (completedStep step
       (RArray (arrayOfLength (size (bucket (setHasErrors st')))
                              (VError (newCrystalError_call error (id step)))))
       true (setHasErrors st')).2 = Ok r →
    sound (settled (Ok r))).
  { intros st' error <-.
    apply (completedStep_sound executeStep step _ true (setHasErrors st') IH). }
  invoked step st Hinvoke.
  - by apply Hcatch.
  - pose proof (completedStep_sound executeStep step result true
                  (dispatchedNow step st) IH) as Hsound.
    fold completedStep in Hsound.
    destruct (completedStep step result true (dispatchedNow step st)) as [st' [r'|error]].
    + by intros [= <-].
    + by apply Hcatch.
  - by intros [= <-].
Qed.

Lemma executeStep_deps_dispatch step :
  Forall (dispatchesWithin executeStep) (dependentPlans step).
Proof. apply Forall_forall. intros t' _. apply executeStep_dispatches. Qed.

Lemma executeStep_deps_sound step :
  Forall (yieldsSound executeStep) (dependentPlans step).
Proof. apply Forall_forall. intros t' _. apply executeStep_yieldsSound. Qed.

Lemma runTask_sound t st : sound (settled (runTask t st).2).
Proof.
  destruct t as [step [values|error]|finishedStep result|step s errors dependencies];
    cbn [runTask].
  - apply completedStep_sound, executeStep_deps_sound.
  - apply (completedStep_sound executeStep step _ false (setHasErrors st)),
      executeStep_deps_sound.
  - destruct (reduceEntries finishedStep result st) as [st1 result'].
    pose proof (reallyCompletedStep_sound executeStep finishedStep
                  (publish (id finishedStep) result' st1)
                  (executeStep_deps_sound _)) as H.
    fold reallyCompletedStep in H.
    by destruct (reallyCompletedStep finishedStep _) as [st2 r].
  - done.
Qed.

Lemma childrenLoop_promises childLayerPlans : ∀ childPromises r,
  childrenLoop childLayerPlans childPromises = Ok r → r = childPromises.
Proof.
  induction childLayerPlans as [|reason rest IH]; intros childPromises r; simpl.
  - by intros [= <-].
  - destruct reason; try done; apply IH.
Qed.

Lemma childrenLoop_throws childLayerPlans : ∀ childPromises e,
  childrenLoop childLayerPlans childPromises = Throw e → handOffFault e.
Proof.
  induction childLayerPlans as [|reason rest IH]; intros childPromises e; simpl; [done|].
  destruct reason; try (by intros [= <-]); apply IH.
Qed.

(** [executeSamePhaseChildren] returns directly or raises a hand-off fault. *)
Lemma executeSamePhaseChildren_result st :
  (executeSamePhaseChildren st).2 = Ok None
  ∨ ∃ e, (executeSamePhaseChildren st).2 = Throw e ∧ handOffFault e.
Proof.
  unfold executeSamePhaseChildren. case_decide; [right; by eexists|].
  destruct (childrenLoop _ _) as [childPromises|e] eqn:Hloop.
  - apply childrenLoop_promises in Hloop as ->. rewrite decide_False by (simpl; lia).
    by left.
  - right. exists e. split; [done|]. by eapply childrenLoop_throws.
Qed.

Lemma executeSamePhaseChildren_sound st :
  sound (settled (executeSamePhaseChildren st).2).
Proof.
  destruct (executeSamePhaseChildren_result st) as [-> | (e & -> & He)]; [done|].
  by right.
Qed.

(** One turn changes the state by elementary changes only, and keeps the
    futures sound. *)
Lemma turn_changes ev st p st' p' : turn ev st p st' p' → changes anyStep st st'.
Proof.
  induction 1 as [t st|ev ps1 p ps2 st st' p' _ IH|ev p st st' p' _ IH|p st Hres];
    try done.
  - eapply changes_mono; [|apply runTask_changes]. done.
  - rewrite executeSamePhaseChildren_state. apply rtc_refl.
Qed.

Lemma turn_sound ev st p st' p' : turn ev st p st' p' → sound p → sound p'.
Proof.
  induction 1 as [t st|ev ps1 p ps2 st st' p' _ IH|ev p st st' p' _ IH|p st Hres];
    intros Hsound.
  - apply runTask_sound.
  - apply sound_All, Forall_app in Hsound as [H1 [Hp H2]%Forall_cons].
    apply sound_All, Forall_app. split; [done|]. apply Forall_cons. auto.
  - by apply IH.
  - apply executeSamePhaseChildren_sound.
Qed.

Lemma turns_changes evs st p st' p' : turns evs st p st' p' → changes anyStep st st'.
Proof.
  induction 1 as [st p|ev evs st p st1 p1 st2 p2 Hturn _ IH]; [apply rtc_refl|].
  eapply changes_trans; [|exact IH]. by eapply turn_changes.
Qed.

Lemma turns_sound evs st p st' p' : turns evs st p st' p' → sound p → sound p'.
Proof.
  induction 1 as [st p|ev evs st p st1 p1 st2 p2 Hturn _ IH]; [done|].
  intros Hsound. apply IH. by eapply turn_sound.
Qed.

Lemma startLoop_progress starters : ∀ st starterPromises,
  progress st (startLoop starters st starterPromises).1.
Proof.
  induction starters as [|step rest IH]; intros st starterPromises; simpl; [constructor|].
  pose proof (executeStep_progress step st) as Hstep.
  destruct (executeStep step st) as [st' r]. simpl in *.
  eapply progress_trans; [exact Hstep|apply IH].
Qed.

Lemma startLoop_sound starters : ∀ st starterPromises,
  Forall sound starterPromises →
  Forall sound (startLoop starters st starterPromises).2.
Proof.
  induction starters as [|step rest IH]; intros st starterPromises Hps; simpl; [done|].
  destruct (executeStep_yieldsSound step st) as (r & Hr & Hsound).
  destruct (executeStep step st) as [st' r']. simpl in *. subst r'.
  apply IH. destruct r as [p|]; simpl; [|done].
  apply Forall_app. split; [done|]. by apply Forall_singleton.
Qed.

Lemma executeBucket_progress b : progress (initialState b) (executeBucket b).1.
Proof.
  unfold executeBucket.
  pose proof (startLoop_progress (startSteps (layerPlan b)) (initialState b) []) as H.
  destruct (startLoop _ _ _) as [st starterPromises]. simpl in *.
  case_decide; [done|]. by rewrite executeSamePhaseChildren_state.
Qed.

Lemma executeBucket_sound b : sound (settled (executeBucket b).2).
Proof.
  unfold executeBucket.
  pose proof (startLoop_sound (startSteps (layerPlan b)) (initialState b) []
                (Forall_nil_2 _)) as H.
  destruct (startLoop _ _ _) as [st starterPromises]. simpl in *.
  case_decide; [by apply sound_All|]. apply executeSamePhaseChildren_sound.
Qed.

(** ** What no part of the executor changes *)

Lemma progress_hasErrors st st' :
  progress st st' → hasErrors (bucket st) = true → hasErrors (bucket st') = true.
Proof.
  induction 1 as [|step st st' _ _ IH|st st1 st' Hc _ IH]; [done|by apply IH|].
  intros H. apply IH. by destruct Hc.
Qed.

Lemma progress_isComplete st st' :
  progress st st' → isComplete (bucket st') = isComplete (bucket st).
Proof.
  induction 1 as [|step st st' _ _ IH|st st1 st' Hc _ IH]; [done|by rewrite IH|].
  rewrite IH. by destruct Hc.
Qed.

(** ** Dispatching at most once, and only when ready *)

Lemma dispatchedNow_inv step st :
  schedulerInv st →
  id step ∉ dispatchedIds st →
  (∀ depId, depId ∈ dependencies step → is_Some (store (bucket st) !! depId)) →
  schedulerInv (dispatchedNow step st).
Proof.
  intros (Hnodup & Hlogged & Hready) Hfresh Hdeps. split_and!.
  - unfold dispatchedIds. simpl. by constructor.
  - intros i [->|Hin]%elem_of_cons; simpl.
    + left. set_solver.
    + destruct (Hlogged i Hin); [left; set_solver|by right].
  - intros d [->|Hin]%elem_of_cons; [|by apply Hready]. simpl. split; [done|].
    unfold collectDependencies. simpl. case_decide.
    + apply Forall_fmap, Forall_forall. intros depId Hin. by apply Hdeps.
    + apply Forall_singleton. by eexists.
Qed.

Lemma allMaterialized_spec step st :
  allMaterialized step st = true →
  ∀ depId, depId ∈ dependencies step → is_Some (store (bucket st) !! depId).
Proof.
  unfold allMaterialized. rewrite forallb_forall. intros H depId Hin.
  apply list_elem_of_In, H in Hin. by apply bool_decide_eq_true in Hin.
Qed.

Lemma change_inv A st st' : change A st st' → schedulerInv st → schedulerInv st'.
Proof.
  destruct 1 as [step st _ Hfree Hpend Hmat| |step column st _];
    intros (Hnodup & Hlogged & Hready).
  - apply dispatchedNow_inv; [done| |by apply allMaterialized_spec].
    intros Hin. destruct (Hlogged _ Hin); done.
  - done.
  - split_and!; [done| |done].
    intros i Hin. simpl. destruct (decide (i = id step)) as [->|Hne].
    + right. set_solver.
    + destruct (Hlogged i Hin); [left|right]; set_solver.
Qed.

Lemma changes_inv A st st' : changes A st st' → schedulerInv st → schedulerInv st'.
Proof. induction 1; [done|]. intros. eauto using change_inv. Qed.

(** Which steps the elementary changes may add to the log. *)
Lemma changes_dispatchedIds A st st' :
  changes A st st' →
  ∀ i, i ∈ dispatchedIds st' → i ∈ dispatchedIds st ∨ ∃ s, A s ∧ id s = i.
Proof.
  induction 1 as [|st st1 st2 Hc _ IH]; intros i Hin; [by left|].
  destruct (IH i Hin) as [Hin1|?]; [|by right].
  destruct Hc as [step st Hallowed _ _ _| |]; [|by left..].
  apply elem_of_cons in Hin1 as [->|?]; [right; by exists step|by left].
Qed.

Lemma change_store A st st' depId :
  change A st st' → is_Some (store (bucket st) !! depId) → is_Some (store (bucket st') !! depId).
Proof.
  destruct 1; simpl; try done. intros ?.
  rewrite lookup_insert. case_decide; [by eexists|done].
Qed.

Lemma changes_store A st st' depId :
  changes A st st' → is_Some (store (bucket st) !! depId) → is_Some (store (bucket st') !! depId).
Proof. induction 1; [done|]. intros. eauto using change_store. Qed.

Lemma startLoop_inv starters : ∀ st starterPromises,
  schedulerInv st →
  NoDup (id <$> starters) →
  (∀ s, s ∈ starters → id s ∉ dispatchedIds st) →
  (∀ s t, s ∈ starters → t ∈ starters → id s ∉ id <$> descendants t) →
  (∀ s depId, s ∈ starters → depId ∈ dependencies s →
     is_Some (store (bucket st) !! depId)) →
  schedulerInv (startLoop starters st starterPromises).1.
Proof.
  induction starters as [|step rest IH];
    intros st starterPromises Hinv Hnodup Hfresh Hdesc Hready; simpl; [done|].
  apply NoDup_cons in Hnodup as [Hstep Hnodup].
  assert (Hrest : ∀ st' promises,
    schedulerInv st' →
    (∀ s, s ∈ rest → id s ∉ dispatchedIds st') →
    (∀ depId, is_Some (store (bucket st) !! depId) → is_Some (store (bucket st') !! depId)) →
    schedulerInv (startLoop rest st' promises).1).
  { intros st' promises Hinv' Hfresh' Hstore. apply IH; [done..| |].
    - intros s t Hs Ht. apply Hdesc; by right.
    - intros s depId Hs Hd. apply Hstore, (Hready s); [by right|done]. }
  destruct (executeStep_dispatches step st) as [Hsame | [Hfree Hch]];
    destruct (executeStep step st) as [st' r]; simpl in *.
  - subst st'. apply Hrest; [done| |done]. intros s Hs. apply Hfresh. by right.
  - apply Hrest.
    + eapply changes_inv; [exact Hch|]. apply dispatchedNow_inv; [done|..].
      * apply Hfresh. by left.
      * intros depId Hd. apply (Hready step); [by left|done].
    + intros s Hs Hin.
      destruct (changes_dispatchedIds _ _ _ Hch _ Hin) as [Hold | (u & [->|Hu] & Hid)].
      * apply elem_of_cons in Hold as [Heq|Hold].
        -- simpl in Heq. apply Hstep. rewrite <- Heq. by apply list_elem_of_fmap_2.
        -- apply (Hfresh s); [by right|done].
      * apply Hstep. rewrite Hid. by apply list_elem_of_fmap_2.
      * apply (Hdesc s step); [by right|by left|].
        rewrite <- Hid. by apply list_elem_of_fmap_2.
    + intros depId Hsome. eapply changes_store; [exact Hch|done].
Qed.

Lemma executeBucket_inv b : wellFormed b → schedulerInv (executeBucket b).1.
Proof.
  intros [Hdistinct Hnotdep Hready]. unfold executeBucket.
  pose proof (startLoop_inv (startSteps (layerPlan b)) (initialState b) []) as H.
  destruct (startLoop _ _ _) as [st starterPromises]. simpl in *.
  assert (schedulerInv st).
  { apply H; [|done| |done|].
    - split_and!; [constructor|by inversion 1|by inversion 1].
    - intros s _. by inversion 1.
    - intros s depId ??. by eapply Hready. }
  case_decide; [done|]. by rewrite executeSamePhaseChildren_state.
Qed.

(** ** Every schedule is explored *)

Lemma nextsAll_complete (f : Promise → list (State * Promise)) ps1 : ∀ before p ps2 c,
  c ∈ f p →
  (c.1, All (before ++ ps1 ++ c.2 :: ps2)) ∈ nextsAll f before (ps1 ++ p :: ps2).
Proof.
  induction ps1 as [|q ps1 IH]; intros before p ps2 c Hc; simpl.
  - apply elem_of_app. left.
    by apply (list_elem_of_fmap_2 (λ c0 : State * Promise, (c0.1, All (before ++ c0.2 :: ps2)))).
  - apply elem_of_app. right.
    replace (before ++ q :: ps1 ++ c.2 :: ps2) with ((before ++ [q]) ++ ps1 ++ c.2 :: ps2)
      by (by rewrite <- app_assoc).
    by apply IH.
Qed.

Lemma nexts_complete ev st p st' p' :
  turn ev st p st' p' → (st', p') ∈ nexts p st.
Proof.
  induction 1 as [t st|ev ps1 p ps2 st st' p' _ IH|ev p st st' p' _ IH|p st Hres]; simpl.
  - by left.
  - by apply (nextsAll_complete (λ q, nexts q st) ps1 [] p ps2 (st', p')).
  - apply elem_of_app. left.
    by apply (list_elem_of_fmap_2 (λ c : State * Promise, (c.1, ThenChildren c.2)) _ (st', p')).
  - apply elem_of_app. right. rewrite Hres. by left.
Qed.

Lemma nextsAll_idle f ps : ∀ before,
  Forall (λ q, f q = []) ps → nextsAll f before ps = [].
Proof.
  induction ps as [|q ps IH]; intros before Hps; simpl; [done|].
  apply Forall_cons in Hps as [-> Hps]. simpl. by apply IH.
Qed.

Lemma idle_nexts p st : idle p = true → nexts p st = [].
Proof.
  induction p as [t|ps IH| |e'|p IH] using Promise_ind'; simpl; try done.
  - intros Hidle. apply nextsAll_idle.
    rewrite Forall_forall in IH. apply Forall_forall. intros q Hq. apply IH; [done|].
    rewrite forallb_forall in Hidle. apply Hidle. by apply list_elem_of_In.
  - intros [Hidle Hres]%andb_true_iff. rewrite (IH Hidle). simpl.
    by destruct (status p).
Qed.

Lemma explore_0 c :
  explore 0 c = match nexts c.2 c.1 with [] => Some [c] | _ => None end.
Proof. done. Qed.

Lemma explore_S fuel c :
  explore (S fuel) c =
    match nexts c.2 c.1 with
    | [] => Some [c]
    | cs => mjoin <$> mapM (explore fuel) cs
    end.
Proof. done. Qed.

Lemma explore_complete fuel : ∀ c l,
  explore fuel c = Some l →
  ∀ evs st' p', turns evs c.1 c.2 st' p' → idle p' = true → (st', p') ∈ l.
Proof.
  induction fuel as [|fuel IH]; intros [st p] l Hexp evs st' p' Hturns Hidle;
    cbn [fst snd] in Hturns.
  - rewrite explore_0 in Hexp. cbn [fst snd] in Hexp.
    inversion Hturns as [|ev evs' ? ? st1 p1 ? ? Hturn Hrest]; subst.
    + rewrite (idle_nexts _ _ Hidle) in Hexp. simplify_eq. by left.
    + apply nexts_complete in Hturn.
      destruct (nexts p st); [by inversion Hturn|done].
  - rewrite explore_S in Hexp. cbn [fst snd] in Hexp.
    inversion Hturns as [|ev evs' ? ? st1 p1 ? ? Hturn Hrest]; subst.
    + rewrite (idle_nexts _ _ Hidle) in Hexp. simplify_eq. by left.
    + apply nexts_complete in Hturn.
      destruct (nexts p st) as [|c0 cs] eqn:Hn; [by inversion Hturn|].
      destruct (mapM (explore fuel) (c0 :: cs)) as [ls|] eqn:HmapM; [|done].
      cbn [fmap option_fmap option_map] in Hexp. simplify_eq.
      apply mapM_Some in HmapM.
      apply list_elem_of_lookup in Hturn as [k Hk].
      destruct (Forall2_lookup_l _ _ _ _ _ HmapM Hk) as (l1 & Hl1 & Hexp1).
      apply list_elem_of_join. exists l1. split; [|by eapply list_elem_of_lookup_2].
      by apply (IH (st1, p1) l1 Hexp1 evs').
Qed.


(** ** Termination: every turn consumes weight *)

Lemma stepWeight_unfold step :
  stepWeight step = 3 + sum_list_with stepWeight (dependentPlans step).
Proof. by destruct step. Qed.

Lemma stepWeight_pos step : 3 ≤ stepWeight step.
Proof. rewrite stepWeight_unfold. lia. Qed.

Section completion_weight.
Variable exec : ExecutableStep → State → State * Result (option Promise).

Lemma dependentsLoop_weight dependents :
  Forall (boundedBy exec) dependents →
  ∀ st promises,
    sum_list_with weight (dependentsLoop exec dependents st promises).2
    ≤ sum_list_with weight promises + sum_list_with stepWeight dependents.
Proof.
  induction 1 as [|t rest Ht _ IH]; intros st promises; simpl; [lia|].
  destruct (bool_decide (id t ∈ pendingSteps st) && allMaterialized t st).
  - specialize (Ht st). destruct (exec t st) as [st' r]. simpl in Ht.
    etrans; [apply IH|].
    destruct r as [[p|]|e]; simpl in *;
      rewrite ?sum_list_with_app; simpl; lia.
  - etrans; [apply IH|]. lia.
Qed.

Lemma reallyCompletedStep_weight finishedStep st :
  Forall (boundedBy exec) (dependentPlans finishedStep) →
  weight (settled (Ok (reallyCompletedStep_ exec finishedStep st).2))
  ≤ stepWeight finishedStep - 2.
Proof.
  intros Hb. unfold reallyCompletedStep_. rewrite (stepWeight_unfold finishedStep).
  case_decide; [simpl; lia|].
  pose proof (dependentsLoop_weight _ Hb (forget (id finishedStep) st) []) as Hloop.
  destruct (dependentsLoop exec _ _ []) as [st' promises]. simpl in *.
  case_decide; simpl; lia.
Qed.

Lemma completedStep_weight finishedStep result noNewErrors st :
  Forall (boundedBy exec) (dependentPlans finishedStep) →
  weight (settled (completedStep_ exec finishedStep result noNewErrors st).2)
  ≤ stepWeight finishedStep - 1.
Proof.
  intros Hb. unfold completedStep_.
  destruct result as [column| |]; simpl; try lia.
  case_decide as Hlen; [simpl; lia|].
  destruct (isSyncAndSafe finishedStep && noNewErrors); [|simpl; lia].
  pose proof (reallyCompletedStep_weight finishedStep
                (publish (id finishedStep) column st) Hb) as Hw.
  destruct (reallyCompletedStep_ exec finishedStep _). simpl in *. lia.
Qed.
End completion_weight.

Lemma executeStep_bounded step : boundedBy executeStep step.
Proof.
  induction step as [step IH] using ExecutableStep_ind'. intros st.
  rewrite executeStep_unfold. case_decide as Hin; [simpl; lia|]. cbv zeta.
  assert (Hcatch : ∀ st' error,
    weight (settled (completedStep step
       (RArray (arrayOfLength (size (bucket (setHasErrors st')))
                              (VError (newCrystalError_call error (id step)))))
       true (setHasErrors st')).2) ≤ stepWeight step).
  { intros st' error.
    pose proof (completedStep_weight executeStep step
      (RArray (arrayOfLength (size (bucket (setHasErrors st')))
                             (VError (newCrystalError_call error (id step)))))
      true (setHasErrors st') IH) as H.
    fold completedStep in H. lia. }
  invoked step st Hinvoke;
    [apply Hcatch| |simpl; pose proof (stepWeight_pos step); lia].
  pose proof (completedStep_weight executeStep step result true
                (dispatchedNow step st) IH) as H.
  fold completedStep in H.
  destruct (completedStep step result true (dispatchedNow step st)) as [st' [r'|error]];
    [simpl in *; lia|apply Hcatch].
Qed.

Lemma runTask_weight t st : weight (settled (runTask t st).2) < taskWeight t.
Proof.
  assert (Hb : ∀ step, Forall (boundedBy executeStep) (dependentPlans step)).
  { intros step. apply Forall_forall. intros t' _. apply executeStep_bounded. }
  destruct t as [step [values|error]|finishedStep result|step s errors dependencies];
    cbn [runTask taskWeight]; [| | |simpl; lia].
  - pose proof (completedStep_weight executeStep step values false st (Hb _)) as H.
    fold completedStep in H. pose proof (stepWeight_pos step). lia.
  - pose proof (completedStep_weight executeStep step
      (RArray (arrayOfLength (size (bucket (setHasErrors st)))
                             (VError (newCrystalError_call error (id step)))))
      false (setHasErrors st) (Hb _)) as H.
    fold completedStep in H. pose proof (stepWeight_pos step). lia.
  - destruct (reduceEntries finishedStep result st) as [st1 result'].
    pose proof (reallyCompletedStep_weight executeStep finishedStep
                  (publish (id finishedStep) result' st1) (Hb _)) as H.
    fold reallyCompletedStep in H.
    destruct (reallyCompletedStep finishedStep _) as [st2 r]. simpl in *.
    pose proof (stepWeight_pos finishedStep). lia.
Qed.

Lemma turn_weight ev st p st' p' : turn ev st p st' p' → weight p' < weight p.
Proof.
  induction 1 as [t st|ev ps1 p ps2 st st' p' _ IH|ev p st st' p' _ IH|p st Hres]; simpl.
  - apply runTask_weight.
  - rewrite !sum_list_with_app. simpl. lia.
  - lia.
  - destruct (executeSamePhaseChildren_result st) as [-> | (e & -> & _)]; simpl; lia.
Qed.

(** A run has at most as many turns as the weight of the future it starts
    from. *)
Lemma turns_bounded evs st p st' p' :
  turns evs st p st' p' → length evs + weight p' ≤ weight p.
Proof.
  induction 1 as [st p|ev evs st p st1 p1 st2 p2 Hturn _ IH]; simpl; [lia|].
  apply turn_weight in Hturn. lia.
Qed.

Lemma forallb_false_split {A} (f : A → bool) l :
  forallb f l = false → ∃ l1 x l2, l = l1 ++ x :: l2 ∧ f x = false.
Proof.
  induction l as [|a l IH]; simpl; [done|].
  destruct (f a) eqn:Ha; simpl.
  - intros (l1 & x & l2 & -> & Hx)%IH. by exists (a :: l1), x, l2.
  - intros _. by exists [], a, l.
Qed.

(** As long as a callback is left, a turn is possible. *)
Lemma busy_turn p st : idle p = false → ∃ ev st' p', turn ev st p st' p'.
Proof.
  induction p as [t|ps IH| |e'|p IH] using Promise_ind'; simpl; try done.
  - intros _. eexists _, _, _. apply turn_task.
  - intros (ps1 & q & ps2 & -> & Hq)%forallb_false_split.
    rewrite Forall_forall in IH.
    destruct (IH q) as (ev & st' & q' & Hturn); [|done|].
    { apply elem_of_app. right. by left. }
    eexists _, _, _. by apply turn_all.
  - intros Hbusy. destruct (idle p) eqn:Hidle.
    + destruct (status p) eqn:Hst; try done.
      eexists _, _, _. by apply turn_children.
    + destruct (IH eq_refl) as (ev & st' & p' & Hturn).
      eexists _, _, _. by apply turn_inside.
Qed.

(** Every execution can be run until no callback is left. *)
Lemma turns_to_idle n : ∀ p st,
  weight p ≤ n → ∃ evs st' p', turns evs st p st' p' ∧ idle p' = true.
Proof.
  induction n as [|n IH]; intros p st Hn.
  - destruct (idle p) eqn:Hidle; [exists [], st, p; split; [constructor|done]|].
    destruct (busy_turn p st Hidle) as (ev & st' & p' & Hturn).
    apply turn_weight in Hturn. lia.
  - destruct (idle p) eqn:Hidle; [exists [], st, p; split; [constructor|done]|].
    destruct (busy_turn p st Hidle) as (ev & st1 & p1 & Hturn).
    destruct (IH p1 st1) as (evs & st' & p' & Hturns & Hidle').
    { apply turn_weight in Hturn. lia. }
    exists (ev :: evs), st', p'. split; [|done]. by econstructor.
Qed.


(** ** Rejections reach the future [executeBucket] returned *)

Lemma isRejected_All ps : isRejected (All ps) ↔ Exists isRejected ps.
Proof.
  unfold isRejected. simpl. split.
  - intros [e He]. apply statusAll_rejected, list_elem_of_fmap in He as (q & Hq & Hin).
    apply Exists_exists. exists q. split; [done|]. by exists e.
  - intros (q & Hin & e & He)%Exists_exists.
    apply (statusAll_rejected_inv _ e). rewrite <- He. by apply list_elem_of_fmap_2.
Qed.

Lemma isRejected_ThenChildren p : isRejected p → isRejected (ThenChildren p).
Proof. intros [e He]. exists e. simpl. by rewrite He. Qed.

(** A callback that raises rejects the future it sits in. *)
Lemma turn_raise t st p st' p' e :
  turn (Ran t) st p st' p' → (runTask t st).2 = Throw e → isRejected p'.
Proof.
  intros Hturn. remember (Ran t) as ev eqn:Hev.
  induction Hturn as [t0 st|ev ps1 p ps2 st st' p' _ IH|ev p st st' p' _ IH|p st Hres];
    intros Hthrow.
  - injection Hev as <-. rewrite Hthrow. by exists e.
  - apply isRejected_All, Exists_app. right. apply Exists_cons. left. by apply IH.
  - apply isRejected_ThenChildren. by apply IH.
  - done.
Qed.

(** Once rejected, always rejected. *)
Lemma turn_rejected ev st p st' p' :
  turn ev st p st' p' → isRejected p → isRejected p'.
Proof.
  induction 1 as [t st|ev ps1 p ps2 st st' p' _ IH|ev p st st' p' _ IH|p st Hres].
  - by intros [e He].
  - intros [H1|[Hp|H2]%Exists_cons]%isRejected_All%Exists_app;
      apply isRejected_All, Exists_app.
    + by left.
    + right. apply Exists_cons. left. by apply IH.
    + right. apply Exists_cons. by right.
  - intros [e He]. simpl in He. destruct (status p) eqn:Hp; try done.
    apply isRejected_ThenChildren, IH. by eexists.
  - intros [e He]. simpl in He. by rewrite Hres in He.
Qed.

Lemma turns_rejected evs st p st' p' :
  turns evs st p st' p' → isRejected p → isRejected p'.
Proof. induction 1; [done|]. intros. eauto using turn_rejected. Qed.

(** ** Where a published column stays *)

Lemma change_store_other A st st' i :
  change A st st' → (∀ s, A s → id s ≠ i) →
  store (bucket st') !! i = store (bucket st) !! i.
Proof.
  destruct 1 as [| |step column st Hallowed]; simpl; try done.
  intros HA. rewrite lookup_insert_ne; [done|]. by apply HA.
Qed.

Lemma changes_store_other A st st' i :
  changes A st st' → (∀ s, A s → id s ≠ i) →
  store (bucket st') !! i = store (bucket st) !! i.
Proof.
  induction 1 as [|st st1 st2 Hc _ IH]; intros HA; [done|].
  rewrite IH by done. by eapply change_store_other.
Qed.

(** Completing a step leaves its own column alone, unless a step below it
    carries the same id. *)
Lemma reallyCompletedStep_keeps finishedStep st :
  id finishedStep ∉ id <$> descendants finishedStep →
  store (bucket (reallyCompletedStep finishedStep st).1) !! id finishedStep
  = store (bucket st) !! id finishedStep.
Proof.
  intros Hfresh. unfold reallyCompletedStep, reallyCompletedStep_.
  case_decide; [done|].
  pose proof (dependentsLoop_changes executeStep _
                (executeStep_deps_dispatch finishedStep)
                (forget (id finishedStep) st) []) as Hloop.
  destruct (dependentsLoop executeStep _ _ []) as [st' promises]. simpl in Hloop.
  assert (store (bucket st') !! id finishedStep = store (bucket st) !! id finishedStep).
  { rewrite (changes_store_other _ _ _ (id finishedStep) Hloop); [done|].
    intros s Hs%descendants_unfold Heq. apply Hfresh. rewrite <- Heq.
    by apply list_elem_of_fmap_2. }
  by case_decide.
Qed.

(** The column that repeats one error value passes the entries callback
    unchanged. *)
Lemma reduceEntries_broadcast finishedStep n ce st :
  reduceEntries finishedStep (arrayOfLength n (VError ce)) st
  = (st, arrayOfLength n (VError ce)).
Proof.
  unfold reduceEntries, arrayOfLength. f_equal.
  - induction n as [|n IH]; [done|]. simpl in *. done.
  - induction n as [|n IH]; [done|]. csimpl. by rewrite IH.
Qed.

(** [completedStep] on a column of the right length. *)
Lemma completedStep_right_length finishedStep column noNewErrors st :
  length column = size (bucket st) →
  completedStep finishedStep (RArray column) noNewErrors st =
    if isSyncAndSafe finishedStep && noNewErrors
    then (let '(st', r) := reallyCompletedStep finishedStep
                             (publish (id finishedStep) column st) in (st', Ok r))
    else (st, Ok (Some (Waiting (WhenEntriesSettle finishedStep column)))).
Proof.
  intros Hlen. unfold completedStep, completedStep_.
  by rewrite decide_False by (by rewrite Hlen; intros ?).
Qed.

Lemma runTask_hasErrors t st :
  hasErrors (bucket st) = true → hasErrors (bucket (runTask t st).1) = true.
Proof.
  intros H. eapply progress_hasErrors; [|done].
  eapply changes_progress, runTask_changes.
Qed.

(** ** A step that raises during dispatch *)

Lemma executeStep_raises step st error :
  id step ∉ inProgressSteps st →
  invoke step (collectDependencies step (dispatch step st)) (dispatchedNow step st)
    = Raises error →
  executeStep step st =
    completedStep step
      (RArray (arrayOfLength (size (bucket st)) (VError (newCrystalError error))))
      true (setHasErrors (dispatchedNow step st)).
Proof.
  intros Hfree Hraise. rewrite executeStep_unfold, decide_False by done. cbv zeta.
  by rewrite Hraise.
Qed.

Lemma executeStep_raises_hasErrors step st error :
  id step ∉ inProgressSteps st →
  invoke step (collectDependencies step (dispatch step st)) (dispatchedNow step st)
    = Raises error →
  hasErrors (bucket (executeStep step st).1) = true.
Proof.
  intros Hfree Hraise. rewrite (executeStep_raises step st error) by done.
  apply (progress_hasErrors (setHasErrors (dispatchedNow step st))); [|done].
  eapply changes_progress, completedStep_changes, executeStep_deps_dispatch.
Qed.

(** ** A step that returns directly *)

Lemma completedStep_refuses finishedStep result noNewErrors st :
  shapeViolation result (size (bucket st)) →
  ∃ e, shapeFault e
       ∧ completedStep finishedStep result noNewErrors st = (st, Throw e).
Proof.
  intros Hshape. unfold completedStep, completedStep_.
  destruct result as [column| |]; simpl in *;
    [rewrite decide_True by done|..]; (eexists; split; [|reflexivity]; exact I).
Qed.

Lemma executeStep_wrong_shape step st result :
  id step ∉ inProgressSteps st →
  invoke step (collectDependencies step (dispatch step st)) (dispatchedNow step st)
    = Returns result →
  shapeViolation result (size (bucket st)) →
  ∃ e, shapeFault e
       ∧ executeStep step st =
           completedStep step
             (RArray (arrayOfLength (size (bucket st)) (VError (newCrystalError e))))
             true (setHasErrors (dispatchedNow step st)).
Proof.
  intros Hfree Hinvoke Hshape.
  destruct (completedStep_refuses step result true (dispatchedNow step st) Hshape)
    as (e & He & Hthrow).
  exists e. split; [done|].
  rewrite executeStep_unfold, decide_False by done. cbv zeta.
  by rewrite Hinvoke, Hthrow.
Qed.

Lemma executeStep_returns_column step st column :
  id step ∉ inProgressSteps st →
  invoke step (collectDependencies step (dispatch step st)) (dispatchedNow step st)
    = Returns (RArray column) →
  length column = size (bucket st) →
  executeStep step st =
    if isSyncAndSafe step
    then (let '(st', r) := reallyCompletedStep step
            (publish (id step) column (dispatchedNow step st)) in (st', Ok r))
    else (dispatchedNow step st, Ok (Some (Waiting (WhenEntriesSettle step column)))).
Proof.
  intros Hfree Hinvoke Hlen.
  rewrite executeStep_unfold, decide_False by done. cbv zeta.
  rewrite Hinvoke, completedStep_right_length by done. rewrite andb_true_r.
  destruct (isSyncAndSafe step); [|done].
  by destruct (reallyCompletedStep step _).
Qed.

Lemma completedStep_hasErrors finishedStep result noNewErrors st :
  hasErrors (bucket st) = true →
  hasErrors (bucket (completedStep finishedStep result noNewErrors st).1) = true.
Proof.
  apply progress_hasErrors.
  eapply changes_progress, completedStep_changes, executeStep_deps_dispatch.
Qed.

(** The entries callback puts an error value where an entry rejects. *)
Lemma reduceEntry_rejected stepId (result : list value) i v reason :
  result !! i = Some v → settle v = rejected reason →
  (reduceEntry stepId <$> result) !! i = Some (VError (newCrystalError reason)).
Proof.
  intros Hv Hsettle. rewrite list_lookup_fmap, Hv. simpl.
  unfold reduceEntry. by rewrite Hsettle.
Qed.

(** * The properties of the specification *)

(** C1.  The claim fails on the code as it is.  The scan of the error-aware
    invoker calls [isCrystalError], a name that [executeBucket.ts] does not
    import: on a column with an entry the call raises a ReferenceError
    before the step is called, whatever the step is.  [executeStep] catches
    it and completes the step with the column that repeats the error value
    of that ReferenceError.  In the bucket whose column 1 holds an error
    value in its second row, the step that multiplies by ten would give
    [10, 30] for the filtered batch, and the claim asks for the column
    [10, error, 30]; the store holds the error value of the ReferenceError
    in all three rows. *)
Theorem isCrystalError_unbound_overwrites_error_rows :
  firstError [erroredColumn] 1 = Some (newCrystalError boom)
  ∧ execute timesTen (Some <$> (filterRows (errorsOf [erroredColumn]) 0 <$> [erroredColumn]))
    = Returns (RArray [VData 10; VData 30])
  ∧ (∀ f,
       let step := overColumnOne f in
       let b := bucketOf 3 [step] [step] [] {[ 1 := erroredColumn ]} true in
       passed <$> dispatchLog (executeBucket b).1 = [[Some erroredColumn]]
       ∧ invoke step [Some erroredColumn] (dispatchedNow step (initialState b))
         = Raises (ReferenceError "isCrystalError")
       ∧ outcome (executeBucket b).2 = Completed
       ∧ store (bucket (executeBucket b).1) !! id step
         = Some [VError unboundError; VError unboundError; VError unboundError])
  ∧ store (bucket (executeBucket erroredBucket).1) !! id timesTen
    ≠ Some [VData 10; VError (newCrystalError boom); VData 30].
Proof.
  split_and!.
  - reflexivity.
  - vm_compute. reflexivity.
  - intros f step b. split_and!; vm_compute; reflexivity.
  - vm_compute. discriminate.
Qed.

(** C10.  The claim fails on the code as it is, by the defect of C1.  In the
    bucket that came with [hasErrors] raised and no error value in column 1,
    a direct invocation of the step gives [10, 20, 30]; the error-aware
    invoker raises the ReferenceError of the unbound name at the first
    entry, whatever the step is, and the store holds the error value of that
    ReferenceError in all three rows.  The error-aware invoker calls the
    step only when every dependency column is empty. *)
Theorem isCrystalError_unbound_blocks_direct_invocation :
  Forall (λ v, isCrystalError v = false) [VData 1; VData 2; VData 3]
  ∧ reallyExecuteStepWithNoErrors timesTen [Some [VData 1; VData 2; VData 3]]
    = Returns (RArray [VData 10; VData 20; VData 30])
  ∧ (∀ f,
       let step := overColumnOne f in
       let b := bucketOf 3 [step] [step] [] {[ 1 := [VData 1; VData 2; VData 3] ]} true in
       reallyExecuteStepWithErrors step [Some [VData 1; VData 2; VData 3]]
         = Raises (ReferenceError "isCrystalError")
       ∧ invoke step [Some [VData 1; VData 2; VData 3]] (dispatchedNow step (initialState b))
         = Raises (ReferenceError "isCrystalError")
       ∧ outcome (executeBucket b).2 = Completed
       ∧ store (bucket (executeBucket b).1) !! id step
         = Some [VError unboundError; VError unboundError; VError unboundError])
  ∧ store (bucket (executeBucket flaggedBucket).1) !! id timesTen
    ≠ Some [VData 10; VData 20; VData 30]
  ∧ (∀ step dependencies r,
       reallyExecuteStepWithErrors step dependencies = Returns r
       ∨ (∃ s, reallyExecuteStepWithErrors step dependencies = ReturnsFuture s) →
       Forall (λ depList, depList = Some []) dependencies).
Proof.
  split_and!.
  - repeat constructor.
  - vm_compute. reflexivity.
  - intros f step b. split_and!; vm_compute; reflexivity.
  - vm_compute. discriminate.
  - intros step dependencies r Hcalled.
    rewrite reallyExecuteStepWithErrors_unbound in Hcalled.
    apply firstObstacle_None.
    destruct (firstObstacle dependencies); [|done].
    by destruct Hcalled as [?|[? ?]].
Qed.

(** C5.  The constructor of error values keeps the original error and nothing
    else: the step id the call sites pass is dropped, so two steps that fail
    with the same error produce the same error value, and after the
    catastrophic failure of a step its column holds error values that do not
    name the step. *)
Theorem newCrystalError_drops_step_id :
  (∀ error stepId, originalError (newCrystalError_call error stepId) = error)
  ∧ (∀ error stepId stepId',
       newCrystalError_call error stepId = newCrystalError_call error stepId')
  ∧ store (bucket (executeBucket catastrophicBucket).1) !! id raising
    = Some (replicate 3 (VError {| originalError := boom |})).
Proof. split_and!; [done|done|]. vm_compute. reflexivity. Qed.

(** C6.  No part of [executeBucket] writes [isComplete]: it is after the
    execution what it was before.  A bucket of no rows completes directly,
    with no step pending, and is left with [isComplete = false]; in the
    diamond the returned future resolves under each of the three orders of
    the callbacks, and [isComplete] is false at the end of each. *)
Theorem isComplete_never_set :
  (∀ b, isComplete (bucket (executeBucket b).1) = isComplete b)
  ∧ outcome (executeBucket zeroSizeBucket).2 = Completed
  ∧ pendingSteps (executeBucket zeroSizeBucket).1 = ∅
  ∧ isComplete (bucket (executeBucket zeroSizeBucket).1) = false
  ∧ fmap (M := list) (λ c : State * Promise, (status c.2, isComplete (bucket c.1)))
      <$> explore 10 ((executeBucket (diamond false)).1,
                      settled (executeBucket (diamond false)).2)
    = Some (replicate 3 (HasResolved, false)).
Proof.
  split_and!.
  - intros b. apply (progress_isComplete _ _ (executeBucket_progress b)).
  - vm_compute. reflexivity.
  - vm_compute. reflexivity.
  - vm_compute. reflexivity.
  - vm_compute. reflexivity.
Qed.

(** C9.  [hasErrors], once true, stays true: through the synchronous part of
    [executeBucket], through any dispatch, and through every callback. *)
Theorem hasErrors_never_reset :
  (∀ b, hasErrors b = true → hasErrors (bucket (executeBucket b).1) = true)
  ∧ (∀ step st, hasErrors (bucket st) = true →
       hasErrors (bucket (executeStep step st).1) = true)
  ∧ (∀ ev st p st' p', turn ev st p st' p' → hasErrors (bucket st) = true →
       hasErrors (bucket st') = true)
  ∧ (∀ evs st p st' p', turns evs st p st' p' → hasErrors (bucket st) = true →
       hasErrors (bucket st') = true).
Proof.
  split_and!.
  - intros b. apply (progress_hasErrors _ _ (executeBucket_progress b)).
  - intros step st. apply progress_hasErrors, executeStep_progress.
  - intros ev st p st' p' H. eapply progress_hasErrors, changes_progress, turn_changes, H.
  - intros evs st p st' p' H. eapply progress_hasErrors, changes_progress, turns_changes, H.
Qed.

Lemma hasErrors_never_reset_witness :
  hasErrors (bucket (executeBucket erroredBucket).1) = true.
Proof.
  apply (proj1 hasErrors_never_reset erroredBucket). reflexivity.
Defined.

(** C3.  A step that raises during dispatch, or whose future rejects, is
    completed with the column that repeats one error value over all
    [size] rows; [hasErrors] is raised first, and neither [executeStep] nor
    the callbacks raise.  A sync-and-safe step that raises is completed at
    once; otherwise the column goes through the entries callback, which
    publishes it as it is.  Once published, the column is what the store
    holds for the step when the dependents have been walked. *)
Theorem catastrophic_failure_is_broadcast (step : ExecutableStep) (st : State)
    (error : Thrown) :
  id step ∉ inProgressSteps st →
  let dependencies := collectDependencies step (dispatch step st) in
  let column := arrayOfLength (size (bucket st)) (VError (newCrystalError error)) in
  (length column = size (bucket st) ∧ ∀ v, v ∈ column → v = VError (newCrystalError error))
  ∧ (invoke step dependencies (dispatchedNow step st) = Raises error →
       hasErrors (bucket (executeStep step st).1) = true
       ∧ executeStep step st =
           if isSyncAndSafe step
           then (let '(st', r) := reallyCompletedStep step
                   (publish (id step) column (setHasErrors (dispatchedNow step st)))
                 in (st', Ok r))
           else (setHasErrors (dispatchedNow step st),
                 Ok (Some (Waiting (WhenEntriesSettle step column)))))
  ∧ (invoke step dependencies (dispatchedNow step st) = ReturnsFuture (Rejected error) →
       executeStep step st =
         (dispatchedNow step st, Ok (Some (Waiting (WhenStepSettles step (Rejected error))))))
  ∧ (∀ st1, size (bucket st1) = size (bucket st) →
       runTask (WhenStepSettles step (Rejected error)) st1 =
         (setHasErrors st1, Ok (Some (Waiting (WhenEntriesSettle step column))))
       ∧ runTask (WhenEntriesSettle step column) st1 =
           (let '(st', r) := reallyCompletedStep step (publish (id step) column st1)
            in (st', Ok r))
       ∧ (hasErrors (bucket st1) = true →
          hasErrors (bucket (runTask (WhenEntriesSettle step column) st1).1) = true))
  ∧ (∀ st1, id step ∉ id <$> descendants step →
       store (bucket (reallyCompletedStep step (publish (id step) column st1)).1) !! id step
       = Some column).
Proof.
  intros Hfree dependencies column. split_and!.
  - apply length_arrayOfLength.
  - intros v Hv. by apply elem_of_replicate in Hv as [-> _].
  - intros Hraise. split; [by eapply executeStep_raises_hasErrors|].
    rewrite (executeStep_raises step st error) by done.
    rewrite completedStep_right_length by apply length_arrayOfLength.
    by rewrite andb_true_r.
  - intros Hreject. rewrite executeStep_unfold, decide_False by done. cbv zeta.
    fold dependencies. by rewrite Hreject.
  - intros st1 Hsize. split_and!.
    + cbn [runTask].
      rewrite completedStep_right_length by apply length_arrayOfLength.
      rewrite andb_false_r. simpl. by rewrite Hsize.
    + cbn [runTask]. unfold column. by rewrite reduceEntries_broadcast.
    + apply runTask_hasErrors.
  - intros st1 Hfresh. rewrite reallyCompletedStep_keeps by done. simpl.
    apply lookup_insert_eq.
Qed.

Lemma catastrophic_failure_is_broadcast_witness :
  let st := initialState (bucketOf 3 [raising] [raising] []
                            {[ 1 := [VData 1; VData 2; VData 3] ]} false) in
  hasErrors (bucket (executeStep raising st).1) = true
  ∧ executeStep rejecting st =
      (dispatchedNow rejecting st,
       Ok (Some (Waiting (WhenStepSettles rejecting (Rejected boom))))).
Proof.
  intros st.
  assert (Hfree : 2 ∉ inProgressSteps st).
  { apply (bool_decide_unpack _). vm_compute. exact I. }
  split.
  - apply (catastrophic_failure_is_broadcast raising st boom Hfree).
    vm_compute. reflexivity.
  - apply (catastrophic_failure_is_broadcast rejecting st boom Hfree).
    vm_compute. reflexivity.
Defined.

(** C8, as amended.  [hasErrors] is raised whenever the executor itself makes
    an error value for a step: when the invoker raises during dispatch, when
    the shape check refuses what the step returned directly, when the future
    of the step rejects, and when an entry rejects in a column that goes
    through the entries callback.  The columns that go through it are those
    a step that is not sync-and-safe returned directly and those a future
    fulfilled with.  The column a sync-and-safe step returned directly is
    stored as it is, with [hasErrors] as it was.  Dispatching a step and
    publishing a column leave [hasErrors] as it is, and a column none of
    whose entries rejects passes the entries callback without a change of
    the state, whatever error values the columns hold. *)
Theorem hasErrors_raised_with_each_new_error (step : ExecutableStep) (st : State) :
  let dependencies := collectDependencies step (dispatch step st) in
  (∀ error, id step ∉ inProgressSteps st →
     invoke step dependencies (dispatchedNow step st) = Raises error →
     hasErrors (bucket (executeStep step st).1) = true)
  ∧ (∀ result, id step ∉ inProgressSteps st →
       invoke step dependencies (dispatchedNow step st) = Returns result →
       shapeViolation result (size (bucket st)) →
       hasErrors (bucket (executeStep step st).1) = true)
  ∧ (∀ error,
       hasErrors (bucket (runTask (WhenStepSettles step (Rejected error)) st).1) = true)
  ∧ (∀ result, existsb rejects result = true →
       hasErrors (bucket (runTask (WhenEntriesSettle step result) st).1) = true)
  ∧ (∀ column, id step ∉ inProgressSteps st →
       invoke step dependencies (dispatchedNow step st) = Returns (RArray column) →
       length column = size (bucket st) →
       executeStep step st =
         if isSyncAndSafe step
         then (let '(st', r) := reallyCompletedStep step
                 (publish (id step) column (dispatchedNow step st)) in (st', Ok r))
         else (dispatchedNow step st, Ok (Some (Waiting (WhenEntriesSettle step column)))))
  ∧ (∀ column, length column = size (bucket st) →
       runTask (WhenStepSettles step (Fulfilled (RArray column))) st
       = (st, Ok (Some (Waiting (WhenEntriesSettle step column)))))
  ∧ (∀ column,
       hasErrors (bucket (publish (id step) column (dispatchedNow step st)))
       = hasErrors (bucket st))
  ∧ (∀ result, existsb rejects result = false →
       (reduceEntries step result st).1 = st).
Proof.
  intros dependencies. split_and!.
  - intros error Hfree Hraise. by eapply executeStep_raises_hasErrors.
  - intros result Hfree Hinvoke Hshape.
    destruct (executeStep_wrong_shape step st result Hfree Hinvoke Hshape) as (e & _ & ->).
    by apply completedStep_hasErrors.
  - intros error. cbn [runTask]. by apply completedStep_hasErrors.
  - intros result Hrej. cbn [runTask]. unfold reduceEntries. rewrite Hrej.
    pose proof (reallyCompletedStep_changes executeStep step
                  (reduceEntry (id step) <$> result) (setHasErrors st)
                  (executeStep_deps_dispatch _)) as Hch.
    fold reallyCompletedStep in Hch.
    destruct (reallyCompletedStep step _) as [st' r]. simpl in *.
    by apply (progress_hasErrors _ _ (changes_progress _ _ _ Hch)).
  - intros column. apply executeStep_returns_column.
  - intros column Hlen. cbn [runTask].
    rewrite completedStep_right_length by done. by rewrite andb_false_r.
  - done.
  - intros result Hrej. unfold reduceEntries. by rewrite Hrej.
Qed.

Lemma hasErrors_raised_with_each_new_error_witness :
  hasErrors (bucket (runTask (WhenEntriesSettle oneTwoThree [VData 1; VRejects boom; VData 3])
                             (initialState catastrophicBucket)).1) = true
  ∧ hasErrors (bucket (executeStep tooShort (initialState tooShortBucket)).1) = true
  ∧ store (bucket (executeStep rejectingEntry (initialState rejectingEntryBucket)).1)
      !! id rejectingEntry = Some [VData 1; VRejects boom]
  ∧ hasErrors (bucket (executeStep rejectingEntry (initialState rejectingEntryBucket)).1)
    = false.
Proof.
  split_and!.
  - apply (hasErrors_raised_with_each_new_error oneTwoThree (initialState catastrophicBucket)).
    reflexivity.
  - apply (hasErrors_raised_with_each_new_error tooShort (initialState tooShortBucket))
      with (result := RArray [VData 1]).
    + apply (bool_decide_unpack _). vm_compute. exact I.
    + vm_compute. reflexivity.
    + simpl. lia.
  - vm_compute. reflexivity.
  - vm_compute. reflexivity.
Defined.

(** The claim C8 as the spec states it fails.  A step whose input column
    holds an error value, and which publishes a column with that error
    value, leaves [hasErrors] false.  So does a step that returns an error
    value as an ordinary entry, under the only order of the callbacks: its
    column is published with the error value, its dependent is invoked on
    the unfiltered column, and [hasErrors] is false at the end. *)
Lemma hasErrors_not_raised_by_present_errors :
  (let st := (executeBucket passThroughBucket).1 in
   outcome (executeBucket passThroughBucket).2 = Completed
   ∧ passed <$> dispatchLog st = [[Some [VError (newCrystalError boom)]]]
   ∧ store (bucket st) !! id passThrough = Some [VError (newCrystalError boom)]
   ∧ hasErrors (bucket st) = false)
  ∧ fmap (M := list)
      (λ c : State * Promise,
         (status c.2, store (bucket c.1) !! id plainError,
          passed <$> dispatchesOf (id plainErrorUser) c.1, hasErrors (bucket c.1)))
      <$> explore 10 ((executeBucket plainErrorBucket).1,
                      settled (executeBucket plainErrorBucket).2)
    = Some [(HasResolved, Some erroredColumn, [[Some erroredColumn]], false)].
Proof. split; [vm_compute; done|vm_compute; reflexivity]. Qed.

Lemma turns_inv evs st p st' p' :
  turns evs st p st' p' → schedulerInv st → schedulerInv st'.
Proof. intros H. eapply changes_inv, turns_changes, H. Qed.

Lemma diamond_wellFormed safe : wellFormed (diamond safe).
Proof.
  split; simpl.
  - apply NoDup_singleton.
  - intros s t ->%list_elem_of_singleton ->%list_elem_of_singleton.
    destruct safe; vm_compute; intros Hin;
      repeat (apply elem_of_cons in Hin as [Hin|Hin]; [discriminate Hin|]);
      by apply elem_of_nil in Hin.
  - intros s depId ->%list_elem_of_singleton Hin. by apply elem_of_nil in Hin.
Qed.

(** Every order of the callbacks of the diamond, by computation. *)
Lemma diamond_explored safe :
  fmap (M := list) (λ c : State * Promise, (seenByD c.1, status c.2))
    <$> explore 10 ((executeBucket (diamond safe)).1,
                    settled (executeBucket (diamond safe)).2)
  = Some (replicate (if safe then 1 else 3)
            ([(Some [VData 21; VData 22], Some [VData 31; VData 32],
               [Some [VData 21; VData 22]; Some [VData 31; VData 32]])],
             HasResolved)).
Proof. destruct safe; vm_compute; reflexivity. Qed.

Lemma diamond_runs safe evs st' p' :
  turns evs (executeBucket (diamond safe)).1 (settled (executeBucket (diamond safe)).2)
        st' p' →
  idle p' = true →
  seenByD st' =
    [(Some [VData 21; VData 22], Some [VData 31; VData 32],
      [Some [VData 21; VData 22]; Some [VData 31; VData 32]])]
  ∧ status p' = HasResolved.
Proof.
  intros Hturns Hidle. pose proof (diamond_explored safe) as Hall.
  destruct (explore 10 _) as [l|] eqn:Hexp; [|done].
  injection Hall as Hall.
  pose proof (explore_complete 10 _ l Hexp evs st' p' Hturns Hidle) as Hin.
  apply (list_elem_of_fmap_2 (λ c : State * Promise, (seenByD c.1, status c.2))) in Hin.
  rewrite Hall in Hin. apply elem_of_replicate in Hin as [Hin _].
  by injection Hin as -> ->.
Qed.

Lemma executeBucket_throws b e : (executeBucket b).2 = Throw e → handOffFault e.
Proof.
  unfold executeBucket. destruct (startLoop _ _ _) as [st starterPromises].
  case_decide; [done|].
  destruct (executeSamePhaseChildren_result st) as [-> | (e' & -> & He')]; [done|].
  by intros [= <-].
Qed.

(** C2, as amended.  [executeBucket] raises only a fault of the hand-off.
    When it returns a future, every run of the callbacks ends after a
    bounded number of turns; the future never rejects with anything but a
    fault raised by the executor itself, and once no callback is left it has
    resolved or rejected.  A run to the end always exists.

    The faults of the steps go to the store.  A step for which the invoker
    raises during dispatch is completed with the column that repeats the
    error value of what was raised, at once when it is sync-and-safe and
    through the entries callback otherwise; so is, through the entries
    callback, a step whose future rejects.  The entries callback stores the
    column with an error value in the place of each entry that rejects, and
    a completed step finds its column in the store when its dependents have
    been walked.  Only the column that a sync-and-safe step returned
    directly is stored as the step returned it. *)
Theorem executeBucket_outcome (b : Bucket) :
  (∀ e, (executeBucket b).2 = Throw e → handOffFault e)
  ∧ (∀ p, (executeBucket b).2 = Ok (Some p) →
       (∀ evs st' p', turns evs (executeBucket b).1 p st' p' →
          length evs ≤ weight p
          ∧ (∀ e, status p' = HasRejected e → executorFault e)
          ∧ (idle p' = true → status p' ≠ StillPending))
       ∧ ∃ evs st' p', turns evs (executeBucket b).1 p st' p' ∧ idle p' = true)
  ∧ (∀ step st error,
       let column := arrayOfLength (size (bucket st)) (VError (newCrystalError error)) in
       (id step ∉ inProgressSteps st →
        invoke step (collectDependencies step (dispatch step st)) (dispatchedNow step st)
          = Raises error →
        executeStep step st =
          if isSyncAndSafe step
          then (let '(st', r) := reallyCompletedStep step
                  (publish (id step) column (setHasErrors (dispatchedNow step st)))
                in (st', Ok r))
          else (setHasErrors (dispatchedNow step st),
                Ok (Some (Waiting (WhenEntriesSettle step column)))))
       ∧ runTask (WhenStepSettles step (Rejected error)) st
         = (setHasErrors st, Ok (Some (Waiting (WhenEntriesSettle step column)))))
  ∧ (∀ step result st,
       runTask (WhenEntriesSettle step result) st =
         (let '(st', r) := reallyCompletedStep step
            (publish (id step) (reduceEntry (id step) <$> result)
                     (if existsb rejects result then setHasErrors st else st))
          in (st', Ok r))
       ∧ (∀ i v reason, result !! i = Some v → settle v = rejected reason →
            (reduceEntry (id step) <$> result) !! i = Some (VError (newCrystalError reason)))
       ∧ ∀ n e, result = arrayOfLength n (VError e) →
                reduceEntry (id step) <$> result = result)
  ∧ (∀ step column st, id step ∉ id <$> descendants step →
       store (bucket (reallyCompletedStep step (publish (id step) column st)).1) !! id step
       = Some column)
  ∧ (∀ step st column, id step ∉ inProgressSteps st →
       isSyncAndSafe step = true →
       invoke step (collectDependencies step (dispatch step st)) (dispatchedNow step st)
         = Returns (RArray column) →
       length column = size (bucket st) →
       executeStep step st =
         (let '(st', r) := reallyCompletedStep step
            (publish (id step) column (dispatchedNow step st)) in (st', Ok r))).
Proof.
  split_and!.
  - apply executeBucket_throws.
  - intros p Hp. pose proof (executeBucket_sound b) as Hsound. rewrite Hp in Hsound.
    simpl in Hsound. split.
    + intros evs st' p' Hturns. split_and!.
      * pose proof (turns_bounded _ _ _ _ _ Hturns). lia.
      * intros e. apply sound_rejected. by eapply turns_sound.
      * apply idle_settled.
    + by apply (turns_to_idle (weight p)).
  - intros step st error column. split.
    + intros Hfree Hraise. rewrite (executeStep_raises step st error) by done.
      rewrite completedStep_right_length by apply length_arrayOfLength.
      by rewrite andb_true_r.
    + cbn [runTask].
      rewrite completedStep_right_length by apply length_arrayOfLength.
      by rewrite andb_false_r.
  - intros step result st. split_and!.
    + done.
    + intros i v reason. apply reduceEntry_rejected.
    + intros n e ->. pose proof (reduceEntries_broadcast step n e st) as Hsame.
      unfold reduceEntries in Hsame. by injection Hsame.
  - intros step column st Hfresh. rewrite reallyCompletedStep_keeps by done. simpl.
    apply lookup_insert_eq.
  - intros step st column Hfree Hsafe Hinvoke Hlen.
    rewrite (executeStep_returns_column step st column) by done. by rewrite Hsafe.
Qed.

Lemma executeBucket_outcome_witness :
  ∃ evs st' p',
    turns evs (executeBucket (diamond false)).1
          (settled (executeBucket (diamond false)).2) st' p'
    ∧ idle p' = true.
Proof.
  apply (executeBucket_outcome (diamond false)).
  vm_compute. reflexivity.
Defined.

(** The claim C2 as the spec states it fails: [executeBucket] raises when the
    root layer plan is among the children, and the future it returns rejects
    when the future of a step fulfils with a column of the wrong length. *)
Lemma executeBucket_raises_and_rejects :
  outcome (executeBucket rootChildBucket).2 = Threw RootNotRoot
  ∧ ∃ st' p',
      turn (Ran (WhenStepSettles tooShortLater (Fulfilled (RArray [VData 1]))))
           (executeBucket tooShortLaterBucket).1
           (settled (executeBucket tooShortLaterBucket).2) st' p'
      ∧ status p' = HasRejected (WrongLength 1 2 1).
Proof.
  split; [vm_compute; reflexivity|].
  eexists _, _. split.
  - apply turn_inside. apply (turn_all _ [] _ []). apply turn_task.
  - vm_compute. reflexivity.
Qed.

Lemma turn_ran t st p st' p' :
  turn (Ran t) st p st' p' → st' = (runTask t st).1.
Proof.
  intros Hturn. remember (Ran t) as ev eqn:Hev.
  induction Hturn as [t0 st|ev ps1 p ps2 st st' p' _ IH|ev p st st' p' _ IH|p st Hres];
    [by injection Hev as <-|by apply IH|by apply IH|done].
Qed.

(** C4, as amended.  When the future handed to [executeStep] (on the direct
    path, the future the step returned) fulfils with something that is not
    an array, or with an array whose length is not [size], the callback
    raises the shape error: the state is left as it was, and the future
    [executeBucket] returned is rejected from then on.  Whatever
    [executeBucket] raises is a fault of the hand-off, and whatever its
    future rejects with is a shape fault or a fault of the hand-off. *)
Theorem shape_violation_through_future_escapes :
  (∀ step result st p st' p',
     shapeViolation result (size (bucket st)) →
     turn (Ran (WhenStepSettles step (Fulfilled result))) st p st' p' →
     st' = st
     ∧ isRejected p'
     ∧ ∀ evs st'' p'', turns evs st' p' st'' p'' → isRejected p'')
  ∧ (∀ b,
       (∀ e, (executeBucket b).2 = Throw e → handOffFault e)
       ∧ ∀ p evs st' p' e,
           (executeBucket b).2 = Ok (Some p) →
           turns evs (executeBucket b).1 p st' p' →
           status p' = HasRejected e → shapeFault e ∨ handOffFault e).
Proof.
  split.
  - intros step result st p st' p' Hshape Hturn.
    assert (Hthrow : ∃ e,
      runTask (WhenStepSettles step (Fulfilled result)) st = (st, Throw e)).
    { cbn [runTask]. unfold completedStep, completedStep_.
      destruct result as [column| |]; simpl in *; [|by eexists..].
      rewrite decide_True by done. by eexists. }
    destruct Hthrow as [e He].
    pose proof (turn_ran _ _ _ _ _ Hturn) as ->. rewrite He. simpl.
    assert (Hrej : isRejected p').
    { eapply turn_raise; [exact Hturn|]. by rewrite He. }
    split_and!; [done..|].
    intros evs st'' p'' Hturns. by eapply turns_rejected.
  - intros b. split; [apply executeBucket_throws|].
    intros p evs st' p' e Hp Hturns.
    pose proof (executeBucket_sound b) as Hsound. rewrite Hp in Hsound.
    apply sound_rejected. by eapply turns_sound.
Qed.

Lemma shape_violation_through_future_escapes_witness :
  ∃ st' p',
    turn (Ran (WhenStepSettles tooShortLater (Fulfilled (RArray [VData 1]))))
         (executeBucket tooShortLaterBucket).1
         (settled (executeBucket tooShortLaterBucket).2) st' p'
    ∧ st' = (executeBucket tooShortLaterBucket).1
    ∧ isRejected p'.
Proof.
  eexists _, _.
  assert (Hturn : turn (Ran (WhenStepSettles tooShortLater (Fulfilled (RArray [VData 1]))))
         (executeBucket tooShortLaterBucket).1
         (settled (executeBucket tooShortLaterBucket).2)
         (runTask (WhenStepSettles tooShortLater (Fulfilled (RArray [VData 1])))
                  (executeBucket tooShortLaterBucket).1).1
         (ThenChildren (All ([] ++ settled (runTask
            (WhenStepSettles tooShortLater (Fulfilled (RArray [VData 1])))
            (executeBucket tooShortLaterBucket).1).2 :: [])))).
  { apply turn_inside. apply (turn_all _ [] _ []). apply turn_task. }
  split; [exact Hturn|].
  assert (Hshape : shapeViolation (RArray [VData 1])
                     (size (bucket (executeBucket tooShortLaterBucket).1))).
  { vm_compute. lia. }
  destruct (proj1 shape_violation_through_future_escapes
              tooShortLater (RArray [VData 1]) _ _ _ _ Hshape Hturn)
    as (Hst & Hrej & _).
  split; [exact Hst|exact Hrej].
Defined.

(** The claim C4 as the spec states it fails.  A step of a two-row bucket
    that returns one row directly: the raise of [completedStep] is caught in
    [executeStep] (which never raises, see [executeStep_ok]), the step is
    completed with a column of error values, and [executeBucket] completes.
    And a bucket whose layer plan has a list-item child, with no step at
    all: [executeBucket] raises the error of the unimplemented hand-off,
    which is neither a shape fault nor the error for a root or unknown
    child. *)
Lemma sync_shape_violation_is_swallowed :
  (outcome (executeBucket tooShortBucket).2 = Completed
   ∧ store (bucket (executeBucket tooShortBucket).1) !! id tooShort
     = Some (replicate 2 (VError (newCrystalError (WrongLength 1 2 1))))
   ∧ hasErrors (bucket (executeBucket tooShortBucket).1) = true)
  ∧ (outcome (executeBucket listItemBucket).2 = Threw Todo
     ∧ ¬ shapeFault Todo ∧ Todo ≠ RootNotRoot ∧ Todo ≠ UnhandledReason).
Proof.
  split_and!.
  - vm_compute. reflexivity.
  - vm_compute. reflexivity.
  - vm_compute. reflexivity.
  - vm_compute. reflexivity.
  - intros [].
  - discriminate.
  - discriminate.
Qed.

(** * Further properties of the error-aware invoker *)

Lemma consumedBetween_add errors i a b :
  consumedBetween errors i (a + b)
  = consumedBetween errors i a + consumedBetween errors (i + a) b.
Proof.
  unfold consumedBetween. by rewrite seq_app, filter_app, length_app.
Qed.

(** A row free of errors consumes one entry of the result. *)
Lemma consumedBefore_lt errors i n :
  i < n → errors !! i = None → consumedBefore errors i < consumedBefore errors n.
Proof.
  intros Hi Hnone. unfold consumedBefore.
  replace n with (i + S (n - S i)) by lia.
  rewrite consumedBetween_add, Nat.add_0_l, consumedBetween_S, Hnone. lia.
Qed.

Lemma mergeErrorsBackIn_agree errors n R R' :
  (∀ k, k < consumedBefore errors n →
        default VUndefined (R !! k) = default VUndefined (R' !! k)) →
  mergeErrorsBackIn (RArray R) errors n = mergeErrorsBackIn (RArray R') errors n.
Proof.
  intros Hagree.
  destruct (mergeErrorsBackIn_rows (RArray R) R errors n eq_refl) as (M & -> & Hlen & Hrows).
  destruct (mergeErrorsBackIn_rows (RArray R') R' errors n eq_refl) as (M' & -> & Hlen' & Hrows').
  f_equal. apply list_eq_same_length with n; [done..|].
  intros i x y Hi Hx Hy. rewrite (Hrows i Hi) in Hx. rewrite (Hrows' i Hi) in Hy.
  destruct (errors !! i) eqn:Herr; [by simplify_eq|].
  rewrite Hagree in Hx by by apply consumedBefore_lt. by simplify_eq.
Qed.

(** X1.  [mergeErrorsBackIn] does not check the assertion of its doc comment
    ([results.length] plus the number of errors is [resultCount]): on an
    array it always succeeds with [resultCount] rows.  A result that is too
    short behaves as if padded with [undefined], and entries beyond those the
    rows free of errors consume are dropped. *)
Theorem mergeErrorsBackIn_pads_and_truncates (errors : gmap nat CrystalError)
    (resultCount : nat) (results surplus : list value) :
  (∃ merged, mergeErrorsBackIn (RArray results) errors resultCount = Ok merged
             ∧ length merged = resultCount)
  ∧ (∀ m, mergeErrorsBackIn (RArray (results ++ replicate m VUndefined)) errors resultCount
          = mergeErrorsBackIn (RArray results) errors resultCount)
  ∧ (consumedBefore errors resultCount ≤ length results →
     mergeErrorsBackIn (RArray (results ++ surplus)) errors resultCount
     = mergeErrorsBackIn (RArray results) errors resultCount).
Proof.
  split_and!.
  - destruct (mergeErrorsBackIn_rows (RArray results) results errors resultCount eq_refl)
      as (M & HM & Hlen & _). by exists M.
  - intros m. apply mergeErrorsBackIn_agree. intros k _.
    destruct (decide (k < length results)) as [Hk|Hk].
    + by rewrite lookup_app_l.
    + rewrite lookup_app_r by lia. rewrite (lookup_ge_None_2 results) by lia. simpl.
      destruct (replicate m VUndefined !! (k - length results)) as [v|] eqn:Hv; [|done].
      by apply lookup_replicate in Hv as [-> _].
  - intros Hlen. apply mergeErrorsBackIn_agree. intros k Hk.
    by rewrite lookup_app_l by lia.
Qed.

Lemma mergeErrorsBackIn_pads_and_truncates_witness :
  mergeErrorsBackIn (RArray ([VData 10; VData 30] ++ [VData 50]))
                    {[ 1 := newCrystalError boom ]} 3
  = mergeErrorsBackIn (RArray [VData 10; VData 30]) {[ 1 := newCrystalError boom ]} 3.
Proof.
  apply (mergeErrorsBackIn_pads_and_truncates {[ 1 := newCrystalError boom ]} 3
           [VData 10; VData 30] [VData 50]).
  vm_compute. lia.
Defined.

(** The entry of a row free of errors is found in the filtered column at the
    number of rows free of errors before it. *)
Lemma filterRows_lookup errors depList : ∀ k j,
  errors !! (k + j) = None →
  filterRows errors k depList !! consumedBetween errors k j = depList !! j.
Proof.
  induction depList as [|v rest IH]; intros k j Hnone; simpl; [done|].
  destruct j as [|j].
  - rewrite Nat.add_0_r in Hnone. by rewrite Hnone.
  - rewrite consumedBetween_S.
    replace (k + S j) with (S k + j) in Hnone by lia.
    destruct (errors !! k); simpl; by apply IH.
Qed.

Lemma length_filterRows errors depList : ∀ k,
  length (filterRows errors k depList) = consumedBetween errors k (length depList).
Proof.
  induction depList as [|v rest IH]; intros k; simpl; [done|].
  rewrite consumedBetween_S. destruct (errors !! k); simpl; by rewrite IH.
Qed.

Lemma withErrors_errorsOf depList : withErrors (errorsOf [depList]) depList = depList.
Proof.
  apply list_eq. intros i. unfold withErrors. rewrite list_lookup_imap.
  rewrite scan_materialized. simpl. unfold errorAt.
  destruct (depList !! i) as [v|]; [|done]. simpl. by destruct v.
Qed.

(** X2.  Filtering a column and merging the outcome back restores the
    column, with the error values of the map in the rows of the map: a step
    that hands its filtered input on gets its input back.  The filtered
    column has one entry per row free of errors, and a single dependency
    column passes filter and merge unchanged. *)
Theorem merge_after_filter (errors : gmap nat CrystalError) (depList : list value) :
  length (filterRows errors 0 depList) = consumedBefore errors (length depList)
  ∧ mergeErrorsBackIn (RArray (filterRows errors 0 depList)) errors (length depList)
    = Ok (withErrors errors depList)
  ∧ mergeErrorsBackIn (RArray (filterRows (errorsOf [depList]) 0 depList))
                      (errorsOf [depList]) (length depList)
    = Ok depList.
Proof.
  assert (Hmerge : ∀ errors',
    mergeErrorsBackIn (RArray (filterRows errors' 0 depList)) errors' (length depList)
    = Ok (withErrors errors' depList)).
  { intros errors'.
    destruct (mergeErrorsBackIn_rows (RArray (filterRows errors' 0 depList)) _ errors'
                (length depList) eq_refl) as (M & -> & Hlen & Hrows).
    f_equal. apply list_eq_same_length with (length depList);
      [by unfold withErrors; rewrite length_imap|done|].
    intros i x y Hi Hx Hy. rewrite (Hrows i Hi) in Hx.
    unfold withErrors in Hy. rewrite list_lookup_imap in Hy.
    destruct (depList !! i) as [v|] eqn:Hv; [|done]. simpl in Hy.
    destruct (errors' !! i) eqn:Herr; [by simplify_eq|].
    unfold consumedBefore in Hx. rewrite filterRows_lookup, Hv in Hx by done.
    by simplify_eq/=. }
  split_and!.
  - apply length_filterRows.
  - apply Hmerge.
  - by rewrite Hmerge, withErrors_errorsOf.
Qed.

Lemma mergeLoop_filter (R : list value) errors : ∀ todo i resultIndex finalResults,
  ∃ M,
    mergeLoop (RArray R) errors todo i resultIndex finalResults = Ok (finalResults ++ M)
    ∧ filterRows errors i M
      = (λ k, default VUndefined (R !! k)) <$> seq resultIndex (consumedBetween errors i todo).
Proof.
  induction todo as [|todo IH]; intros i resultIndex finalResults; simpl.
  - exists []. by rewrite app_nil_r.
  - rewrite consumedBetween_S. destruct (errors !! i) as [e|] eqn:Hi.
    + destruct (IH (S i) resultIndex (finalResults ++ [VError e])) as (M & -> & HM).
      exists (VError e :: M). rewrite <- app_assoc. split; [done|].
      simpl. by rewrite Hi.
    + simpl.
      destruct (IH (S i) (S resultIndex)
                  (finalResults ++ [default VUndefined (R !! resultIndex)]))
        as (M & -> & HM).
      exists (default VUndefined (R !! resultIndex) :: M).
      rewrite <- app_assoc. split; [done|].
      simpl. by rewrite Hi, HM.
Qed.

Lemma fmap_lookup_seq (R : list value) :
  (λ k, default VUndefined (R !! k)) <$> seq 0 (length R) = R.
Proof.
  apply list_eq. intros i. rewrite list_lookup_fmap.
  destruct (decide (i < length R)) as [Hi|Hi].
  - rewrite lookup_seq_lt by done. simpl.
    destruct (lookup_lt_is_Some_2 R i Hi) as [x ->]. done.
  - rewrite lookup_seq_ge by lia. by rewrite lookup_ge_None_2 by lia.
Qed.

(** X3.  Filtering undoes merging: when the result has one entry per row
    free of errors, the rows of the merged column that are free of errors
    are the result, in order. *)
Theorem filter_after_merge (errors : gmap nat CrystalError) (resultCount : nat)
    (results merged : list value) :
  mergeErrorsBackIn (RArray results) errors resultCount = Ok merged →
  length results = consumedBefore errors resultCount →
  filterRows errors 0 merged = results.
Proof.
  intros Hmerge Hlen. unfold mergeErrorsBackIn in Hmerge.
  destruct (mergeLoop_filter results errors resultCount 0 0 []) as (M & HM & Hfilter).
  rewrite HM in Hmerge. simpl in Hmerge. injection Hmerge as <-.
  rewrite Hfilter. fold (consumedBefore errors resultCount).
  rewrite <- Hlen. apply fmap_lookup_seq.
Qed.

Lemma filter_after_merge_witness :
  filterRows {[ 1 := newCrystalError boom ]} 0
             [VData 10; VError (newCrystalError boom); VData 30]
  = [VData 10; VData 30].
Proof.
  apply (filter_after_merge {[ 1 := newCrystalError boom ]} 3).
  - vm_compute. reflexivity.
  - vm_compute. reflexivity.
Defined.

(** * The error-aware invoker as the code has it *)

Lemma firstObstacle_entry before v depList rest :
  Forall (λ d, d = Some []) before →
  firstObstacle (before ++ Some (v :: depList) :: rest)
  = Some (ReferenceError "isCrystalError").
Proof. induction 1 as [|d before -> _ IH]; done. Qed.

Lemma firstObstacle_kinds dependencies e :
  firstObstacle dependencies = Some e →
  e = TypeError ∨ e = ReferenceError "isCrystalError".
Proof.
  induction dependencies as [|[[|v depList]|] rest IH]; simpl; try done.
  - intros [= <-]. by right.
  - intros [= <-]. by left.
Qed.

(** X4.  As the code has it, the error-aware invoker never hands a row to
    the step: it calls the step, on the columns as they are, only when every
    dependency column is empty, and the first column with an entry makes it
    raise the ReferenceError of the unbound name [isCrystalError], whatever
    the step is and whatever the entry.  So no step sees an error value on
    this path, nor any other value. *)
Theorem error_aware_invoker_calls_no_step_on_rows (step : ExecutableStep)
    (dependencies : list (option (list value))) :
  (Forall (λ depList, depList = Some []) dependencies →
   reallyExecuteStepWithErrors step dependencies = execute step dependencies)
  ∧ (∀ before v depList rest,
       dependencies = before ++ Some (v :: depList) :: rest →
       Forall (λ depList, depList = Some []) before →
       ∀ step',
         reallyExecuteStepWithErrors step' dependencies
         = Raises (ReferenceError "isCrystalError"))
  ∧ (∀ r, reallyExecuteStepWithErrors step dependencies = Returns r
          ∨ (∃ s, reallyExecuteStepWithErrors step dependencies = ReturnsFuture s) →
          Forall (λ depList, depList = Some []) dependencies)
  ∧ ∀ s errors dependencies',
      reallyExecuteStepWithErrors step dependencies ≠ MergedLater s errors dependencies'.
Proof.
  split_and!.
  - intros Hempty%firstObstacle_None.
    by rewrite reallyExecuteStepWithErrors_unbound, Hempty.
  - intros before v depList rest -> Hbefore step'.
    by rewrite reallyExecuteStepWithErrors_unbound, firstObstacle_entry.
  - intros r Hcalled. rewrite reallyExecuteStepWithErrors_unbound in Hcalled.
    apply firstObstacle_None. destruct (firstObstacle dependencies); [|done].
    by destruct Hcalled as [?|[? ?]].
  - intros s errors dependencies'. rewrite reallyExecuteStepWithErrors_unbound.
    by destruct (firstObstacle dependencies).
Qed.

Lemma error_aware_invoker_calls_no_step_on_rows_witness :
  reallyExecuteStepWithErrors timesTen [Some []; Some erroredColumn]
  = Raises (ReferenceError "isCrystalError").
Proof.
  apply (error_aware_invoker_calls_no_step_on_rows timesTen [Some []; Some erroredColumn])
    with (before := [Some []]) (v := VData 1)
         (depList := [VError (newCrystalError boom); VData 3]) (rest := []).
  - reflexivity.
  - repeat constructor.
Defined.

Lemma collectDependencies_entry step st :
  0 < size (bucket st) →
  Forall (λ depList, ∃ column, depList = Some column ∧ length column = size (bucket st))
         (collectDependencies step st) →
  firstObstacle (collectDependencies step st) = Some (ReferenceError "isCrystalError").
Proof.
  intros Hrows Hcols.
  assert (Hsome : collectDependencies step st ≠ []).
  { unfold collectDependencies. case_decide; [|done].
    destruct (dependencies step); [simpl in *; lia|done]. }
  destruct (collectDependencies step st) as [|depList rest]; [done|].
  apply Forall_inv in Hcols as (column & -> & Hlen).
  destruct column; [simpl in Hlen; lia|done].
Qed.

(** X5.  As the code has it, once [hasErrors] is raised every step that is
    dispatched in a bucket with rows fails: with all its dependency columns
    in the store, of [size] rows, the invoker raises the ReferenceError of
    the unbound name, and the step is completed with the column that
    repeats the error value of that ReferenceError, at once when it is
    sync-and-safe and through the entries callback otherwise. *)
Theorem every_step_fails_once_hasErrors_is_raised (step : ExecutableStep) (st : State) :
  id step ∉ inProgressSteps st →
  hasErrors (bucket st) = true →
  0 < size (bucket st) →
  Forall (λ depList, ∃ column, depList = Some column ∧ length column = size (bucket st))
         (collectDependencies step st) →
  let column := arrayOfLength (size (bucket st)) (VError unboundError) in
  invoke step (collectDependencies step (dispatch step st)) (dispatchedNow step st)
    = Raises (ReferenceError "isCrystalError")
  ∧ executeStep step st =
      if isSyncAndSafe step
      then (let '(st', r) := reallyCompletedStep step
              (publish (id step) column (setHasErrors (dispatchedNow step st)))
            in (st', Ok r))
      else (setHasErrors (dispatchedNow step st),
            Ok (Some (Waiting (WhenEntriesSettle step column)))).
Proof.
  intros Hfree Herr Hrows Hcols column.
  assert (Hraise : invoke step (collectDependencies step (dispatch step st))
                          (dispatchedNow step st)
                   = Raises (ReferenceError "isCrystalError")).
  { unfold invoke. simpl. rewrite Herr, reallyExecuteStepWithErrors_unbound.
    change (collectDependencies step (dispatch step st))
      with (collectDependencies step st).
    by rewrite collectDependencies_entry. }
  split; [done|].
  rewrite (executeStep_raises step st _ Hfree Hraise).
  rewrite completedStep_right_length by apply length_arrayOfLength.
  by rewrite andb_true_r.
Qed.

Lemma every_step_fails_once_hasErrors_is_raised_witness :
  store (bucket (executeStep timesTen (initialState flaggedBucket)).1) !! id timesTen
  = Some [VError unboundError; VError unboundError; VError unboundError].
Proof.
  destruct (every_step_fails_once_hasErrors_is_raised timesTen (initialState flaggedBucket)) as [_ ->].
  - apply (bool_decide_unpack _). vm_compute. exact I.
  - reflexivity.
  - simpl. lia.
  - repeat constructor. by exists [VData 1; VData 2; VData 3].
  - vm_compute. reflexivity.
Defined.

Lemma firstObstacle_before_missing dependencies :
  None ∈ dependencies → ∃ e, firstObstacle dependencies = Some e.
Proof.
  induction dependencies as [|[[|v depList]|] rest IH]; simpl; intros Hin.
  - by apply elem_of_nil in Hin.
  - apply elem_of_cons in Hin as [?|Hin]; [done|]. by apply IH.
  - by eexists.
  - by eexists.
Qed.

Lemma firstObstacle_all_missing dependencies :
  None ∈ dependencies →
  Forall (λ depList, depList = None ∨ depList = Some []) dependencies →
  firstObstacle dependencies = Some TypeError.
Proof.
  induction dependencies as [|[[|v depList]|] rest IH]; simpl; intros Hin Hall.
  - by apply elem_of_nil in Hin.
  - apply elem_of_cons in Hin as [?|Hin]; [done|].
    apply IH; [done|]. by apply Forall_cons in Hall as [_ ?].
  - by apply Forall_inv in Hall as [?|?].
  - done.
Qed.

(** X6.  A dependency column that is missing from the store makes the
    error-aware invoker raise before the step is called, whatever the step
    is: a [TypeError] when the columns that are there are all empty, and
    otherwise that or the ReferenceError of the unbound name, whichever
    column the scan meets first.  So a step dispatched with [hasErrors]
    raised and a dependency that was never published is not executed: it is
    completed with the column that repeats the error raised. *)
Theorem missing_column_raises_before_the_step_runs (step : ExecutableStep) (st : State)
    (depId : nat) :
  id step ∉ inProgressSteps st →
  hasErrors (bucket st) = true →
  depId ∈ dependencies step →
  store (bucket st) !! depId = None →
  ∃ e,
    (e = TypeError ∨ e = ReferenceError "isCrystalError")
    ∧ ((∀ d column, d ∈ dependencies step → store (bucket st) !! d = Some column →
          column = []) →
       e = TypeError)
    ∧ (∀ step', reallyExecuteStepWithErrors step' (collectDependencies step st) = Raises e)
    ∧ executeStep step st =
        completedStep step
          (RArray (arrayOfLength (size (bucket st)) (VError (newCrystalError e))))
          true (setHasErrors (dispatchedNow step st)).
Proof.
  intros Hfree Herr Hdep Hmissing.
  assert (Hcollected : collectDependencies step st
                       = (λ d, store (bucket st) !! d) <$> dependencies step).
  { unfold collectDependencies. rewrite decide_True; [done|].
    destruct (dependencies step); [by apply elem_of_nil in Hdep|simpl; lia]. }
  assert (Hnone : None ∈ collectDependencies step st).
  { rewrite Hcollected, <- Hmissing.
    by apply (list_elem_of_fmap_2 (λ d, store (bucket st) !! d)). }
  destruct (firstObstacle_before_missing _ Hnone) as [e He].
  exists e. split_and!.
  - by eapply firstObstacle_kinds.
  - intros Hempty.
    rewrite firstObstacle_all_missing in He; [by injection He|done|].
    rewrite Hcollected. apply Forall_fmap, Forall_forall. intros d Hd. simpl.
    destruct (store (bucket st) !! d) as [column|] eqn:Hcolumn; [|by left].
    right. by rewrite (Hempty d column Hd Hcolumn).
  - intros step'. by rewrite reallyExecuteStepWithErrors_unbound, He.
  - apply executeStep_raises; [done|]. unfold invoke. simpl.
    rewrite Herr, reallyExecuteStepWithErrors_unbound.
    change (collectDependencies step (dispatch step st))
      with (collectDependencies step st).
    by rewrite He.
Qed.

Lemma missing_column_raises_before_the_step_runs_witness :
  ∃ e, (∀ step', reallyExecuteStepWithErrors step'
                   (collectDependencies timesTen
                      (initialState (bucketOf 2 [timesTen] [timesTen] [] ∅ true)))
                 = Raises e)
       ∧ e = TypeError.
Proof.
  destruct (missing_column_raises_before_the_step_runs timesTen
              (initialState (bucketOf 2 [timesTen] [timesTen] [] ∅ true)) 1)
    as (e & _ & Hkind & Hraise & _).
  - apply (bool_decide_unpack _). vm_compute. exact I.
  - reflexivity.
  - by left.
  - reflexivity.
  - exists e. split; [exact Hraise|]. apply Hkind.
    intros d column ->%list_elem_of_singleton Hcolumn. discriminate Hcolumn.
Defined.

(** * Further properties of dispatching and completing a step *)

(** X9.  [completedStep] raises exactly when the result is not an array of
    [size] rows, whatever the step and the flag; what it raises is a shape
    fault, and the state is as it was.  Dispatching the dependents never
    makes it raise. *)
Theorem completedStep_raises_iff_shape_is_wrong (finishedStep : ExecutableStep)
    (result : Returned) (noNewErrors : bool) (st : State) :
  (shapeViolation result (size (bucket st))
   ↔ ∃ e, (completedStep finishedStep result noNewErrors st).2 = Throw e)
  ∧ ∀ e, (completedStep finishedStep result noNewErrors st).2 = Throw e →
         shapeFault e ∧ (completedStep finishedStep result noNewErrors st).1 = st.
Proof.
  split.
  - split.
    + intros Hshape. unfold completedStep, completedStep_.
      destruct result as [column| |]; simpl in *; [|by eexists..].
      rewrite decide_True by done. by eexists.
    + intros [e He].
      destruct (completedStep finishedStep result noNewErrors st) as [st' r] eqn:Hc.
      simpl in He. subst r.
      by destruct (completedStep_throws executeStep _ _ _ _ _ _ Hc) as (_ & ? & _).
  - intros e He.
    destruct (completedStep finishedStep result noNewErrors st) as [st' r] eqn:Hc.
    simpl in He. subst r.
    by destruct (completedStep_throws executeStep _ _ _ _ _ _ Hc) as (-> & _ & ?).
Qed.

(** X10.  [executeStep] never raises, whatever the step does, although its
    doc comment says it might: each raise of the step, of the invoker and of
    [completedStep] on a direct result ends in the [catch] block, whose own
    call of [completedStep] is given a column of [size] rows.  So
    [rejectOnThrow] hands on what [executeStep] returned, and a step that is
    in progress is left alone. *)
Theorem executeStep_never_raises (step : ExecutableStep) (st : State) :
  (∃ r, (executeStep step st).2 = Ok r ∧ rejectOnThrow (executeStep step st).2 = r)
  ∧ (id step ∈ inProgressSteps st → executeStep step st = (st, Ok None)).
Proof.
  split.
  - destruct (executeStep_ok step st) as [r Hr]. exists r. by rewrite Hr.
  - intros Hin. by rewrite executeStep_unfold, decide_True.
Qed.

(** X11.  A step that is not sync-and-safe is never completed inside
    [executeStep]: whether it raises, returns a column of any shape or
    returns a future, [executeStep] hands back a pending future for that
    step, the store and [pendingSteps] are as they were, and the step is in
    progress. *)
Theorem unsafe_step_is_completed_later (step : ExecutableStep) (st : State) :
  isSyncAndSafe step = false →
  id step ∉ inProgressSteps st →
  ∃ t, (executeStep step st).2 = Ok (Some (Waiting t))
       ∧ taskStep t = step
       ∧ store (bucket (executeStep step st).1) = store (bucket st)
       ∧ pendingSteps (executeStep step st).1 = pendingSteps st
       ∧ inProgressSteps (executeStep step st).1 = {[ id step ]} ∪ inProgressSteps st
       ∧ dispatchedIds (executeStep step st).1 = id step :: dispatchedIds st.
Proof.
  intros Hunsafe Hfree. rewrite executeStep_unfold, decide_False by done. cbv zeta.
  assert (Hcatch : ∀ error,
    completedStep step
      (RArray (arrayOfLength (size (bucket (setHasErrors (dispatchedNow step st))))
                             (VError (newCrystalError_call error (id step)))))
      true (setHasErrors (dispatchedNow step st))
    = (setHasErrors (dispatchedNow step st),
       Ok (Some (Waiting (WhenEntriesSettle step
          (arrayOfLength (size (bucket st))
                         (VError (newCrystalError_call error (id step))))))))).
  { intros error. rewrite completedStep_right_length by apply length_arrayOfLength.
    by rewrite Hunsafe. }
  invoked step st Hinvoke.
  - rewrite Hcatch. by eexists.
  - destruct (completedStep step result true (dispatchedNow step st)) as [st' [r|error]] eqn:Hc.
    + unfold completedStep, completedStep_ in Hc. rewrite Hunsafe in Hc.
      destruct result as [column| |]; [|done..].
      case_decide; [done|]. simplify_eq/=. by eexists.
    + apply (completedStep_throws executeStep) in Hc as (-> & _ & _).
      rewrite Hcatch. by eexists.
  - by eexists.
Qed.

Lemma unsafe_step_is_completed_later_witness :
  ∃ t, (executeStep plainError (initialState plainErrorBucket)).2 = Ok (Some (Waiting t))
       ∧ taskStep t = plainError.
Proof.
  destruct (unsafe_step_is_completed_later plainError (initialState plainErrorBucket))
    as (t & Ht & Hstep & _).
  - reflexivity.
  - apply (bool_decide_unpack _). vm_compute. exact I.
  - by exists t.
Defined.

Lemma reduceEntry_settled stepId v : isFuture (reduceEntry stepId v) = false.
Proof.
  unfold reduceEntry. induction v as [|z|e|v IH|e]; simpl; try done.
Qed.

Lemma reduceEntry_plain stepId v : isFuture v = false → reduceEntry stepId v = v.
Proof. by destruct v. Qed.

(** X12.  The entries callback settles every entry before the column is
    published: the column it stores has as many rows as the one it was
    given and holds no future; an entry that is no future is kept, a future
    that fulfils gives its value, and one that rejects gives an error value
    with the reason as the original error. *)
Theorem entries_callback_settles_every_entry (finishedStep : ExecutableStep)
    (result : list value) (st : State) :
  id finishedStep ∉ id <$> descendants finishedStep →
  ∃ column,
    store (bucket (runTask (WhenEntriesSettle finishedStep result) st).1) !! id finishedStep
      = Some column
    ∧ length column = length result
    ∧ Forall (λ v, isFuture v = false) column
    ∧ (∀ i v, result !! i = Some v → isFuture v = false → column !! i = Some v)
    ∧ (∀ i v, result !! i = Some (VFulfils v) → isFuture v = false →
              column !! i = Some v)
    ∧ (∀ i e, result !! i = Some (VRejects e) →
              column !! i = Some (VError (newCrystalError e))).
Proof.
  intros Hfresh. exists (reduceEntry (id finishedStep) <$> result). split_and!.
  - cbn [runTask]. unfold reduceEntries.
    pose proof (reallyCompletedStep_keeps finishedStep
      (publish (id finishedStep) (reduceEntry (id finishedStep) <$> result)
         (if existsb rejects result then setHasErrors st else st)) Hfresh) as Hkeep.
    destruct (reallyCompletedStep finishedStep _) as [st' r]. simpl in *.
    rewrite Hkeep. apply lookup_insert_eq.
  - by rewrite length_fmap.
  - apply Forall_fmap, Forall_forall. intros v _. apply reduceEntry_settled.
  - intros i v Hi Hplain. rewrite list_lookup_fmap, Hi. simpl.
    by rewrite reduceEntry_plain.
  - intros i v Hi Hplain. rewrite list_lookup_fmap, Hi. simpl. by destruct v.
  - intros i e Hi. by rewrite list_lookup_fmap, Hi.
Qed.

Lemma entries_callback_settles_every_entry_witness :
  ∃ column,
    store (bucket (runTask (WhenEntriesSettle plainError
                              [VData 1; VRejects boom; VFulfils (VData 3)])
                           (initialState plainErrorBucket)).1) !! id plainError
      = Some column
    ∧ column !! 1 = Some (VError (newCrystalError boom)).
Proof.
  destruct (entries_callback_settles_every_entry plainError
              [VData 1; VRejects boom; VFulfils (VData 3)] (initialState plainErrorBucket))
    as (column & Hstore & _ & _ & _ & _ & Hrej).
  - vm_compute. intros Hin.
    repeat (apply elem_of_cons in Hin as [Hin|Hin]; [discriminate Hin|]).
    by apply elem_of_nil in Hin.
  - exists column. split; [exact Hstore|]. apply (Hrej 1 boom). reflexivity.
Defined.

(** X13.  A sync-and-safe step that returns a column of [size] rows directly
    has it in the store when [executeStep] returns, exactly as it was
    returned: entries that are futures are stored without being awaited. *)
Theorem safe_step_is_published_as_returned (step : ExecutableStep) (st : State)
    (column : list value) :
  isSyncAndSafe step = true →
  id step ∉ inProgressSteps st →
  id step ∉ id <$> descendants step →
  invoke step (collectDependencies step (dispatch step st)) (dispatchedNow step st)
    = Returns (RArray column) →
  length column = size (bucket st) →
  (∃ r, (executeStep step st).2 = Ok r)
  ∧ store (bucket (executeStep step st).1) !! id step = Some column.
Proof.
  intros Hsafe Hfree Hfresh Hinvoke Hlen. split; [apply executeStep_ok|].
  rewrite executeStep_unfold, decide_False by done. cbv zeta. rewrite Hinvoke.
  rewrite completedStep_right_length by done. rewrite Hsafe. simpl.
  pose proof (reallyCompletedStep_keeps step
                (publish (id step) column (dispatchedNow step st)) Hfresh) as Hkeep.
  destruct (reallyCompletedStep step _) as [st' r]. simpl in *.
  rewrite Hkeep. apply lookup_insert_eq.
Qed.

Lemma safe_step_is_published_as_returned_witness :
  store (bucket (executeStep
                   (mkStep 1 [] [] true (λ _, Returns (RArray [VRejects boom])))
                   (initialState (bucketOf 1 [] [] [] ∅ false))).1) !! 1
  = Some [VRejects boom].
Proof.
  apply (safe_step_is_published_as_returned
           (mkStep 1 [] [] true (λ _, Returns (RArray [VRejects boom])))
           (initialState (bucketOf 1 [] [] [] ∅ false)) [VRejects boom]).
  - reflexivity.
  - apply (bool_decide_unpack _). vm_compute. exact I.
  - simpl. apply not_elem_of_nil.
  - reflexivity.
  - reflexivity.
Defined.

(** * Further properties of the hand-off *)

Lemma childrenLoop_passes_over reasons : ∀ childPromises,
  forallb handledElsewhere reasons = true →
  childrenLoop reasons childPromises = Ok childPromises.
Proof.
  induction reasons as [|reason rest IH]; intros childPromises; simpl; [done|].
  intros [Hr Hrest]%andb_true_iff. destruct reason; try done; by apply IH.
Qed.

Lemma childrenLoop_first_other before reason rest : ∀ childPromises,
  forallb handledElsewhere before = true →
  handledElsewhere reason = false →
  childrenLoop (before ++ reason :: rest) childPromises = Throw (raisedAt reason).
Proof.
  induction before as [|r before IH]; intros childPromises; simpl.
  - intros _ Hreason. by destruct reason.
  - intros [Hr Hbefore]%andb_true_iff Hreason. destruct r; try done; by apply IH.
Qed.

Lemma insertionOrder_elem l : ∀ seen i,
  i ∈ insertionOrder seen l ↔ i ∈ l ∧ i ∉ seen.
Proof.
  induction l as [|j l IH]; intros seen i; simpl.
  - split; [by intros ?%elem_of_nil|by intros [?%elem_of_nil _]].
  - case_decide as Hseen.
    + rewrite IH, elem_of_cons. naive_solver.
    + rewrite !elem_of_cons, IH, not_elem_of_union, not_elem_of_singleton.
      destruct (decide (i = j)); naive_solver.
Qed.

Lemma insertionOrder_NoDup l : ∀ seen, NoDup (insertionOrder seen l).
Proof.
  induction l as [|j l IH]; intros seen; simpl; [constructor|].
  case_decide; [apply IH|]. constructor; [|apply IH].
  rewrite insertionOrder_elem, not_elem_of_union, not_elem_of_singleton. naive_solver.
Qed.

Lemma insertionOrder_sublist l : ∀ seen, insertionOrder seen l `sublist_of` l.
Proof.
  induction l as [|j l IH]; intros seen; simpl; [constructor|].
  case_decide; [by apply sublist_cons|by apply sublist_skip].
Qed.

(** X14.  [executeSamePhaseChildren] completes exactly when no step is
    pending and every child layer plan has a reason that is handled
    elsewhere (subroutine, subscription, defer, stream).  It never returns a
    future and never changes the state.  Pending steps are reported before
    the children are looked at, each once, in the order in which the layer
    plan lists its steps; otherwise the first child that is not passed over
    decides what is raised. *)
Theorem executeSamePhaseChildren_completes_iff (st : State) :
  (executeSamePhaseChildren st).1 = st
  ∧ (∀ r, (executeSamePhaseChildren st).2 = Ok r → r = None)
  ∧ ((executeSamePhaseChildren st).2 = Ok None
     ↔ pendingSteps st = ∅
       ∧ forallb handledElsewhere (children (layerPlan (bucket st))) = true)
  ∧ (pendingSteps st ≠ ∅ →
     (executeSamePhaseChildren st).2 = Throw (StepsRemaining (pendingInOrder st))
     ∧ NoDup (pendingInOrder st)
     ∧ pendingInOrder st `sublist_of` (id <$> steps (layerPlan (bucket st)))
     ∧ ∀ i, i ∈ pendingInOrder st
            ↔ i ∈ pendingSteps st ∧ i ∈ id <$> steps (layerPlan (bucket st)))
  ∧ (∀ before reason rest,
       pendingSteps st = ∅ →
       children (layerPlan (bucket st)) = before ++ reason :: rest →
       forallb handledElsewhere before = true →
       handledElsewhere reason = false →
       (executeSamePhaseChildren st).2 = Throw (raisedAt reason)).
Proof.
  assert (Hpending : pendingSteps st ≠ ∅ →
    (executeSamePhaseChildren st).2 = Throw (StepsRemaining (pendingInOrder st))).
  { intros Hne. unfold executeSamePhaseChildren. rewrite decide_True; [done|].
    assert (base.size (pendingSteps st) ≠ 0); [|lia].
    apply size_non_empty_iff. by intros ?%leibniz_equiv. }
  assert (Hnone : pendingSteps st = ∅ →
    (executeSamePhaseChildren st).2 =
      match childrenLoop (children (layerPlan (bucket st))) [] with
      | Ok _ => Ok None
      | Throw e => Throw e
      end).
  { intros Hempty. unfold executeSamePhaseChildren. rewrite Hempty, size_empty.
    rewrite decide_False by lia.
    destruct (childrenLoop _ _) as [childPromises|e] eqn:Hloop; [|done].
    apply childrenLoop_promises in Hloop as ->. done. }
  split_and!.
  - apply executeSamePhaseChildren_state.
  - intros r Hr.
    destruct (executeSamePhaseChildren_result st) as [H | (e & H & _)];
      rewrite H in Hr; by simplify_eq.
  - split.
    + intros Hok. destruct (decide (pendingSteps st = ∅)) as [Hempty|Hne].
      * split; [done|]. rewrite (Hnone Hempty) in Hok.
        destruct (forallb handledElsewhere (children (layerPlan (bucket st)))) eqn:Hall;
          [done|].
        apply forallb_false_split in Hall as (before & reason & rest & Heq & Hreason).
        exfalso. revert Hok. rewrite Heq. clear -Hreason.
        generalize (@nil Promise).
        induction before as [|r before IH]; intros childPromises; simpl.
        -- by destruct reason.
        -- destruct r; try done; apply IH.
      * by rewrite (Hpending Hne) in Hok.
    + intros [Hempty Hall]. rewrite (Hnone Hempty).
      by rewrite childrenLoop_passes_over.
  - intros Hne. split_and!.
    + by apply Hpending.
    + apply NoDup_filter, insertionOrder_NoDup.
    + etrans; [apply sublist_filter|apply insertionOrder_sublist].
    + intros i. unfold pendingInOrder. rewrite list_elem_of_filter, insertionOrder_elem.
      pose proof (not_elem_of_empty (C := gset nat) i). naive_solver.
  - intros before reason rest Hempty Heq Hbefore Hreason.
    rewrite (Hnone Hempty), Heq. by rewrite childrenLoop_first_other.
Qed.

Lemma executeSamePhaseChildren_completes_iff_witness :
  (executeSamePhaseChildren
     (initialState (bucketOf 0 [] [] [defer; polymorphic; root] ∅ false))).2
  = Throw Todo
  ∧ (executeSamePhaseChildren
       (initialState (bucketOf 2 [diamondD; diamondC true; diamondB; diamondC true]
                               [] [] ∅ false))).2
    = Throw (StepsRemaining [4; 3; 2]).
Proof.
  split.
  - apply (executeSamePhaseChildren_completes_iff
             (initialState (bucketOf 0 [] [] [defer; polymorphic; root] ∅ false)))
      with (before := [defer]) (reason := polymorphic) (rest := [root]);
      reflexivity.
  - destruct (executeSamePhaseChildren_completes_iff
                (initialState (bucketOf 2 [diamondD; diamondC true; diamondB; diamondC true]
                                        [] [] ∅ false)))
      as (_ & _ & _ & Hpending & _).
    destruct Hpending as [-> _]; [|vm_compute; reflexivity].
    intros Hempty. apply (f_equal (λ X : gset nat, bool_decide (4 ∈ X))) in Hempty.
    vm_compute in Hempty. discriminate Hempty.
Defined.

(** * The guard of [executeStep] and the text of an error value *)

Lemma invoke_future step dependencies st s :
  invoke step dependencies st = ReturnsFuture s →
  ∃ dependencies' s', execute step dependencies' = ReturnsFuture s'.
Proof.
  unfold invoke, reallyExecuteStepWithNoErrors.
  destruct (hasErrors (bucket st)).
  - rewrite reallyExecuteStepWithErrors_unbound.
    destruct (firstObstacle dependencies); [done|]. intros [= H]. eauto.
  - intros [= H]. eauto.
Qed.

(** A sync-and-safe step without dependents that returns no future is
    completed inside [executeStep], and is then no longer in progress. *)
Lemma executeStep_completes_at_once step st :
  isSyncAndSafe step = true →
  dependentPlans step = [] →
  id step ∉ inProgressSteps st →
  (∀ dependencies s, execute step dependencies ≠ ReturnsFuture s) →
  (id step ∉ inProgressSteps (executeStep step st).1)
  ∧ dispatchedIds (executeStep step st).1 = id step :: dispatchedIds st.
Proof.
  intros Hsafe Hleaf Hfree Hdirect.
  rewrite executeStep_unfold, decide_False by done. cbv zeta.
  assert (Hfast : ∀ column st1,
    length column = size (bucket st1) →
    dispatchedIds st1 = id step :: dispatchedIds st →
    (id step ∉ inProgressSteps (completedStep step (RArray column) true st1).1)
    ∧ dispatchedIds (completedStep step (RArray column) true st1).1
      = id step :: dispatchedIds st).
  { intros column st1 Hlen Hlog. rewrite completedStep_right_length by done.
    rewrite Hsafe. simpl. unfold reallyCompletedStep, reallyCompletedStep_.
    rewrite Hleaf. simpl.
    destruct (decide _); simpl; (split; [set_solver|done]). }
  invoked step st Hinvoke.
  - apply Hfast; [apply length_arrayOfLength|done].
  - destruct (completedStep step result true (dispatchedNow step st)) as [st' [r|error]] eqn:Hc.
    + unfold completedStep, completedStep_ in Hc.
      destruct result as [column| |]; [|done..].
      case_decide as Hlen; [done|].
      destruct (Hfast column (dispatchedNow step st) Hlen eq_refl) as [H1 H2].
      rewrite completedStep_right_length, Hsafe in H1, H2 by done. simpl in H1, H2.
      rewrite Hsafe in Hc. simpl in Hc.
      destruct (reallyCompletedStep_ executeStep step _) as [st2 r2] eqn:Hr.
      unfold reallyCompletedStep in H1, H2. rewrite Hr in H1, H2. by simplify_eq/=.
    + apply (completedStep_throws executeStep) in Hc as (-> & _ & _).
      apply Hfast; [apply length_arrayOfLength|done].
  - apply invoke_future in Hinvoke as (dependencies' & s' & Hexec).
    by destruct (Hdirect dependencies' s').
Qed.

(** X19.  The guard of [executeStep] covers the steps in progress only.  A
    sync-and-safe step without dependents that returns no future is
    completed inside [executeStep], so when [startSteps] lists it twice it
    passes the guard twice and is dispatched twice. *)
Theorem start_step_listed_twice_runs_twice (step : ExecutableStep) (st : State) :
  isSyncAndSafe step = true →
  dependentPlans step = [] →
  id step ∉ inProgressSteps st →
  (∀ dependencies s, execute step dependencies ≠ ReturnsFuture s) →
  dispatchedIds (startLoop [step; step] st []).1 = id step :: id step :: dispatchedIds st.
Proof.
  intros Hsafe Hleaf Hfree Hdirect. simpl.
  destruct (executeStep_completes_at_once step st Hsafe Hleaf Hfree Hdirect) as [Hfree1 Hlog1].
  destruct (executeStep step st) as [st1 r1]. simpl in *.
  destruct (executeStep_completes_at_once step st1 Hsafe Hleaf Hfree1 Hdirect) as [_ Hlog2].
  destruct (executeStep step st1) as [st2 r2]. simpl in *.
  by rewrite Hlog2, Hlog1.
Qed.

Lemma start_step_listed_twice_runs_twice_witness :
  dispatchedIds (executeBucket (bucketOf 0 [noRows] [noRows; noRows] [] ∅ false)).1 = [1; 1].
Proof.
  assert (Hrun : (executeBucket (bucketOf 0 [noRows] [noRows; noRows] [] ∅ false)).1
                 = (startLoop [noRows; noRows]
                      (initialState (bucketOf 0 [noRows] [noRows; noRows] [] ∅ false)) []).1).
  { vm_compute. reflexivity. }
  rewrite Hrun.
  apply (start_step_listed_twice_runs_twice noRows
           (initialState (bucketOf 0 [noRows] [noRows; noRows] [] ∅ false))).
  - reflexivity.
  - reflexivity.
  - apply (bool_decide_unpack _). vm_compute. exact I.
  - discriminate.
Defined.

Lemma append_inj_l (s m m' : string) : s +:+ m = s +:+ m' → m = m'.
Proof. induction s as [|a s IH]; simpl; [done|]. intros [= H]. by apply IH. Qed.

(** X20.  The text of an error value always starts with [CrystalError]; an
    original error without a message and one with the empty message give
    the same text; and a message that is not empty can be read back from
    the text. *)
Theorem crystalErrorMessage_keeps_the_message :
  (∀ message, String.prefix "CrystalError" (crystalErrorMessage message) = true)
  ∧ crystalErrorMessage (Some EmptyString) = crystalErrorMessage None
  ∧ (∀ m m', m ≠ EmptyString → m' ≠ EmptyString →
       crystalErrorMessage (Some m) = crystalErrorMessage (Some m') → m = m')
  ∧ (∀ m, m ≠ EmptyString → crystalErrorMessage (Some m) ≠ crystalErrorMessage None).
Proof.
  split_and!.
  - intros [[|a m]|]; reflexivity.
  - reflexivity.
  - intros [|a m] [|a' m'] Hm Hm'; try done. simpl.
    intros H. by apply (append_inj_l "CrystalError: ") in H.
  - intros [|a m] Hm; [done|]. simpl. discriminate.
Qed.

(** * What an execution of a bucket maintains *)

Lemma effects_mono (S S' A A' : ExecutableStep → Prop) st st' :
  (∀ s, S s → S' s) → (∀ s, A s → A' s) → effects S A st st' → effects S' A' st st'.
Proof.
  intros HS HA. induction 1 as [|st st1 st2 He _ IH]; [apply rtc_refl|].
  eapply rtc_l; [|exact IH].
  destruct He as [step st Hs Hfree|step st Ha Hfree Hpend Hmat|st Hfaulty|step column st Hin Hlen];
    [apply effect_start; auto|apply effect_dispatch; auto|by apply effect_error
    |by apply effect_complete].
Qed.

Lemma effects_trans S A st1 st2 st3 :
  effects S A st1 st2 → effects S A st2 st3 → effects S A st1 st3.
Proof. apply rtc_trans. Qed.

Lemma descendants_trans s : ∀ u t,
  u ∈ descendants s → t ∈ descendants u → t ∈ descendants s.
Proof.
  induction s as [s IH] using ExecutableStep_ind'. intros u t Hu Ht.
  apply descendants_unfold in Hu as (c & Hc & [->|Hu]); apply descendants_unfold.
  - exists c. split; [done|by right].
  - exists c. split; [done|]. right. rewrite Forall_forall in IH. by apply (IH c Hc u t).
Qed.

Lemma selfOrDescendant_trans s u t :
  selfOrDescendant s u → selfOrDescendant u t → selfOrDescendant s t.
Proof.
  intros [->|Hu] [->|Ht]; [by left|by right|by right|].
  right. by apply (descendants_trans s u t).
Qed.

(** What no effect changes, and what effects only add to. *)
Lemma effect_keeps S A st st' :
  effect S A st st' →
  size (bucket st') = size (bucket st)
  ∧ (∀ d, d ∈ dispatchLog st → d ∈ dispatchLog st')
  ∧ (hasErrors (bucket st') = false → hasErrors (bucket st) = false).
Proof.
  destruct 1; simpl; split_and!; try done.
  - intros d Hd. by right.
  - intros d Hd. by right.
Qed.

Lemma effects_keeps S A st st' :
  effects S A st st' →
  size (bucket st') = size (bucket st)
  ∧ (∀ d, d ∈ dispatchLog st → d ∈ dispatchLog st')
  ∧ (hasErrors (bucket st') = false → hasErrors (bucket st) = false).
Proof.
  induction 1 as [|st st1 st2 He _ (IH1 & IH2 & IH3)]; [done|].
  destruct (effect_keeps _ _ _ _ He) as (H1 & H2 & H3).
  split_and!; [congruence|auto|auto].
Qed.

Lemma dispatchedIds_log st st' :
  (∀ d, d ∈ dispatchLog st → d ∈ dispatchLog st') →
  ∀ i, i ∈ dispatchedIds st → i ∈ dispatchedIds st'.
Proof.
  intros Hlog i (d & -> & Hd)%list_elem_of_fmap.
  by apply (list_elem_of_fmap_2 (λ d, id (dispatched d))), Hlog.
Qed.

Lemma taskReady_mono S A st st' t : effects S A st st' → taskReady st t → taskReady st' t.
Proof.
  intros (Hsize & Hlog & Herr)%effects_keeps (Hin & Hlen & d & mode & Hd & Hmode & Ho).
  split_and!.
  - by apply (dispatchedIds_log st).
  - destruct t; [done| |done]. by rewrite Hsize.
  - exists d, mode. split_and!; [by apply Hlog|auto|done].
Qed.

Lemma tasksReady_mono S A st st' p : effects S A st st' → tasksReady st p → tasksReady st' p.
Proof.
  intros He Hp. unfold tasksReady. eapply Forall_impl; [exact Hp|].
  intros t. by apply (taskReady_mono S A st).
Qed.

Lemma tasksReady_All st ps : tasksReady st (All ps) ↔ Forall (tasksReady st) ps.
Proof.
  unfold tasksReady. simpl. induction ps as [|p ps IH]; csimpl.
  - split; constructor.
  - rewrite Forall_app, Forall_cons, IH. done.
Qed.

Lemma wrongShape_spec r n : shapeViolation r n → wrongShape r n = true.
Proof.
  destruct r as [column| |]; simpl; [|done..].
  intros Hne. apply negb_true_iff, Nat.eqb_neq. done.
Qed.

Section completion_effects.
Variable exec : ExecutableStep → State → State * Result (option Promise).

Lemma dependentsLoop_performs dependents :
  Forall (performs exec) dependents →
  ∀ st promises,
    Forall (tasksReady st) promises →
    effects noStarter (λ u, ∃ t, t ∈ dependents ∧ selfOrDescendant t u)
            st (dependentsLoop exec dependents st promises).1
    ∧ Forall (tasksReady (dependentsLoop exec dependents st promises).1)
             (dependentsLoop exec dependents st promises).2.
Proof.
  induction 1 as [|t rest Ht _ IH]; intros st promises Hps; simpl;
    [split; [apply rtc_refl|done]|].
  assert (Hrest : ∀ st' promises',
    Forall (tasksReady st') promises' →
    effects noStarter (λ u, ∃ t0, t0 ∈ t :: rest ∧ selfOrDescendant t0 u)
            st' (dependentsLoop exec rest st' promises').1
    ∧ Forall (tasksReady (dependentsLoop exec rest st' promises').1)
             (dependentsLoop exec rest st' promises').2).
  { intros st' promises' Hps'. destruct (IH st' promises' Hps') as [He Hready].
    split; [|done]. eapply effects_mono; [done| |exact He].
    intros u (t0 & ? & ?). exists t0. split; [by right|done]. }
  destruct (bool_decide (id t ∈ pendingSteps st) && allMaterialized t st) eqn:Hsuit;
    [|by apply Hrest].
  apply andb_true_iff in Hsuit as [Hpend%bool_decide_eq_true Hmat].
  destruct (Ht st) as [Hstate Hready].
  destruct (exec t st) as [st' r] eqn:Hexec. simpl in *.
  assert (Hst' : effects noStarter (λ u, ∃ t0, t0 ∈ t :: rest ∧ selfOrDescendant t0 u) st st').
  { destruct Hstate as [-> | [Hfree He]]; [apply rtc_refl|].
    eapply rtc_l.
    - apply effect_dispatch; [|done..]. exists t. split; [by left|by left].
    - eapply effects_mono; [done| |exact He]. intros u Hu. exists t. split; [by left|done]. }
  destruct (Hrest st' (pushIfPromise promises (rejectOnThrow r))) as [He' Hps'].
  - destruct r as [[p|]|e]; simpl in *.
    + apply Forall_app. split; [|by apply Forall_singleton].
      eapply Forall_impl; [exact Hps|]. intros q Hq. eapply tasksReady_mono; [exact Hst'|exact Hq].
    + eapply Forall_impl; [exact Hps|]. intros q Hq. eapply tasksReady_mono; [exact Hst'|exact Hq].
    + apply Forall_app. split; [|by apply Forall_singleton].
      eapply Forall_impl; [exact Hps|]. intros q Hq. eapply tasksReady_mono; [exact Hst'|exact Hq].
  - split; [|done]. by eapply effects_trans.
Qed.

Lemma reallyCompletedStep_performs finishedStep column st :
  Forall (performs exec) (dependentPlans finishedStep) →
  id finishedStep ∈ dispatchedIds st →
  length column = size (bucket st) →
  effects noStarter (selfOrDescendant finishedStep) st
    (reallyCompletedStep_ exec finishedStep (publish (id finishedStep) column st)).1
  ∧ tasksReady
      (reallyCompletedStep_ exec finishedStep (publish (id finishedStep) column st)).1
      (settled (Ok (reallyCompletedStep_ exec finishedStep
                      (publish (id finishedStep) column st)).2)).
Proof.
  intros Hdeps Hin Hlen. unfold reallyCompletedStep_.
  assert (Hfirst : effects noStarter (selfOrDescendant finishedStep) st
                     (forget (id finishedStep) (publish (id finishedStep) column st))).
  { apply rtc_once. by apply effect_complete. }
  case_decide; [split; [done|constructor]|].
  destruct (dependentsLoop_performs _ Hdeps
              (forget (id finishedStep) (publish (id finishedStep) column st)) []
              (Forall_nil_2 _)) as [Hloop Hps].
  destruct (dependentsLoop exec (dependentPlans finishedStep) _ []) as [st' promises].
  simpl in *.
  assert (effects noStarter (selfOrDescendant finishedStep) st st').
  { eapply effects_trans; [exact Hfirst|].
    eapply effects_mono; [done| |exact Hloop]. intros u Hu. right.
    by apply descendants_unfold. }
  case_decide; simpl; (split; [done|]); [by apply tasksReady_All|constructor].
Qed.

Lemma completedStep_performs finishedStep result noNewErrors st :
  Forall (performs exec) (dependentPlans finishedStep) →
  id finishedStep ∈ dispatchedIds st →
  (∀ column, result = RArray column →
     isSyncAndSafe finishedStep && noNewErrors = false →
     ∃ d errorAware,
       d ∈ dispatchLog st
       ∧ (hasErrors (bucket st) = false → errorAware = false)
       ∧ origin errorAware (WhenEntriesSettle finishedStep column) d) →
  effects noStarter (selfOrDescendant finishedStep) st
    (completedStep_ exec finishedStep result noNewErrors st).1
  ∧ tasksReady (completedStep_ exec finishedStep result noNewErrors st).1
               (settled (completedStep_ exec finishedStep result noNewErrors st).2).
Proof.
  intros Hdeps Hin Horigin. unfold completedStep_.
  destruct result as [column| |]; try (split; [apply rtc_refl|constructor]).
  case_decide as Hlen; [split; [apply rtc_refl|constructor]|].
  destruct (isSyncAndSafe finishedStep && noNewErrors) eqn:Hfast.
  - pose proof (reallyCompletedStep_performs finishedStep column st Hdeps Hin Hlen) as H.
    by destruct (reallyCompletedStep_ exec finishedStep _) as [st' r].
  - split; [apply rtc_refl|]. apply Forall_singleton. split_and!; [done..|].
    by apply Horigin.
Qed.
End completion_effects.

(** The column that repeats one error value has its origin in any dispatch
    of the step. *)
Lemma origin_broadcast errorAware step n e d :
  dispatched d = step →
  origin errorAware (WhenEntriesSettle step (arrayOfLength n (VError e))) d.
Proof.
  intros Hd. split; [done|]. right. right. exists e. by rewrite length_arrayOfLength.
Qed.

Lemma invokedAs_handed errorAware d : ∃ x : Executed, invokedAs errorAware d = Handed x.
Proof.
  unfold invokedAs. destruct errorAware; [|by eexists].
  rewrite reallyExecuteStepWithErrors_unbound.
  destruct (firstObstacle (passed d)); by eexists.
Qed.

Lemma executeStep_performs step : performs executeStep step.
Proof.
  induction step as [step IH] using ExecutableStep_ind'. intros st.
  rewrite executeStep_unfold. case_decide as Hfree; [split; [by left|constructor]|].
  cbv zeta.
  set (st1 := dispatchedNow step st).
  set (dependencies := collectDependencies step (dispatch step st)).
  set (d0 := {| dispatched := step; storeThen := store (bucket (dispatch step st));
                passed := dependencies |}).
  assert (Hd0 : d0 ∈ dispatchLog st1) by by left.
  assert (Hlogged : id step ∈ dispatchedIds st1) by by left.
  assert (Hinvoked : invokedAs (hasErrors (bucket st1)) d0 = invoke step dependencies st1).
  { unfold invokedAs, invoke. by destruct (hasErrors (bucket st1)). }
  assert (Hdirect : hasErrors (bucket st1) = false →
                    invoke step dependencies st1 = execute step dependencies).
  { intros Hfalse. unfold invoke. by rewrite Hfalse. }
  assert (Hcatch : ∀ error,
    (hasErrors (bucket st1) = false → faulty (size (bucket st1)) d0 = true) →
    effects noStarter (selfOrDescendant step) st1
      (completedStep step
         (RArray (arrayOfLength (size (bucket (setHasErrors st1)))
                                (VError (newCrystalError_call error (id step)))))
         true (setHasErrors st1)).1
    ∧ tasksReady
        (completedStep step
           (RArray (arrayOfLength (size (bucket (setHasErrors st1)))
                                  (VError (newCrystalError_call error (id step)))))
           true (setHasErrors st1)).1
        (settled (completedStep step
           (RArray (arrayOfLength (size (bucket (setHasErrors st1)))
                                  (VError (newCrystalError_call error (id step)))))
           true (setHasErrors st1)).2)).
  { intros error Hfaulty.
    destruct (completedStep_performs executeStep step
      (RArray (arrayOfLength (size (bucket (setHasErrors st1)))
                             (VError (newCrystalError_call error (id step)))))
      true (setHasErrors st1) IH Hlogged) as [He Hready].
    { intros column [= <-] _. exists d0, true. split_and!; [done|done|].
      by apply origin_broadcast. }
    split; [|done]. eapply rtc_l; [|exact He].
    apply effect_error. intros Hfalse. exists d0. split; [done|]. by apply Hfaulty. }
  destruct (invoke_handed step dependencies st1) as [[error|result|s] Hinvoke];
    rewrite Hinvoke in *.
  - destruct (Hcatch error) as [He Hready].
    + intros Hfalse. unfold faulty. simpl. by injection (Hdirect Hfalse) as <-.
    + split; [right; by split|done].
  - destruct (completedStep_performs executeStep step result true st1 IH Hlogged)
      as [He Hready].
    { intros column -> Hslow. exists d0, (hasErrors (bucket st1)).
      split_and!; [done|done|]. split; [done|].
      left. rewrite andb_true_r in Hslow. by split. }
    fold completedStep in He, Hready.
    destruct (completedStep step result true st1) as [st' [r|error]] eqn:Hc.
    + split; [right; by split|done].
    + apply (completedStep_throws executeStep) in Hc as (-> & Hshape & _).
      destruct (Hcatch error) as [He' Hready'].
      * intros Hfalse. unfold faulty. simpl. injection (Hdirect Hfalse) as <-.
        by rewrite wrongShape_spec.
      * split; [right; by split|done].
  - split; [right; split; [done|apply rtc_refl]|].
    apply Forall_singleton. split_and!; [done..|].
    exists d0, (hasErrors (bucket st1)). split_and!; [done|done|]. by split.
Qed.

Lemma executeStep_deps_perform step : Forall (performs executeStep) (dependentPlans step).
Proof. apply Forall_forall. intros t' _. apply executeStep_performs. Qed.

Lemma existsb_rejects_broadcast n e : existsb rejects (arrayOfLength n (VError e)) = false.
Proof. unfold arrayOfLength. induction n as [|n IH]; [done|]. simpl. done. Qed.

(** A callback that is ready makes elementary effects only and leaves ready
    callbacks. *)
Lemma runTask_performs t st :
  taskReady st t →
  effects noStarter (selfOrDescendant (taskStep t)) st (runTask t st).1
  ∧ tasksReady (runTask t st).1 (settled (runTask t st).2).
Proof.
  intros (Hlogged & Hlen & d & mode & Hd & Hmode & Hstep & Ho).
  destruct t as [step [values|error]|finishedStep result|step s errors dependencies];
    cbn [runTask taskStep] in *;
    [| | |destruct (invokedAs_handed mode d) as [x Hx]; by rewrite Hx in Ho].
  - apply completedStep_performs; [apply executeStep_deps_perform|done|].
    intros column -> _. exists d, mode. split_and!; [done..|].
    split; [done|]. right. by left.
  - destruct (completedStep_performs executeStep step
      (RArray (arrayOfLength (size (bucket (setHasErrors st)))
                             (VError (newCrystalError_call error (id step)))))
      false (setHasErrors st) (executeStep_deps_perform _) Hlogged) as [He Hready].
    { intros column [= <-] _. exists d, true. split_and!; [done|done|].
      by apply origin_broadcast. }
    split; [|done]. eapply rtc_l; [|exact He].
    apply effect_error. intros Hfalse. exists d. split; [done|].
    unfold faulty. rewrite (Hmode Hfalse) in Ho.
    unfold invokedAs, reallyExecuteStepWithNoErrors in Ho. injection Ho as Ho.
    by rewrite Ho.
  - unfold reduceEntries.
    set (st1 := if existsb rejects result then setHasErrors st else st).
    assert (He1 : effects noStarter (selfOrDescendant finishedStep) st st1).
    { unfold st1. destruct (existsb rejects result) eqn:Hrej; [|apply rtc_refl].
      apply rtc_once, effect_error. intros Hfalse. exists d. split; [done|].
      rewrite (Hmode Hfalse) in Ho. unfold invokedAs, reallyExecuteStepWithNoErrors in Ho.
      unfold faulty.
      destruct Ho as [[Hunsafe Hexec]|[Hexec|[e Hbroadcast]]].
      - injection Hexec as Hexec.
        rewrite Hexec, Hstep. simpl. rewrite Hunsafe, Hrej. by rewrite orb_true_r.
      - injection Hexec as Hexec. by rewrite Hexec.
      - rewrite Hbroadcast, existsb_rejects_broadcast in Hrej. done. }
    destruct (effects_keeps _ _ _ _ He1) as (Hsize & Hlog & _).
    destruct (reallyCompletedStep_performs executeStep finishedStep
                (reduceEntry (id finishedStep) <$> result) st1
                (executeStep_deps_perform _)) as [He2 Hready].
    { by apply (dispatchedIds_log st). }
    { by rewrite length_fmap, Hsize. }
    fold reallyCompletedStep in He2, Hready.
    destruct (reallyCompletedStep finishedStep _) as [st2 r]. simpl in *.
    split; [by eapply effects_trans|done].
Qed.

Lemma executeSamePhaseChildren_tasks st :
  tasksOf (settled (executeSamePhaseChildren st).2) = [].
Proof.
  by destruct (executeSamePhaseChildren_result st) as [-> | (e & -> & _)].
Qed.

(** Where the entries of the log come from. *)
Lemma effects_log S A st st' :
  effects S A st st' →
  ∀ d, d ∈ dispatchLog st' →
       d ∈ dispatchLog st
       ∨ S (dispatched d)
       ∨ (A (dispatched d) ∧ id (dispatched d) ∈ pendingSteps st).
Proof.
  induction 1 as [|st st1 st2 He Hes IH]; intros d Hd; [by left|].
  assert (Hpend : pendingSteps st1 ⊆ pendingSteps st).
  { destruct He; simpl; set_solver. }
  destruct (IH d Hd) as [Hd1|[?|[? ?]]]; [|by right; left|right; right; split; [done|set_solver]].
  destruct He as [step st Hs Hfree|step st Ha Hfree Hp Hmat|st Hfaulty|step column st Hin Hlen];
    simpl in *; try by left.
  - apply elem_of_cons in Hd1 as [->|?]; [right; by left|by left].
  - apply elem_of_cons in Hd1 as [->|?]; [right; by right|by left].
Qed.

(** One turn, in a state whose log holds steps of [A] only. *)
Lemma turn_performs (A : ExecutableStep → Prop) ev st p st' p' :
  (∀ u t, A u → selfOrDescendant u t → A t) →
  turn ev st p st' p' →
  (∀ d, d ∈ dispatchLog st → A (dispatched d)) →
  tasksReady st p →
  effects noStarter A st st' ∧ tasksReady st' p'.
Proof.
  intros Hclosed Hturn Hlog.
  induction Hturn as [t st|ev ps1 p ps2 st st' p' _ IH|ev p st st' p' _ IH|p st Hres];
    intros Hready.
  - pose proof (Forall_inv Hready) as Ht.
    destruct (runTask_performs t st Ht) as [He Hready'].
    split; [|done]. eapply effects_mono; [done| |exact He].
    intros u Hu. destruct Ht as (_ & _ & d & _ & Hd & _ & Hstep & _).
    apply (Hclosed (taskStep t)); [|done]. rewrite <- Hstep. by apply Hlog.
  - apply tasksReady_All, Forall_app in Hready as [H1 [Hp H2]%Forall_cons].
    destruct (IH Hlog Hp) as [He Hp']. split; [done|].
    apply tasksReady_All, Forall_app. split; [|apply Forall_cons; split; [done|]].
    + eapply Forall_impl; [exact H1|].
      intros q Hq. eapply tasksReady_mono; [exact He|exact Hq].
    + eapply Forall_impl; [exact H2|].
      intros q Hq. eapply tasksReady_mono; [exact He|exact Hq].
  - by apply IH.
  - rewrite executeSamePhaseChildren_state. split; [apply rtc_refl|].
    unfold tasksReady. rewrite executeSamePhaseChildren_tasks. constructor.
Qed.

Lemma turns_performs (A : ExecutableStep → Prop) evs st p st' p' :
  (∀ u t, A u → selfOrDescendant u t → A t) →
  turns evs st p st' p' →
  (∀ d, d ∈ dispatchLog st → A (dispatched d)) →
  tasksReady st p →
  effects noStarter A st st' ∧ tasksReady st' p'.
Proof.
  intros Hclosed.
  induction 1 as [st p|ev evs st p st1 p1 st2 p2 Hturn _ IH]; intros Hlog Hready;
    [split; [apply rtc_refl|done]|].
  destruct (turn_performs A _ _ _ _ _ Hclosed Hturn Hlog Hready) as [He1 Hready1].
  destruct IH as [He2 Hready2]; [|done|].
  - intros d Hd. destruct (effects_log _ _ _ _ He1 d Hd) as [?|[[]|[? _]]]; auto.
  - split; [by eapply effects_trans|done].
Qed.

Lemma startLoop_performs starters : ∀ st starterPromises,
  Forall (tasksReady st) starterPromises →
  effects (λ s, s ∈ starters) (λ u, ∃ s, s ∈ starters ∧ selfOrDescendant s u)
          st (startLoop starters st starterPromises).1
  ∧ Forall (tasksReady (startLoop starters st starterPromises).1)
           (startLoop starters st starterPromises).2.
Proof.
  induction starters as [|step rest IH]; intros st starterPromises Hps; simpl;
    [split; [apply rtc_refl|done]|].
  destruct (executeStep_performs step st) as [Hstate Hready].
  destruct (executeStep step st) as [st' r]. simpl in *.
  assert (Hst' : effects (λ s, s ∈ step :: rest)
                         (λ u, ∃ s, s ∈ step :: rest ∧ selfOrDescendant s u) st st').
  { destruct Hstate as [-> | [Hfree He]]; [apply rtc_refl|].
    eapply rtc_l; [apply effect_start; [by left|done]|].
    eapply effects_mono; [| |exact He]; [intros s []|].
    intros u Hu. exists step. split; [by left|done]. }
  destruct (IH st' (pushIfPromise starterPromises (rejectOnThrow r))) as [He' Hps'].
  - destruct r as [[p|]|e]; simpl in *.
    + apply Forall_app. split; [|by apply Forall_singleton].
      eapply Forall_impl; [exact Hps|].
      intros q Hq. eapply tasksReady_mono; [exact Hst'|exact Hq].
    + eapply Forall_impl; [exact Hps|].
      intros q Hq. eapply tasksReady_mono; [exact Hst'|exact Hq].
    + apply Forall_app. split; [|by apply Forall_singleton].
      eapply Forall_impl; [exact Hps|].
      intros q Hq. eapply tasksReady_mono; [exact Hst'|exact Hq].
  - split; [|done]. eapply effects_trans; [exact Hst'|].
    eapply effects_mono; [| |exact He'].
    + intros s Hs. by right.
    + intros u (s & Hs & Hu). exists s. split; [by right|done].
Qed.

Lemma executeBucket_performs b :
  effects (λ s, s ∈ startSteps (layerPlan b)) (reached b)
          (initialState b) (executeBucket b).1
  ∧ tasksReady (executeBucket b).1 (settled (executeBucket b).2).
Proof.
  unfold executeBucket.
  destruct (startLoop_performs (startSteps (layerPlan b)) (initialState b) []
              (Forall_nil_2 _)) as [He Hps].
  destruct (startLoop _ _ _) as [st starterPromises]. simpl in *.
  case_decide.
  - split; [done|]. simpl. by apply tasksReady_All.
  - rewrite executeSamePhaseChildren_state. split; [done|].
    unfold tasksReady. rewrite executeSamePhaseChildren_tasks. constructor.
Qed.

Lemma reached_closed b u t : reached b u → selfOrDescendant u t → reached b t.
Proof.
  intros (s & Hs & Hu) Ht. exists s. split; [done|]. by eapply selfOrDescendant_trans.
Qed.

(** The log of an execution holds start steps and steps below them. *)
Lemma effects_reached b st :
  effects (λ s, s ∈ startSteps (layerPlan b)) (reached b) (initialState b) st →
  ∀ d, d ∈ dispatchLog st → reached b (dispatched d).
Proof.
  intros He d Hd. destruct (effects_log _ _ _ _ He d Hd) as [Hd0|[Hs|[? _]]]; [|by exists (dispatched d); split; [|left]|done].
  by apply elem_of_nil in Hd0.
Qed.

(** Every execution is made of elementary effects. *)
Lemma runsTo_effects b st p :
  runsTo b st p →
  effects (λ s, s ∈ startSteps (layerPlan b)) (reached b) (initialState b) st
  ∧ tasksReady st p.
Proof.
  intros [evs Hturns]. destruct (executeBucket_performs b) as [He Hready].
  destruct (turns_performs (reached b) _ _ _ _ _ (reached_closed b) Hturns
              (effects_reached b _ He) Hready) as [He' Hready'].
  split; [|done]. eapply effects_trans; [exact He|].
  eapply effects_mono; [|done|exact He']. intros s [].
Qed.

(** ** What follows for the bucket *)

Lemma effect_bucket S A st st' :
  effect S A st st' →
  layerPlan (bucket st') = layerPlan (bucket st)
  ∧ noDepsList (bucket st') = noDepsList (bucket st)
  ∧ isComplete (bucket st') = isComplete (bucket st)
  ∧ pendingSteps st' ⊆ pendingSteps st.
Proof. destruct 1; simpl; split_and!; try done. set_solver. Qed.

Lemma effects_bucket S A st st' :
  effects S A st st' →
  layerPlan (bucket st') = layerPlan (bucket st)
  ∧ noDepsList (bucket st') = noDepsList (bucket st)
  ∧ isComplete (bucket st') = isComplete (bucket st)
  ∧ pendingSteps st' ⊆ pendingSteps st.
Proof.
  induction 1 as [|st st1 st2 He _ (IH1 & IH2 & IH3 & IH4)]; [done|].
  destruct (effect_bucket _ _ _ _ He) as (H1 & H2 & H3 & H4).
  split_and!; [congruence..|set_solver].
Qed.

(** A column of the store is the one that was there or one of [size] rows
    that belongs to a step that was dispatched. *)
Lemma effects_store S A st st' :
  effects S A st st' →
  ∀ i, store (bucket st') !! i = store (bucket st) !! i
       ∨ (i ∈ dispatchedIds st'
          ∧ ∃ column, store (bucket st') !! i = Some column
                      ∧ length column = size (bucket st)).
Proof.
  induction 1 as [|st st1 st2 He Hes IH]; intros i; [by left|].
  destruct (effect_keeps _ _ _ _ He) as (Hsize & _ & _).
  destruct (effects_keeps _ _ _ _ Hes) as (_ & Hlog & _).
  destruct (IH i) as [Hsame|(Hin & column & Hcol & Hlen)].
  - rewrite Hsame.
    destruct He as [step st Hs Hfree|step st Ha Hfree Hp Hmat|st Hfaulty|step column st Hin Hlen];
      simpl in *; try by left.
    destruct (decide (i = id step)) as [->|Hne].
    + right. split; [by apply (dispatchedIds_log _ _ Hlog)|].
      exists column. by rewrite lookup_insert_eq.
    + left. by rewrite lookup_insert_ne.
  - right. split; [done|]. exists column. split; [done|congruence].
Qed.

(** A step that is no longer pending has its column, of [size] rows. *)
Lemma effects_completed S A st st' :
  effects S A st st' →
  ∀ i, i ∈ pendingSteps st → i ∉ pendingSteps st' →
       ∃ column, store (bucket st') !! i = Some column ∧ length column = size (bucket st).
Proof.
  induction 1 as [|st st1 st2 He Hes IH]; intros i Hin Hout; [done|].
  destruct (effect_keeps _ _ _ _ He) as (Hsize & _ & _).
  destruct (decide (i ∈ pendingSteps st1)) as [Hin1|Hout1].
  - destruct (IH i Hin1 Hout) as (column & Hcol & Hlen).
    exists column. split; [done|congruence].
  - destruct He as [step st Hs Hfree|step st Ha Hfree Hp Hmat|st Hfaulty|step column st Hlogged Hlen];
      simpl in *; try done.
    destruct (decide (i = id step)) as [->|Hne]; [|exfalso; apply Hout1; set_solver].
    destruct (effects_store _ _ _ _ Hes (id step)) as [Hsame|(_ & column' & Hcol & Hlen')].
    + exists column. split; [|done]. rewrite Hsame. simpl. apply lookup_insert_eq.
    + exists column'. split; [done|]. by rewrite Hlen'.
Qed.

(** When [hasErrors] has changed, a dispatch of the log was faulty. *)
Lemma effects_faulty S A st st' :
  effects S A st st' →
  hasErrors (bucket st) = false → hasErrors (bucket st') = true →
  ∃ d, d ∈ dispatchLog st' ∧ faulty (size (bucket st)) d = true.
Proof.
  induction 1 as [|st st1 st2 He Hes IH]; intros Hfalse Htrue; [congruence|].
  destruct (effect_keeps _ _ _ _ He) as (Hsize & _ & _).
  destruct (effects_keeps _ _ _ _ Hes) as (_ & Hlog & _).
  destruct (hasErrors (bucket st1)) eqn:Hst1.
  - destruct He as [step st Hs Hfree|step st Ha Hfree Hp Hmat|st Hfaulty|step column st Hin Hlen];
      simpl in *; try congruence.
    destruct (Hfaulty Hfalse) as (d & Hd & Hf). exists d. split; [|done].
    by apply Hlog.
  - destruct (IH eq_refl Htrue) as (d & Hd & Hf). exists d. split; [done|congruence].
Qed.

(** A run from a future that waits for the hand-off ends in such a future,
    or in what the hand-off gave in the final state. *)
Lemma turns_ThenChildren evs st q st' p' :
  turns evs st (ThenChildren q) st' p' →
  (∃ q', p' = ThenChildren q') ∨ p' = settled (executeSamePhaseChildren st').2.
Proof.
  intros Hturns. remember (ThenChildren q) as p eqn:Hp. revert q Hp.
  induction Hturns as [st p|ev evs st p st1 p1 st2 p2 Hturn Hturns IH]; intros q ->;
    [left; by eexists|].
  inversion Hturn as [| |ev' q0 st0 st0' q' Hinner|q0 st0 Hres]; subst.
  - by apply (IH q').
  - right. rewrite executeSamePhaseChildren_state in Hturns.
    destruct (executeSamePhaseChildren_result st) as [Hok | (e & Hthrow & _)].
    + rewrite Hok in *. simpl in *. inversion Hturns as [|? ? ? ? ? ? ? ? Hbad]; subst.
      * by rewrite Hok.
      * inversion Hbad.
    + rewrite Hthrow in *. simpl in *. inversion Hturns as [|? ? ? ? ? ? ? ? Hbad]; subst.
      * by rewrite Hthrow.
      * inversion Hbad.
Qed.

Lemma executeSamePhaseChildren_ok st :
  (executeSamePhaseChildren st).2 = Ok None → pendingSteps st = ∅.
Proof.
  unfold executeSamePhaseChildren. case_decide as Hsize; [done|]. intros _.
  apply leibniz_equiv, size_empty_iff. lia.
Qed.

(** When the future of an execution has resolved, no step is pending. *)
Lemma runsTo_resolved b st p :
  runsTo b st p → status p = HasResolved → pendingSteps st = ∅.
Proof.
  intros [evs Hturns] Hres.
  assert (Hend : p = settled (executeSamePhaseChildren st).2).
  { revert Hturns. unfold executeBucket.
    destruct (startLoop _ _ _) as [st0 starterPromises]. case_decide; simpl.
    - intros [[q' ->]| ->]%turns_ThenChildren; [|done].
      simpl in Hres. by destruct (status q').
    - rewrite executeSamePhaseChildren_state.
      destruct (executeSamePhaseChildren_result st0) as [Hok | (e & Hthrow & _)].
      + rewrite Hok. simpl. inversion 1 as [|? ? ? ? ? ? ? ? Hbad]; subst.
        * by rewrite Hok.
        * inversion Hbad.
      + rewrite Hthrow. simpl. inversion 1 as [|? ? ? ? ? ? ? ? Hbad]; subst.
        * by rewrite Hthrow.
        * inversion Hbad. }
  apply executeSamePhaseChildren_ok. rewrite Hend in Hres.
  destruct (executeSamePhaseChildren_result st) as [Hok | (e & Hthrow & _)]; [done|].
  by rewrite Hthrow in Hres.
Qed.

(** X15.  After any part of an execution, a column of the store is the one
    the bucket came with or a column of [size] rows: the executor removes no
    column and never stores a column of another length. *)
Theorem published_columns_have_size_rows (b : Bucket) (st : State) (p : Promise) (i : nat) :
  runsTo b st p →
  store (bucket st) !! i = store b !! i
  ∨ ∃ column, store (bucket st) !! i = Some column ∧ length column = size b.
Proof.
  intros [He _]%runsTo_effects.
  destruct (effects_store _ _ _ _ He i) as [?|(_ & column & ? & ?)]; [by left|right].
  by exists column.
Qed.

Lemma published_columns_have_size_rows_witness :
  store (bucket (executeBucket catastrophicBucket).1) !! 1
    = store catastrophicBucket !! 1
  ∨ ∃ column, store (bucket (executeBucket catastrophicBucket).1) !! 1 = Some column
              ∧ length column = size catastrophicBucket.
Proof.
  apply (published_columns_have_size_rows catastrophicBucket _
           (settled (executeBucket catastrophicBucket).2)).
  exists []. constructor.
Defined.

(** X16.  Every step the executor dispatches is a start step, or a step
    below a start step that carries the id of a step of the layer plan; when
    the ids identify the steps of the bucket, every dispatched step is a
    start step or a step of the layer plan.  The executor writes only the columns of steps
    it has dispatched, and it leaves [size], the layer plan, [noDepsList]
    and [isComplete] as they were. *)
Theorem executor_touches_only_its_steps (b : Bucket) (st : State) (p : Promise) :
  runsTo b st p →
  (∀ d, d ∈ dispatchLog st →
        dispatched d ∈ startSteps (layerPlan b)
        ∨ (reached b (dispatched d)
           ∧ id (dispatched d) ∈ id <$> steps (layerPlan b)))
  ∧ (identifiedById b →
     ∀ d, d ∈ dispatchLog st →
          dispatched d ∈ startSteps (layerPlan b)
          ∨ dispatched d ∈ steps (layerPlan b))
  ∧ (∀ i, i ∉ dispatchedIds st → store (bucket st) !! i = store b !! i)
  ∧ size (bucket st) = size b
  ∧ layerPlan (bucket st) = layerPlan b
  ∧ noDepsList (bucket st) = noDepsList b
  ∧ isComplete (bucket st) = isComplete b.
Proof.
  intros [He _]%runsTo_effects.
  destruct (effects_bucket _ _ _ _ He) as (Hplan & Hnodeps & Hcomplete & _).
  destruct (effects_keeps _ _ _ _ He) as (Hsize & _ & _).
  assert (Hlog : ∀ d, d ∈ dispatchLog st →
    dispatched d ∈ startSteps (layerPlan b)
    ∨ (reached b (dispatched d) ∧ id (dispatched d) ∈ id <$> steps (layerPlan b))).
  { intros d Hd. destruct (effects_log _ _ _ _ He d Hd) as [Hd0|[?|[Hreached Hpend]]].
    - by apply elem_of_nil in Hd0.
    - by left.
    - right. split; [done|]. simpl in Hpend. by apply elem_of_list_to_set in Hpend. }
  split_and!; try done.
  - intros [_ Hobjects] d Hd. destruct (Hlog d Hd) as [?|[Hreached Hid]]; [by left|].
    right. by apply Hobjects.
  - intros i Hi. by destruct (effects_store _ _ _ _ He i) as [?|[? _]].
Qed.

Lemma executor_touches_only_its_steps_witness :
  store (bucket (executeBucket catastrophicBucket).1) !! 7 = store catastrophicBucket !! 7.
Proof.
  destruct (executor_touches_only_its_steps catastrophicBucket
              (executeBucket catastrophicBucket).1
              (settled (executeBucket catastrophicBucket).2)) as (_ & _ & Hframe & _).
  - exists []. constructor.
  - apply Hframe. vm_compute. intros Hin.
    repeat (apply elem_of_cons in Hin as [Hin|Hin]; [discriminate Hin|]).
    by apply elem_of_nil in Hin.
Defined.

(** X17.  When [executeBucket] has completed, directly or with its future
    resolved, no step is pending and every step of the layer plan has its
    column, of [size] rows, in the store. *)
Theorem completion_leaves_every_column (b : Bucket) (st : State) (p : Promise) :
  runsTo b st p →
  status p = HasResolved →
  pendingSteps st = ∅
  ∧ ∀ step, step ∈ steps (layerPlan b) →
            ∃ column, store (bucket st) !! id step = Some column
                      ∧ length column = size b.
Proof.
  intros Hrun Hres. pose proof (runsTo_resolved b st p Hrun Hres) as Hempty.
  split; [done|]. intros step Hstep.
  destruct (runsTo_effects b st p Hrun) as [He _].
  apply (effects_completed _ _ _ _ He (id step)).
  - simpl. apply elem_of_list_to_set. by apply list_elem_of_fmap_2.
  - rewrite Hempty. apply not_elem_of_empty.
Qed.

Lemma completion_leaves_every_column_witness :
  ∃ column, store (bucket (executeBucket catastrophicBucket).1) !! id raising = Some column
            ∧ length column = size catastrophicBucket.
Proof.
  destruct (completion_leaves_every_column catastrophicBucket
              (executeBucket catastrophicBucket).1
              (settled (executeBucket catastrophicBucket).2)) as [_ Hcolumns].
  - exists []. constructor.
  - vm_compute. reflexivity.
  - apply Hcolumns. right. by left.
Defined.

(** X18.  [hasErrors] is raised only after a fault: when the bucket came
    with [hasErrors] false and it is true at some point of the execution,
    some step that was dispatched raised, returned a future that rejected,
    returned directly something that is not an array of [size] rows, or
    returned a column with an entry that rejects (directly, unless it is
    sync-and-safe, or through its future), on the very columns that were
    collected for it. *)
Theorem hasErrors_only_after_a_fault (b : Bucket) (st : State) (p : Promise) :
  runsTo b st p →
  hasErrors b = false →
  hasErrors (bucket st) = true →
  ∃ d, d ∈ dispatchLog st ∧ faulty (size b) d = true.
Proof.
  intros [He _]%runsTo_effects Hfalse Htrue.
  by apply (effects_faulty _ _ _ _ He).
Qed.

Lemma hasErrors_only_after_a_fault_witness :
  ∃ d, d ∈ dispatchLog (executeBucket catastrophicBucket).1
       ∧ faulty (size catastrophicBucket) d = true.
Proof.
  apply (hasErrors_only_after_a_fault catastrophicBucket _
           (settled (executeBucket catastrophicBucket).2)).
  - exists []. constructor.
  - reflexivity.
  - vm_compute. reflexivity.
Defined.

(** * The scheduler completes every step of a runnable bucket *)

Lemma clean_All ps : clean (All ps) ↔ Forall clean ps.
Proof.
  simpl. induction ps as [|p ps IH]; simpl.
  - split; [constructor|done].
  - rewrite Forall_cons, IH. done.
Qed.

Lemma statusAll_resolved l : statusAll l = HasResolved → Forall (λ s, s = HasResolved) l.
Proof.
  induction l as [|s l IH]; simpl; [constructor|].
  destruct s as [| |e]; [by destruct (statusAll l)| |done].
  intros H. constructor; [done|by apply IH].
Qed.

(** A future that has resolved has no callback left. *)
Lemma status_resolved_tasks p : status p = HasResolved → tasksOf p = [].
Proof.
  induction p as [t|ps IH| |e|p IH] using Promise_ind'; simpl; try done.
  - intros Hall%statusAll_resolved.
    induction ps as [|q ps IHps]; csimpl; [done|].
    apply Forall_cons in IH as [Hq Hps]. apply Forall_cons in Hall as [Hsq Hsps].
    by rewrite (Hq Hsq), (IHps Hps Hsps).
  - by destruct (status p).
Qed.

(** A future without a rejection and without a callback left has
    resolved. *)
Lemma clean_idle_resolved p : clean p → idle p = true → status p = HasResolved.
Proof.
  induction p as [t|ps IH| |e|p IH] using Promise_ind'; simpl; try done.
  intros Hclean Hidle. apply clean_All in Hclean.
  induction ps as [|q ps IHps]; simpl in *; [done|].
  apply Forall_cons in IH as [Hq Hps]. apply Forall_cons in Hclean as [Hcq Hcps].
  apply andb_true_iff in Hidle as [Hiq Hips].
  rewrite (Hq Hcq Hiq). by apply IHps.
Qed.

(** What the invoker hands on through a future that fulfils is an array of
    as many rows as the first dependency column, when the step keeps the
    contract for futures. *)
Lemma invokedAs_fulfilled n errorAware d r :
  wellBehaved n (dispatched d) →
  firstLength (passed d) = Ok n →
  invokedAs errorAware d = ReturnsFuture (Fulfilled r) →
  ∃ column, r = RArray column ∧ length column = n.
Proof.
  intros Hbehaved Hfirst. unfold invokedAs, reallyExecuteStepWithNoErrors.
  destruct errorAware.
  - rewrite reallyExecuteStepWithErrors_unbound.
    destruct (firstObstacle (passed d)); [done|].
    intros [= Hexec]. by apply (Hbehaved (passed d)).
  - intros [= Hexec]. by apply (Hbehaved (passed d)).
Qed.

(** ** The states of an execution of a runnable bucket *)

Lemma sane_trans b st st' A :
  (∀ u, A u → reached b u) →
  sane b st → effects noStarter A st st' → sane b st'.
Proof.
  intros HA Hsane He. eapply effects_trans; [exact Hsane|].
  eapply effects_mono; [| |exact He]; [intros s []|done].
Qed.

Lemma sane_bucket b st :
  runnable b → sane b st →
  size (bucket st) = size b
  ∧ noDepsList (bucket st) = noDepsList b
  ∧ (∀ i, is_Some (store b !! i) → is_Some (store (bucket st) !! i))
  ∧ (∀ i column, store (bucket st) !! i = Some column → length column = size b)
  ∧ (∀ i, i ∈ pendingSteps st → i ∈ id <$> steps (layerPlan b)).
Proof.
  intros Hrun Hsane.
  destruct (effects_keeps _ _ _ _ Hsane) as (Hsize & _ & _).
  destruct (effects_bucket _ _ _ _ Hsane) as (_ & Hnodeps & _ & Hpend).
  split_and!; [done..| | |].
  - intros i Hi. destruct (effects_store _ _ _ _ Hsane i) as [->|(_ & column & -> & _)];
      [done|by eexists].
  - intros i column Hcol.
    destruct (effects_store _ _ _ _ Hsane i) as [Hsame|(_ & column' & Hcol' & Hlen)].
    + rewrite Hsame in Hcol. by apply (columns_sized b Hrun i).
    + by simplify_eq.
  - intros i Hi. apply Hpend in Hi. simpl in Hi. by apply elem_of_list_to_set in Hi.
Qed.

(** A step in progress is in the log. *)
Lemma sane_inProgress b st :
  sane b st → ∀ i, i ∈ inProgressSteps st → i ∈ dispatchedIds st.
Proof.
  intros Hsane. pattern st. eapply rtc_ind_r; [| |exact Hsane];
    [by intros i Hi; apply elem_of_empty in Hi|].
  clear st Hsane. intros st1 st2 _ He IH i Hi.
  destruct He as [step st Hs Hfree|step st Ha Hfree Hp Hmat|st Hfaulty|step column st Hin Hlen];
    simpl in *.
  - apply elem_of_union in Hi as [->%elem_of_singleton|Hi]; [by left|right; by apply IH].
  - apply elem_of_union in Hi as [->%elem_of_singleton|Hi]; [by left|right; by apply IH].
  - by apply IH.
  - apply IH. set_solver.
Qed.

(** The columns collected for a step whose dependency columns are in the
    store start with a column of [size] rows. *)
Lemma collectDependencies_sized b step st :
  runnable b → sane b st →
  (∀ depId, depId ∈ dependencies step → is_Some (store (bucket st) !! depId)) →
  firstLength (collectDependencies step (dispatch step st)) = Ok (size b).
Proof.
  intros Hrun Hsane Hdeps.
  destruct (sane_bucket b st Hrun Hsane) as (_ & Hnodeps & _ & Hsized & _).
  unfold collectDependencies. simpl. case_decide as Hlen.
  - destruct (dependencies step) as [|depId rest]; [simpl in Hlen; lia|]. csimpl.
    destruct (Hdeps depId) as [column Hcol]; [by left|]. rewrite Hcol. simpl.
    by rewrite (Hsized depId column Hcol).
  - simpl. by rewrite Hnodeps, (noDepsList_sized b Hrun).
Qed.

(** Every dispatch of the log collected columns that start with a column of
    [size] rows. *)
Lemma sane_log_sized b st :
  runnable b → sane b st →
  ∀ d, d ∈ dispatchLog st → firstLength (passed d) = Ok (size b).
Proof.
  intros Hrun Hsane. pattern st. eapply rtc_ind_r; [| |exact Hsane];
    [by intros d Hd; apply elem_of_nil in Hd|].
  clear st Hsane. intros st1 st2 Hsane1 He IH d Hd.
  destruct He as [step st Hs Hfree|step st Ha Hfree Hp Hmat|st Hfaulty|step column st Hin Hlen];
    simpl in *; try by apply IH.
  - apply elem_of_cons in Hd as [->|Hd]; [|by apply IH]. simpl.
    apply (collectDependencies_sized b step st Hrun Hsane1).
    intros depId Hdep.
    destruct (sane_bucket b st Hrun Hsane1) as (_ & _ & Hkeys & _).
    apply Hkeys. by apply (starters_have_columns b Hrun step).
  - apply elem_of_cons in Hd as [->|Hd]; [|by apply IH]. simpl.
    apply (collectDependencies_sized b step st Hrun Hsane1).
    by apply allMaterialized_spec.
Qed.

(** In an execution of a runnable bucket no callback raises. *)
Lemma runTask_ok b t st :
  runnable b → sane b st → taskReady st t → ∃ r, (runTask t st).2 = Ok r.
Proof.
  intros Hrun Hsane (Hlogged & Hlen & d & mode & Hd & _ & Hstep & Ho).
  destruct (sane_bucket b st Hrun Hsane) as (Hsize & _).
  destruct t as [step [values|error]|finishedStep result|step s errors dependencies];
    cbn [runTask taskStep] in *; [| | |by eexists].
  - destruct (invokedAs_fulfilled (size b) mode d values) as (column & -> & Hcol);
      [|by apply (sane_log_sized b st)|done|].
    + apply (steps_behave b Hrun). by apply (effects_reached b st Hsane).
    + apply completedStep_accepts. by rewrite Hsize.
  - apply completedStep_accepts, length_arrayOfLength.
  - destruct (reduceEntries finishedStep result st) as [st1 result'].
    destruct (reallyCompletedStep finishedStep _) as [st2 r]. by eexists.
Qed.

(** ** What completing a step keeps *)

Lemma NoDup_fmap_eq {A B} (f : A → B) (l : list A) x y :
  NoDup (f <$> l) → x ∈ l → y ∈ l → f x = f y → x = y.
Proof.
  induction l as [|a l IH]; csimpl; [by inversion 2|].
  intros [Ha Hl]%NoDup_cons [->|Hx]%elem_of_cons [->|Hy]%elem_of_cons Hf; [done|..].
  - destruct Ha. rewrite Hf. by apply list_elem_of_fmap_2.
  - destruct Ha. rewrite <- Hf. by apply list_elem_of_fmap_2.
  - by apply IH.
Qed.

Lemma taskIds_All ps : taskIds (All ps) = ps ≫= taskIds.
Proof.
  unfold taskIds. simpl. induction ps as [|p ps IH]; csimpl; [done|].
  by rewrite fmap_app, IH.
Qed.

Lemma bind_taskIds_singleton p : [p] ≫= taskIds = taskIds p.
Proof. csimpl. by rewrite app_nil_r. Qed.

Lemma inOrder_sane b st : runnable b → sane b st → inOrder b st.
Proof.
  intros Hrun Hsane. split.
  - by destruct (sane_bucket b st Hrun Hsane) as (_ & _ & ? & _).
  - by apply (sane_inProgress b).
Qed.

Lemma inOrder_effect b S A st st' : effect S A st st' → inOrder b st → inOrder b st'.
Proof.
  intros He [Hkeys Hprogress].
  destruct He as [step st Hs Hfree|step st Ha Hfree Hp Hmat|st Hfaulty|step column st Hin Hlen];
    (split; [|intros i Hi]); simpl in *; try done.
  - apply elem_of_union in Hi as [->%elem_of_singleton|Hi]; [by left|right; by apply Hprogress].
  - apply elem_of_union in Hi as [->%elem_of_singleton|Hi]; [by left|right; by apply Hprogress].
  - by apply Hprogress.
  - intros i Hi. rewrite lookup_insert. case_decide; [by eexists|by apply Hkeys].
  - apply Hprogress. set_solver.
Qed.

Lemma inOrder_effects b S A st st' : effects S A st st' → inOrder b st → inOrder b st'.
Proof.
  induction 1 as [|st st1 st2 He _ IH]; [done|].
  intros Horder. apply IH. by eapply inOrder_effect.
Qed.

Lemma inOrder_dispatchedNow b step st : inOrder b st → inOrder b (dispatchedNow step st).
Proof.
  intros [Hkeys Hprogress]. split; [done|]. intros i Hi. simpl in *.
  apply elem_of_union in Hi as [->%elem_of_singleton|Hi]; [by left|right; by apply Hprogress].
Qed.

Lemma inOrder_setHasErrors b st : inOrder b st → inOrder b (setHasErrors st).
Proof. by intros [Hkeys Hprogress]. Qed.

(** [awaited] looks at the store, the log and the pending steps only. *)
Lemma awaited_keeps b deferred st st' :
  store (bucket st') = store (bucket st) →
  (∀ i, i ∈ dispatchedIds st → i ∈ dispatchedIds st') →
  pendingSteps st' = pendingSteps st →
  awaited b deferred st → awaited b deferred st'.
Proof.
  intros Hstore Hlog Hpend Hawaited u Hu Hstart Hmat.
  unfold allMaterialized in Hmat. rewrite Hstore in Hmat.
  destruct (Hawaited u Hu Hstart Hmat) as [?|[?|?]]; [left; auto|right; left|by right; right].
  by rewrite Hpend.
Qed.

Lemma stepWeight_dependent u t : u ∈ dependentPlans t → stepWeight u < stepWeight t.
Proof.
  intros Hin. rewrite (stepWeight_unfold t).
  assert (stepWeight u ≤ sum_list_with stepWeight (dependentPlans t)); [|lia].
  induction (dependentPlans t) as [|c l IH]; [by apply elem_of_nil in Hin|].
  apply elem_of_cons in Hin as [->|Hin]; simpl; [lia|]. specialize (IH Hin). lia.
Qed.

Section completion_lives.
Variable exec : ExecutableStep → State → State * Result (option Promise).

Lemma dependentsLoop_lives b dependents :
  Forall (lives b exec) dependents →
  Forall (performs exec) dependents →
  Forall (reached b) dependents →
  ∀ st promises deferred known,
    inOrder b st →
    awaited b (dependents ++ deferred) st →
    accounted known st promises →
    Forall clean promises →
    awaited b deferred (dependentsLoop exec dependents st promises).1
    ∧ accounted known (dependentsLoop exec dependents st promises).1
                (dependentsLoop exec dependents st promises).2
    ∧ Forall clean (dependentsLoop exec dependents st promises).2.
Proof.
  induction dependents as [|t rest IH];
    intros Hlives Hperforms Hreached st promises deferred known Horder Hawaited Hacc Hclean;
    simpl; [done|].
  apply Forall_cons in Hlives as [Hlive Hlives].
  apply Forall_cons in Hperforms as [Hperform Hperforms].
  apply Forall_cons in Hreached as [Hreach Hreached].
  destruct (bool_decide (id t ∈ pendingSteps st) && allMaterialized t st) eqn:Hsuit.
  - destruct (Hlive Hreach st Horder) as (Hkeep & Hnew & Hcl & Hlogged).
    destruct (Hperform st) as [Hstate _].
    destruct (exec t st) as [st1 r] eqn:Hexec. simpl in *.
    assert (He : effects noStarter anyStep (dispatchedNow t st) st1 ∨ st1 = st).
    { destruct Hstate as [->|[_ He]]; [by right|left].
      eapply effects_mono; [done| |exact He]. done. }
    assert (Hpend : pendingSteps st1 ⊆ pendingSteps st).
    { destruct He as [He| ->]; [|done].
      by destruct (effects_bucket _ _ _ _ He) as (_ & _ & _ & ?). }
    apply IH; [done..| | | |].
    + destruct He as [He| ->]; [|done].
      eapply inOrder_effects; [exact He|]. by apply inOrder_dispatchedNow.
    + intros u Hu Hstart Hmat.
      destruct (Hkeep _ Hawaited u Hu Hstart Hmat) as [?|[?|Hin]]; [by left|by right; left|].
      apply elem_of_cons in Hin as [->|Hin]; [by left|by right; right].
    + intros i Hi. destruct (Hnew i Hi) as [Hold|[?|Htask]]; [|by right; left|].
      * destruct (Hacc i Hold) as [?|[?|Hin]]; [by left|right; left; set_solver|].
        right. right. destruct r as [[p|]|e]; simpl; [|done|];
          rewrite bind_app; apply elem_of_app; by left.
      * right. right. rewrite bind_taskIds_singleton in Htask.
        destruct r as [[p|]|e]; simpl in *; [|by apply elem_of_nil in Htask..].
        rewrite bind_app, bind_taskIds_singleton. apply elem_of_app. by right.
    + destruct r as [[p|]|e]; simpl in *; [|done..].
      apply Forall_app. split; [done|]. by apply Forall_singleton.
  - apply IH; [done..| | |done].
    + intros u Hu Hstart Hmat.
      destruct (Hawaited u Hu Hstart Hmat) as [?|[?|Hin]]; [by left|by right; left|].
      apply elem_of_cons in Hin as [->|Hin]; [|by right; right].
      right. left. intros Hpending. rewrite Hmat, andb_true_r in Hsuit.
      by apply bool_decide_eq_false in Hsuit.
    + done.
Qed.
End completion_lives.

Lemma changes_log_grows A st st' :
  changes A st st' → ∀ i, i ∈ dispatchedIds st → i ∈ dispatchedIds st'.
Proof.
  induction 1 as [|st st1 st2 Hc _ IH]; intros i Hi; [done|].
  apply IH. destruct Hc; simpl; [by right|done..].
Qed.

Section completion_lives_step.
Variable exec : ExecutableStep → State → State * Result (option Promise).

(** Publishing the column of a step makes ready only dependents of that
    step. *)
Lemma publish_awaited b finishedStep column st deferred :
  runnable b →
  reached b finishedStep →
  inOrder b st →
  awaited b deferred st →
  awaited b (dependentPlans finishedStep ++ deferred)
          (forget (id finishedStep) (publish (id finishedStep) column st)).
Proof.
  intros Hrun Hreach [Hkeys _] Hawaited u Hu Hstart Hmat1.
  destruct (allMaterialized u st) eqn:Hmat0.
  - destruct (Hawaited u Hu Hstart Hmat0) as [?|[?|?]].
    + by left.
    + right. left. simpl. set_solver.
    + right. right. apply elem_of_app. by right.
  - right. right. apply elem_of_app. left.
    unfold allMaterialized in Hmat0.
    apply forallb_false_split in Hmat0 as (l1 & depId & l2 & Hdeps & Hnone).
    apply bool_decide_eq_false in Hnone.
    assert (Hdep : depId ∈ dependencies u).
    { rewrite Hdeps. apply elem_of_app. right. by left. }
    pose proof (allMaterialized_spec u _ Hmat1 depId Hdep) as Hsome. simpl in Hsome.
    assert (depId = id finishedStep) as ->.
    { destruct (decide (depId = id finishedStep)) as [|Hne]; [done|].
      by rewrite lookup_insert_ne in Hsome. }
    assert (Hfresh : store b !! id finishedStep = None).
    { destruct (store b !! id finishedStep) eqn:Hb; [|done].
      destruct Hnone. apply Hkeys. by eexists. }
    destruct (plan_links b Hrun u (id finishedStep) Hu Hstart Hdep Hfresh)
      as (t & Ht & Hid & Hdependent).
    assert (Hplan : finishedStep ∈ steps (layerPlan b)).
    { apply (plan_objects b Hrun); [done|]. rewrite <- Hid. by apply list_elem_of_fmap_2. }
    by rewrite (NoDup_fmap_eq id _ finishedStep t (plan_ids b Hrun) Hplan Ht (eq_sym Hid)).
Qed.

Lemma reallyCompletedStep_lives b finishedStep column st :
  runnable b →
  Forall (lives b exec) (dependentPlans finishedStep) →
  Forall (performs exec) (dependentPlans finishedStep) →
  reached b finishedStep →
  inOrder b st →
  id finishedStep ∈ dispatchedIds st →
  length column = size (bucket st) →
  (∀ deferred, awaited b deferred st →
     awaited b deferred
       (reallyCompletedStep_ exec finishedStep (publish (id finishedStep) column st)).1)
  ∧ accounted (λ i, i ∈ dispatchedIds st)
      (reallyCompletedStep_ exec finishedStep (publish (id finishedStep) column st)).1
      [settled (Ok (reallyCompletedStep_ exec finishedStep
                      (publish (id finishedStep) column st)).2)]
  ∧ clean (settled (Ok (reallyCompletedStep_ exec finishedStep
                          (publish (id finishedStep) column st)).2))
  ∧ id finishedStep ∉ pendingSteps
      (reallyCompletedStep_ exec finishedStep (publish (id finishedStep) column st)).1.
Proof.
  intros Hrun Hlives Hperforms Hreach Horder Hlogged Hlen.
  assert (Hbelow : Forall (reached b) (dependentPlans finishedStep)).
  { apply Forall_forall. intros t Ht. apply (reached_closed b finishedStep); [done|].
    right. apply descendants_unfold. exists t. split; [done|by left]. }
  unfold reallyCompletedStep_.
  set (st1 := forget (id finishedStep) (publish (id finishedStep) column st)).
  assert (Horder1 : inOrder b st1).
  { apply (inOrder_effect b noStarter anyStep st); [|done]. by apply effect_complete. }
  case_decide as Hsize.
  - simpl. split_and!.
    + intros deferred _ u _ _ _. right. left.
      apply size_empty_inv in Hsize. set_solver.
    + intros i Hi. by left.
    + done.
    + simpl. set_solver.
  - destruct (dependentsLoop_performs exec _ Hperforms st1 [] (Forall_nil_2 _)) as [He _].
    destruct (effects_bucket _ _ _ _ He) as (_ & _ & _ & Hpend).
    assert (Hknown : accounted (λ i, i ∈ dispatchedIds st) st1 []).
    { intros i Hi. by left. }
    assert (Hawaited' : ∀ deferred, awaited b deferred st →
      awaited b deferred (dependentsLoop exec (dependentPlans finishedStep) st1 []).1).
    { intros deferred Hawaited.
      apply (dependentsLoop_lives exec b _ Hlives Hperforms Hbelow st1 [] deferred
               (λ i, i ∈ dispatchedIds st)); [done| |done|done].
      by apply publish_awaited. }
    destruct (dependentsLoop_lives exec b _ Hlives Hperforms Hbelow st1 []
                (steps (layerPlan b)) (λ i, i ∈ dispatchedIds st))
      as (_ & Hacc & Hclean); [done| |done|done|].
    { intros u Hu _ _. right. right. apply elem_of_app. by right. }
    destruct (dependentsLoop exec (dependentPlans finishedStep) st1 []) as [st' promises].
    simpl in *.
    assert (Hfinished : id finishedStep ∉ pendingSteps st').
    { intros Hin. apply Hpend in Hin. unfold st1 in Hin. simpl in Hin. set_solver. }
    case_decide as Hpromises; simpl; split_and!; try done.
    + intros i Hi. destruct (Hacc i Hi) as [?|[?|?]]; [by left|by right; left|].
      right. right. by rewrite bind_taskIds_singleton, taskIds_All.
    + by apply clean_All.
    + destruct promises; [|simpl in Hpromises; lia].
      intros i Hi. destruct (Hacc i Hi) as [?|[?|Hnil]]; [by left|by right; left|].
      by apply elem_of_nil in Hnil.
Qed.

Lemma completedStep_lives b finishedStep result noNewErrors st :
  runnable b →
  Forall (lives b exec) (dependentPlans finishedStep) →
  Forall (performs exec) (dependentPlans finishedStep) →
  reached b finishedStep →
  inOrder b st →
  id finishedStep ∈ dispatchedIds st →
  (∀ deferred, awaited b deferred st →
     awaited b deferred (completedStep_ exec finishedStep result noNewErrors st).1)
  ∧ ∀ r, (completedStep_ exec finishedStep result noNewErrors st).2 = Ok r →
      accounted (λ i, i ∈ dispatchedIds st ∧ i ≠ id finishedStep)
        (completedStep_ exec finishedStep result noNewErrors st).1 [settled (Ok r)]
      ∧ clean (settled (Ok r)).
Proof.
  intros Hrun Hlives Hperforms Hreach Horder Hlogged. unfold completedStep_.
  destruct result as [column| |]; try (split; [done|by intros r [=]]).
  case_decide as Hlen; [split; [done|by intros r [=]]|].
  destruct (isSyncAndSafe finishedStep && noNewErrors).
  - destruct (reallyCompletedStep_lives b finishedStep column st Hrun Hlives Hperforms
                Hreach Horder Hlogged Hlen) as (Hawaited & Hacc & Hclean & Hfinished).
    destruct (reallyCompletedStep_ exec finishedStep _) as [st' r']. simpl in *.
    split; [done|]. intros r [= <-]. split; [|done].
    intros i Hi. destruct (decide (i = id finishedStep)) as [->|Hne]; [by right; left|].
    destruct (Hacc i Hi) as [?|[?|?]]; [by left|by right; left|by right; right].
  - simpl. split; [done|]. intros r [= <-]. split; [|done].
    intros i Hi. destruct (decide (i = id finishedStep)) as [->|Hne]; [|by left].
    right. right. rewrite bind_taskIds_singleton. by left.
Qed.
End completion_lives_step.

Lemma executeStep_lives b step : runnable b → lives b executeStep step.
Proof.
  intros Hrun. induction step as [step IH] using ExecutableStep_ind'.
  intros Hreach st Horder.
  rewrite executeStep_unfold. case_decide as Hfree.
  { simpl. split_and!; [done| |done|by apply Horder]. intros i Hi. by left. }
  cbv zeta. set (st1 := dispatchedNow step st).
  assert (Horder1 : inOrder b st1) by by apply inOrder_dispatchedNow.
  assert (Hlogged : id step ∈ dispatchedIds st1) by by left.
  assert (Hawaited1 : ∀ deferred, awaited b deferred st → awaited b deferred st1).
  { intros deferred. apply awaited_keeps; [done| |done]. intros i Hi. by right. }
  assert (Hold : ∀ i, i ∈ dispatchedIds st1 → i ≠ id step → i ∈ dispatchedIds st).
  { intros i [->|Hi]%elem_of_cons Hne; done. }
  assert (Hcatch : ∀ error,
    let caught := completedStep step
      (RArray (arrayOfLength (size (bucket (setHasErrors st1)))
                             (VError (newCrystalError_call error (id step)))))
      true (setHasErrors st1) in
    (∀ deferred, awaited b deferred st → awaited b deferred caught.1)
    ∧ accounted (λ i, i ∈ dispatchedIds st) caught.1 [settled caught.2]
    ∧ clean (settled caught.2)
    ∧ id step ∈ dispatchedIds caught.1).
  { intros error caught.
    destruct (completedStep_lives executeStep b step
      (RArray (arrayOfLength (size (bucket (setHasErrors st1)))
                             (VError (newCrystalError_call error (id step)))))
      true (setHasErrors st1) Hrun IH (executeStep_deps_perform step) Hreach
      (inOrder_setHasErrors b st1 Horder1) Hlogged) as [Hawaited Hok].
    pose proof (completedStep_changes executeStep step
      (RArray (arrayOfLength (size (bucket (setHasErrors st1)))
                             (VError (newCrystalError_call error (id step)))))
      true (setHasErrors st1) (executeStep_deps_dispatch step)) as Hch.
    destruct (completedStep_accepts executeStep step
      (arrayOfLength (size (bucket (setHasErrors st1)))
                     (VError (newCrystalError_call error (id step))))
      true (setHasErrors st1) (length_arrayOfLength _ _)) as [r Hr].
    fold completedStep in Hawaited, Hok, Hch, Hr. fold caught in Hawaited, Hok, Hch, Hr.
    destruct (Hok r Hr) as [Hacc Hclean]. rewrite Hr. split_and!.
    - intros deferred Hd. apply Hawaited. by apply (awaited_keeps b deferred st1), Hawaited1.
    - intros i Hi. destruct (Hacc i Hi) as [[Hin Hne]|[?|?]];
        [left; by apply Hold|by right; left|by right; right].
    - done.
    - by apply (changes_log_grows _ _ _ Hch). }
  destruct (invoke_handed step (collectDependencies step (dispatch step st)) st1)
    as [[error|result|s] Hinvoke]; rewrite Hinvoke.
  - apply Hcatch.
  - destruct (completedStep_lives executeStep b step result true st1 Hrun IH
                (executeStep_deps_perform step) Hreach Horder1 Hlogged) as [Hawaited Hok].
    pose proof (completedStep_changes executeStep step result true st1
                  (executeStep_deps_dispatch step)) as Hch.
    fold completedStep in Hawaited, Hok, Hch.
    destruct (completedStep step result true st1) as [st' [r|error]] eqn:Hc.
    + destruct (Hok r eq_refl) as [Hacc Hclean]. simpl in *. split_and!.
      * intros deferred Hd. by apply Hawaited, Hawaited1.
      * intros i Hi. destruct (Hacc i Hi) as [[Hin Hne]|[?|?]];
          [left; by apply Hold|by right; left|by right; right].
      * done.
      * by apply (changes_log_grows _ _ _ Hch).
    + apply (completedStep_throws executeStep) in Hc as (-> & _ & _). apply Hcatch.
  - simpl. split_and!; [done| |done|done].
    intros i [->|Hi]%elem_of_cons; [|by left].
    right. right. rewrite bind_taskIds_singleton. by left.
Qed.

Lemma executeStep_deps_live b step :
  runnable b → Forall (lives b executeStep) (dependentPlans step).
Proof. intros Hrun. apply Forall_forall. intros t' _. by apply executeStep_lives. Qed.

(** What a callback keeps in an execution of a runnable bucket. *)
Lemma runTask_lives b t st :
  runnable b → sane b st → taskReady st t →
  (∃ r, (runTask t st).2 = Ok r)
  ∧ (∀ deferred, awaited b deferred st → awaited b deferred (runTask t st).1)
  ∧ accounted (λ i, i ∈ dispatchedIds st ∧ i ≠ id (taskStep t))
      (runTask t st).1 [settled (runTask t st).2]
  ∧ clean (settled (runTask t st).2).
Proof.
  intros Hrun Hsane Hready.
  destruct (runTask_ok b t st Hrun Hsane Hready) as [r Hr].
  pose proof (inOrder_sane b st Hrun Hsane) as Horder.
  destruct Hready as (Hlogged & Hlen & d & mode & Hd & _ & Hstep & Ho).
  assert (Hreach : reached b (taskStep t)).
  { rewrite <- Hstep. by apply (effects_reached b st Hsane). }
  split; [by exists r|]. revert Hr.
  destruct t as [step [values|error]|finishedStep result|step s errors dependencies];
    cbn [runTask taskStep] in *;
    [| | |destruct (invokedAs_handed mode d) as [x Hx]; by rewrite Hx in Ho].
  - destruct (completedStep_lives executeStep b step values false st Hrun
                (executeStep_deps_live b step Hrun) (executeStep_deps_perform step)
                Hreach Horder Hlogged) as [Hawaited Hok].
    fold completedStep in Hawaited, Hok. intros Hr. rewrite Hr.
    destruct (Hok r Hr) as [Hacc Hclean]. done.
  - destruct (completedStep_lives executeStep b step
      (RArray (arrayOfLength (size (bucket (setHasErrors st)))
                             (VError (newCrystalError_call error (id step)))))
      false (setHasErrors st) Hrun
      (executeStep_deps_live b step Hrun) (executeStep_deps_perform step)
      Hreach (inOrder_setHasErrors b st Horder) Hlogged) as [Hawaited Hok].
    fold completedStep in Hawaited, Hok. intros Hr. rewrite Hr.
    destruct (Hok r Hr) as [Hacc Hclean]. split_and!; [|done..].
    intros deferred Hdeferred. apply Hawaited. by apply (awaited_keeps b deferred st).
  - unfold reduceEntries.
    set (st1 := if existsb rejects result then setHasErrors st else st).
    assert (Horder1 : inOrder b st1).
    { unfold st1. destruct (existsb rejects result); [by apply inOrder_setHasErrors|done]. }
    assert (Hsame : dispatchedIds st1 = dispatchedIds st ∧ size (bucket st1) = size (bucket st)
                    ∧ ∀ deferred, awaited b deferred st → awaited b deferred st1).
    { unfold st1. destruct (existsb rejects result); [|done].
      split_and!; [done..|]. intros deferred. by apply awaited_keeps. }
    destruct Hsame as (Hlog1 & Hsize1 & Hawaited1).
    destruct (reallyCompletedStep_lives executeStep b finishedStep
                (reduceEntry (id finishedStep) <$> result) st1 Hrun
                (executeStep_deps_live b finishedStep Hrun)
                (executeStep_deps_perform finishedStep) Hreach Horder1)
      as (Hawaited & Hacc & Hclean & Hfinished).
    { by rewrite Hlog1. }
    { by rewrite length_fmap, Hsize1. }
    fold reallyCompletedStep in Hawaited, Hacc, Hclean, Hfinished.
    destruct (reallyCompletedStep finishedStep _) as [st2 r2]. simpl in *.
    intros _. split_and!.
    + intros deferred Hdeferred. by apply Hawaited, Hawaited1.
    + intros i Hi. destruct (decide (i = id finishedStep)) as [->|Hne]; [by right; left|].
      destruct (Hacc i Hi) as [Hin|[?|?]]; [left|by right; left|by right; right].
      split; [by rewrite <- Hlog1|done].
    + done.
Qed.

Lemma turn_lives b ev st p st' p' :
  runnable b → turn ev st p st' p' → sane b st → tasksReady st p → clean p →
  (∀ deferred, awaited b deferred st → awaited b deferred st')
  ∧ clean p'
  ∧ (∀ i, i ∈ dispatchedIds st' →
          i ∉ pendingSteps st' ∨ i ∈ taskIds p' ∨ (i ∈ dispatchedIds st ∧ i ∉ taskIds p)).
Proof.
  intros Hrun Hturn Hsane.
  induction Hturn as [t st|ev ps1 p ps2 st st' p' _ IH|ev p st st' p' _ IH|p st Hres];
    intros Hready Hclean; [| |done..].
  - destruct (runTask_lives b t st Hrun Hsane (Forall_inv Hready))
      as (_ & Hawaited & Hacc & Hclean').
    split_and!; [done..|]. intros i Hi.
    destruct (Hacc i Hi) as [[Hin Hne]|[?|Htask]]; [|by left|].
    + right. right. split; [done|]. unfold taskIds. simpl. by intros ->%list_elem_of_singleton.
    + right. left. by rewrite bind_taskIds_singleton in Htask.
  - apply tasksReady_All, Forall_app in Hready as [H1 [Hp H2]%Forall_cons].
    apply clean_All, Forall_app in Hclean as [Hc1 [Hcp Hc2]%Forall_cons].
    destruct (IH Hsane Hp Hcp) as (Hawaited & Hclean' & Hacc).
    split_and!; [done| |].
    + apply clean_All, Forall_app. split; [done|]. by apply Forall_cons.
    + intros i Hi. rewrite !taskIds_All, !bind_app, !bind_cons.
      destruct (Hacc i Hi) as [?|[?|[Hin Hnone]]]; [by left|right; left; set_solver|].
      destruct (decide (i ∈ ps1 ≫= taskIds)); [right; left; set_solver|].
      destruct (decide (i ∈ ps2 ≫= taskIds)); [right; left; set_solver|].
      right. right. split; [done|]. set_solver.
Qed.

Lemma turns_lives b evs st p st' p' :
  runnable b → turns evs st p st' p' → sane b st → tasksReady st p → clean p →
  awaited b [] st → accounted (λ _, False) st [p] →
  sane b st' ∧ awaited b [] st' ∧ clean p' ∧ accounted (λ _, False) st' [p'].
Proof.
  intros Hrun.
  induction 1 as [st p|ev evs st p st1 p1 st2 p2 Hturn _ IH];
    intros Hsane Hready Hclean Hawaited Hacc; [done|].
  destruct (turn_lives b _ _ _ _ _ Hrun Hturn Hsane Hready Hclean)
    as (Hawaited1 & Hclean1 & Hacc1).
  destruct (turn_performs (reached b) _ _ _ _ _ (reached_closed b) Hturn
              (effects_reached b _ Hsane) Hready) as [He Hready1].
  destruct (effects_bucket _ _ _ _ He) as (_ & _ & _ & Hpend).
  apply IH; [by apply (sane_trans b st st1 (reached b))|done|done|by apply Hawaited1|].
  intros i Hi. rewrite bind_taskIds_singleton.
  destruct (Hacc1 i Hi) as [?|[?|[Hin Hnone]]]; [by right; left|by right; right|].
  destruct (Hacc i Hin) as [[]|[?|Htask]]; [right; left; set_solver|].
  by rewrite bind_taskIds_singleton in Htask.
Qed.

Lemma startLoop_lives b starters :
  runnable b →
  (∀ s, s ∈ starters → s ∈ startSteps (layerPlan b)) →
  ∀ st starterPromises,
    sane b st → awaited b [] st →
    accounted (λ _, False) st starterPromises → Forall clean starterPromises →
    sane b (startLoop starters st starterPromises).1
    ∧ awaited b [] (startLoop starters st starterPromises).1
    ∧ accounted (λ _, False) (startLoop starters st starterPromises).1
                (startLoop starters st starterPromises).2
    ∧ Forall clean (startLoop starters st starterPromises).2
    ∧ (∀ i, i ∈ dispatchedIds st ∨ i ∈ id <$> starters →
            i ∈ dispatchedIds (startLoop starters st starterPromises).1).
Proof.
  intros Hrun. induction starters as [|step rest IH];
    intros Hstart st starterPromises Hsane Hawaited Hacc Hclean; simpl.
  { split_and!; [done..|]. intros i [?|Hin]; [done|]. by apply elem_of_nil in Hin. }
  assert (Hreach : reached b step).
  { exists step. split; [apply Hstart; by left|by left]. }
  destruct (executeStep_lives b step Hrun Hreach st (inOrder_sane b st Hrun Hsane))
    as (Hkeep & Hnew & Hcl & Hlogged).
  destruct (executeStep_performs step st) as [Hstate _].
  destruct (executeStep step st) as [st1 r]. simpl in *.
  assert (He : effects (λ s, s ∈ startSteps (layerPlan b)) (reached b) st st1).
  { destruct Hstate as [->|[Hfree He]]; [apply rtc_refl|].
    eapply rtc_l; [apply effect_start; [apply Hstart; by left|done]|].
    eapply effects_mono; [| |exact He]; [intros s []|].
    intros u Hu. by apply (reached_closed b step). }
  destruct (effects_bucket _ _ _ _ He) as (_ & _ & _ & Hpend).
  destruct (effects_keeps _ _ _ _ He) as (_ & Hlog & _).
  destruct (IH (λ s Hs, Hstart s (list_elem_of_further _ _ _ Hs)) st1
              (pushIfPromise starterPromises (rejectOnThrow r)))
    as (Hsane' & Hawaited' & Hacc' & Hclean' & Hlogged').
  - by eapply effects_trans.
  - by apply Hkeep.
  - intros i Hi. destruct (Hnew i Hi) as [Hold|[?|Htask]]; [|by right; left|].
    + destruct (Hacc i Hold) as [[]|[?|Hin]]; [right; left; set_solver|].
      right. right. destruct r as [[p|]|e]; simpl; [|done|];
        rewrite bind_app; apply elem_of_app; by left.
    + right. right. rewrite bind_taskIds_singleton in Htask.
      destruct r as [[p|]|e]; simpl in *; [|by apply elem_of_nil in Htask..].
      rewrite bind_app, bind_taskIds_singleton. apply elem_of_app. by right.
  - destruct r as [[p|]|e]; simpl in *; [|done..].
    apply Forall_app. split; [done|]. by apply Forall_singleton.
  - split_and!; [done..|]. intros i [Hi|Hi]; apply Hlogged'.
    + left. by apply (dispatchedIds_log _ _ Hlog).
    + csimpl in Hi. apply elem_of_cons in Hi as [->|Hi]; [by left|by right].
Qed.

Lemma stepWeight_le_sum u l : u ∈ l → stepWeight u ≤ sum_list_with stepWeight l.
Proof.
  induction l as [|c l IH]; [by inversion 1|].
  intros [->|Hin]%elem_of_cons; simpl; [lia|]. specialize (IH Hin). lia.
Qed.

(** When every step that was dispatched is completed, every step of the
    layer plan is. *)
Lemma quiescent_complete b st :
  runnable b → sane b st → awaited b [] st →
  (∀ i, i ∈ dispatchedIds st → i ∉ pendingSteps st) →
  (∀ i, i ∈ starterIds b → i ∈ dispatchedIds st) →
  pendingSteps st = ∅.
Proof.
  intros Hrun Hsane Hawaited Hdone Hstarted.
  destruct (sane_bucket b st Hrun Hsane) as (_ & _ & Hkeys & _ & Hplan).
  assert (Hall : ∀ n u, u ∈ steps (layerPlan b) →
    sum_list_with stepWeight (steps (layerPlan b)) ≤ stepWeight u + n →
    id u ∉ pendingSteps st).
  { induction n as [n IH] using lt_wf_ind. intros u Hu Hn.
    destruct (decide (id u ∈ starterIds b)) as [Hs|Hs]; [by apply Hdone, Hstarted|].
    assert (Hmat : allMaterialized u st = true).
    { apply forallb_forall. intros depId Hdep%list_elem_of_In. apply bool_decide_eq_true.
      destruct (store b !! depId) as [column|] eqn:Hb; [apply Hkeys; by eexists|].
      destruct (plan_links b Hrun u depId Hu Hs Hdep Hb) as (t & Ht & <- & Hdependent).
      pose proof (stepWeight_dependent u t Hdependent) as Hlt.
      pose proof (stepWeight_le_sum t _ Ht) as Hle.
      assert (Hfinished : id t ∉ pendingSteps st).
      { apply (IH (n - 1)); [lia|done|lia]. }
      destruct (effects_completed _ _ _ _ Hsane (id t)) as (column & -> & _); [|done|by eexists].
      simpl. apply elem_of_list_to_set. by apply list_elem_of_fmap_2. }
    destruct (Hawaited u Hu Hs Hmat) as [?|[?|Hnil]]; [by apply Hdone|done|].
    by apply elem_of_nil in Hnil. }
  apply elem_of_equiv_empty_L. intros i Hi.
  destruct (proj1 (list_elem_of_fmap _ _ _) (Hplan i Hi)) as (u & -> & Hu).
  by apply (Hall (sum_list_with stepWeight (steps (layerPlan b))) u Hu); [lia|].
Qed.

(** A run from a future that waits for the hand-off: the turns of the inner
    future, and then possibly the hand-off, which ends the run. *)
Lemma turns_ThenChildren_inner evs st q st' p' :
  turns evs st (ThenChildren q) st' p' →
  ∃ evs' q',
    turns evs' st q st' q'
    ∧ (p' = ThenChildren q'
       ∨ (status q' = HasResolved ∧ p' = settled (executeSamePhaseChildren st').2)).
Proof.
  intros Hturns. remember (ThenChildren q) as p eqn:Hp. revert q Hp.
  induction Hturns as [st p|ev evs st p st1 p1 st2 p2 Hturn Hturns IH]; intros q ->.
  { exists [], q. split; [constructor|by left]. }
  inversion Hturn as [| |ev' q0 st0 st0' q' Hinner|q0 st0 Hres]; subst.
  - destruct (IH q' eq_refl) as (evs' & q'' & Hinner' & Hend).
    exists (ev :: evs'), q''. split; [by econstructor|done].
  - exists [], q. rewrite executeSamePhaseChildren_state in Hturns.
    assert (st2 = st ∧ p2 = settled (executeSamePhaseChildren st).2) as [-> ->].
    { destruct (executeSamePhaseChildren_result st) as [Hok | (e & Hthrow & _)].
      - rewrite Hok in *. simpl in *. inversion Hturns as [|? ? ? ? ? ? ? ? Hbad]; subst;
          [done|inversion Hbad].
      - rewrite Hthrow in *. simpl in *. inversion Hturns as [|? ? ? ? ? ? ? ? Hbad]; subst;
          [done|inversion Hbad]. }
    split; [constructor|by right].
Qed.

Lemma awaited_initially b : runnable b → awaited b [] (initialState b).
Proof.
  intros Hrun u Hu Hs Hmat. exfalso.
  destruct (plan_waits b Hrun u Hu Hs) as (depId & Hdep & Hnone).
  destruct (allMaterialized_spec u _ Hmat depId Hdep) as [column Hcol].
  simpl in Hcol. congruence.
Qed.

(** The hand-off of a runnable bucket completes once every step that was
    dispatched is completed. *)
Lemma handOff_completes b st ps :
  runnable b → sane b st → awaited b [] st →
  accounted (λ _, False) st ps → ps ≫= taskIds = [] →
  (∀ i, i ∈ starterIds b → i ∈ dispatchedIds st) →
  pendingSteps st = ∅ ∧ (executeSamePhaseChildren st).2 = Ok None.
Proof.
  intros Hrun Hsane Hawaited Hacc Hnone Hstarted.
  assert (Hempty : pendingSteps st = ∅).
  { apply (quiescent_complete b st Hrun Hsane Hawaited); [|done].
    intros i Hi. destruct (Hacc i Hi) as [[]|[?|Htask]]; [done|].
    rewrite Hnone in Htask. by apply elem_of_nil in Htask. }
  split; [done|].
  destruct (effects_bucket _ _ _ _ Hsane) as (Hplan & _).
  unfold executeSamePhaseChildren. rewrite Hempty, size_empty.
  rewrite decide_False by lia. rewrite Hplan. simpl.
  by rewrite (childrenLoop_passes_over _ _ (children_elsewhere b Hrun)).
Qed.

(** On a runnable bucket the future has resolved when no callback is left. *)
Lemma runnable_resolves b st p :
  runnable b → runsTo b st p → idle p = true → status p = HasResolved.
Proof.
  intros Hrun Hruns Hidle.
  destruct Hruns as [evs Hturns]. revert Hturns. unfold executeBucket.
  destruct (startLoop_lives b (startSteps (layerPlan b)) Hrun (λ s Hs, Hs)
              (initialState b) []) as (Hsane0 & Hawaited0 & Hacc0 & Hclean0 & Hlogged0);
    [apply rtc_refl|by apply awaited_initially|by intros i Hi; apply elem_of_nil in Hi
    |done|].
  destruct (startLoop_performs (startSteps (layerPlan b)) (initialState b) []
              (Forall_nil_2 _)) as [_ Hready0].
  destruct (startLoop _ _ _) as [st0 starterPromises]. simpl in *.
  case_decide as Hpromises; simpl.
  - intros (evs' & q' & Hinner & Hend)%turns_ThenChildren_inner.
    destruct (turns_lives b _ _ _ _ _ Hrun Hinner Hsane0) as (Hsane & Hawaited & Hclean & Hacc).
    { by apply tasksReady_All. }
    { by apply clean_All. }
    { done. }
    { intros i Hi. rewrite bind_taskIds_singleton, taskIds_All. by apply Hacc0. }
    destruct (turns_performs (reached b) _ _ _ _ _ (reached_closed b) Hinner
                (effects_reached b _ Hsane0)) as [He _]; [by apply tasksReady_All|].
    destruct (effects_keeps _ _ _ _ He) as (_ & Hlog & _).
    assert (Hq' : status q' = HasResolved).
    { destruct Hend as [->|[? _]]; [|done]. simpl in Hidle.
      apply andb_true_iff in Hidle as [Hidle Hnot].
      rewrite (clean_idle_resolved q' Hclean Hidle) in Hnot. done. }
    destruct Hend as [->|[_ ->]]; [simpl; simpl in Hidle; by rewrite Hq' in Hidle; rewrite andb_false_r in Hidle|].
    destruct (handOff_completes b st [q'] Hrun Hsane Hawaited Hacc) as [_ ->]; [| |done].
    + rewrite bind_taskIds_singleton. unfold taskIds.
      by rewrite (status_resolved_tasks q' Hq').
    + intros i Hi. apply (dispatchedIds_log _ _ Hlog), Hlogged0. by right.
  - rewrite executeSamePhaseChildren_state.
    destruct starterPromises; [|simpl in Hpromises; lia].
    destruct (handOff_completes b st0 [] Hrun Hsane0 Hawaited0 Hacc0) as [_ Hok]; [done| |].
    { intros i Hi. apply Hlogged0. by right. }
    rewrite Hok. simpl. inversion 1 as [|? ? ? ? ? ? ? ? Hbad]; subst; [done|inversion Hbad].
Qed.

(** X21.  The scheduler is live on a runnable bucket: when no callback is
    left to run, the future [executeBucket] returned has resolved (or
    [executeBucket] completed directly), no step is pending, and every step
    of the layer plan has its column, of [size] rows, in the store.  Faults
    of the steps do not stand in the way: they end up as error values in the
    columns. *)
Theorem runnable_bucket_completes (b : Bucket) (st : State) (p : Promise) :
  runnable b →
  runsTo b st p →
  idle p = true →
  status p = HasResolved
  ∧ pendingSteps st = ∅
  ∧ ∀ step, step ∈ steps (layerPlan b) →
            ∃ column, store (bucket st) !! id step = Some column
                      ∧ length column = size b.
Proof.
  intros Hrun Hruns Hidle.
  pose proof (runnable_resolves b st p Hrun Hruns Hidle) as Hres.
  split; [done|].
  pose proof (runsTo_resolved b st p Hruns Hres) as Hempty. split; [done|].
  intros step Hstep. destruct (runsTo_effects b st p Hruns) as [He _].
  apply (effects_completed _ _ _ _ He (id step)).
  - simpl. apply elem_of_list_to_set. by apply list_elem_of_fmap_2.
  - rewrite Hempty. apply not_elem_of_empty.
Qed.

Lemma diamond_runnable safe : runnable (diamond safe).
Proof.
  assert (Hbelow : ∀ u, reached (diamond safe) u →
    u = diamondA safe ∨ u = diamondB ∨ u = diamondC safe ∨ u = diamondD).
  { intros u (s & Hs & Hu). apply list_elem_of_singleton in Hs. subst s.
    destruct Hu as [->|Hu]; [by left|].
    simpl in Hu. rewrite !elem_of_cons in Hu.
    destruct Hu as [->|[->|[->|[->|Hu]]]]; auto. by apply elem_of_nil in Hu. }
  assert (Hplan : ∀ u, u ∈ steps (layerPlan (diamond safe)) →
    u = diamondA safe ∨ u = diamondB ∨ u = diamondC safe ∨ u = diamondD).
  { intros u Hu. simpl in Hu. rewrite !elem_of_cons in Hu.
    destruct Hu as [->|[->|[->|[->|Hu]]]]; auto. by apply elem_of_nil in Hu. }
  split.
  - reflexivity.
  - simpl. apply (bool_decide_unpack _). vm_compute. exact I.
  - intros u Hu _. simpl. rewrite !elem_of_cons.
    destruct (Hbelow u Hu) as [->|[->|[->| ->]]]; auto.
  - intros u Hu Hstart.
    destruct (Hplan u Hu) as [->|[->|[->| ->]]].
    + destruct Hstart. by left.
    + exists 1. split; [by left|done].
    + exists 1. split; [by left|done].
    + exists 2. split; [by left|done].
  - intros u depId Hu Hstart Hdep _.
    destruct (Hplan u Hu) as [->|[->|[->| ->]]]; simpl in Hdep.
    + destruct Hstart. by left.
    + apply list_elem_of_singleton in Hdep as ->.
      exists (diamondA safe). split_and!; [by left|done|by left].
    + apply list_elem_of_singleton in Hdep as ->.
      exists (diamondA safe). split_and!; [by left|done|right; by left].
    + apply elem_of_cons in Hdep as [->|Hdep]; [|apply list_elem_of_singleton in Hdep as ->].
      * exists diamondB. split_and!; [right; by left|done|by left].
      * exists (diamondC safe).
        split_and!; [right; right; by left|done|by left].
  - intros s depId Hs Hdep. apply list_elem_of_singleton in Hs. subst s.
    by apply elem_of_nil in Hdep.
  - intros i column Hcol. simpl in Hcol. by rewrite lookup_empty in Hcol.
  - reflexivity.
  - intros u Hu dependencies r _ Hexec.
    destruct (Hbelow u Hu) as [->|[->|[->| ->]]]; simpl in Hexec; try done.
    injection Hexec as <-. by eexists.
Qed.

Lemma runnable_bucket_completes_witness :
  ∃ st p, runsTo (diamond false) st p
          ∧ idle p = true
          ∧ status p = HasResolved
          ∧ pendingSteps st = ∅.
Proof.
  destruct (turns_to_idle
              (weight (settled (executeBucket (diamond false)).2))
              (settled (executeBucket (diamond false)).2)
              (executeBucket (diamond false)).1 (le_n _))
    as (evs & st & p & Hturns & Hidle).
  exists st, p. split; [by exists evs|]. split; [exact Hidle|].
  destruct (runnable_bucket_completes (diamond false) st p) as (Hres & Hempty & _).
  - apply diamond_runnable.
  - by exists evs.
  - exact Hidle.
  - by split.
Defined.

(** * Dispatching each step once, when its columns are there *)

(** A step that was pending at the start and no longer is was dispatched. *)
Lemma effects_forgotten S A st st' i :
  effects S A st st' →
  i ∈ pendingSteps st → i ∈ pendingSteps st' ∨ i ∈ dispatchedIds st'.
Proof.
  induction 1 as [|st st1 st2 He Hes IH]; intros Hpending; [by left|].
  destruct (effects_keeps _ _ _ _ Hes) as (_ & Hlog & _).
  destruct He as [step st Hs Hfree|step st Ha Hfree Hp Hmat|st Hfaulty|step column st Hin Hlen];
    try (by apply IH).
  destruct (decide (i = id step)) as [->|Hne].
  - right. apply (dispatchedIds_log _ _ Hlog). done.
  - apply IH. simpl. by apply elem_of_difference; split; [|apply not_elem_of_singleton].
Qed.

(** The one entry of a log without repetition that carries a given id. *)
Lemma dispatchesOf_once stepId st :
  NoDup (dispatchedIds st) → stepId ∈ dispatchedIds st →
  ∃ d, dispatchesOf stepId st = [d] ∧ d ∈ dispatchLog st ∧ id (dispatched d) = stepId.
Proof.
  unfold dispatchesOf, dispatchedIds.
  induction (dispatchLog st) as [|d0 l IH]; csimpl; intros Hnodup Hin.
  - by apply elem_of_nil in Hin.
  - apply NoDup_cons in Hnodup as [Hfresh Hnodup]. rewrite filter_cons.
    case_decide as Hd0.
    + exists d0. split_and!; [|by left|done]. f_equal.
      destruct (filter _ l) as [|d l'] eqn:Hfilter; [done|].
      assert (Hd : d ∈ filter (λ d, id (dispatched d) = stepId) l)
        by (rewrite Hfilter; by left).
      apply list_elem_of_filter in Hd as [Heq Hd]. destruct Hfresh.
      rewrite Hd0, <- Heq. by apply (list_elem_of_fmap_2 (λ d, id (dispatched d))).
    + apply elem_of_cons in Hin as [?|Hin]; [done|].
      destruct (IH Hnodup Hin) as (d & Hfilter & Hd & Hid).
      exists d. split_and!; [done|by right|done].
Qed.

(** C7.  In a well-formed bucket whose steps are identified by their ids,
    no step is dispatched twice, and every dispatch finds the columns of all
    the dependencies of the step in the store and collects them all: after
    the synchronous part of [executeBucket] and after any number of
    callbacks.  When the bucket is runnable as well, the callbacks can be run until none is left, and at
    the end of every such run each step of the layer plan has been
    dispatched exactly once, at a moment when the columns of all its
    dependencies were in the store.  In the diamond, where D depends on B,
    which answers through a future, and on C, which answers directly, every
    order of the callbacks ends with the future resolved and D dispatched
    once, with the columns of B and C in the store, which it received in
    that order. *)
Theorem dispatched_at_most_once_when_ready :
  (∀ b st p, wellFormed b → identifiedById b → runsTo b st p →
     NoDup (dispatchedIds st) ∧ dispatchedWhenReady st)
  ∧ (∀ b, wellFormed b → runnable b →
       (∃ st p, runsTo b st p ∧ idle p = true)
       ∧ ∀ st p u, runsTo b st p → idle p = true → u ∈ steps (layerPlan b) →
           ∃ d, dispatchesOf (id u) st = [d]
                ∧ dispatched d = u
                ∧ (∀ depId, depId ∈ dependencies u → is_Some (storeThen d !! depId))
                ∧ Forall is_Some (passed d))
  ∧ (∀ safe evs st p,
       turns evs (executeBucket (diamond safe)).1
             (settled (executeBucket (diamond safe)).2) st p →
       idle p = true →
       seenByD st =
         [(Some [VData 21; VData 22], Some [VData 31; VData 32],
           [Some [VData 21; VData 22]; Some [VData 31; VData 32]])]
       ∧ status p = HasResolved).
Proof.
  assert (Hsafety : ∀ b st p, wellFormed b → runsTo b st p →
    NoDup (dispatchedIds st) ∧ dispatchedWhenReady st).
  { intros b st p Hwf [evs Hturns].
    destruct (turns_inv _ _ _ _ _ Hturns (executeBucket_inv b Hwf)) as (? & _ & ?). done. }
  split_and!.
  - intros b st p Hwf _. by apply Hsafety.
  - intros b Hwf Hrun. split.
    + destruct (turns_to_idle (weight (settled (executeBucket b).2))
                  (settled (executeBucket b).2) (executeBucket b).1 (le_n _))
        as (evs & st & p & Hturns & Hidle).
      exists st, p. split; [by exists evs|done].
    + intros st p u Hruns Hidle Hu.
      destruct (Hsafety b st p Hwf Hruns) as [Hnodup Hready].
      pose proof (runnable_resolves b st p Hrun Hruns Hidle) as Hres.
      pose proof (runsTo_resolved b st p Hruns Hres) as Hempty.
      destruct (runsTo_effects b st p Hruns) as [He _].
      assert (Hin : id u ∈ dispatchedIds st).
      { destruct (effects_forgotten _ _ _ _ (id u) He) as [Hpending|?]; [|  |done].
        - simpl. apply elem_of_list_to_set. by apply list_elem_of_fmap_2.
        - rewrite Hempty in Hpending. by apply not_elem_of_empty in Hpending. }
      destruct (dispatchesOf_once (id u) st Hnodup Hin) as (d & Hfilter & Hd & Hid).
      assert (Hobject : dispatched d = u).
      { apply (NoDup_fmap_eq id (steps (layerPlan b)));
          [apply (plan_ids b Hrun)| |done|done].
        apply (plan_objects b Hrun).
        - by apply (effects_reached b st He).
        - rewrite Hid. by apply list_elem_of_fmap_2. }
      exists d. split_and!; [done|done| |].
      * intros depId Hdep. apply (Hready d Hd). by rewrite Hobject.
      * apply (Hready d Hd).
  - apply diamond_runs.
Qed.

Lemma dispatched_at_most_once_when_ready_witness :
  ∃ st p d,
    runsTo (diamond false) st p
    ∧ idle p = true
    ∧ NoDup (dispatchedIds st)
    ∧ dispatchesOf (id diamondD) st = [d]
    ∧ dispatched d = diamondD
    ∧ is_Some (storeThen d !! id diamondB)
    ∧ is_Some (storeThen d !! id (diamondC false)).
Proof.
  destruct dispatched_at_most_once_when_ready as (Hsafe & Hlive & _).
  destruct (Hlive (diamond false) (diamond_wellFormed false) (diamond_runnable false))
    as [(st & p & Hruns & Hidle) Honce].
  destruct (Hsafe (diamond false) st p (diamond_wellFormed false)) as [Hnodup _].
  - split; [apply (plan_ids _ (diamond_runnable false))
           |apply (plan_objects _ (diamond_runnable false))].
  - exact Hruns.
  - destruct (Honce st p diamondD Hruns Hidle) as (d & Hd & Hobject & Hdeps & _).
    + simpl. rewrite !elem_of_cons. auto.
    + exists st, p, d.
      split_and!; [exact Hruns|exact Hidle|exact Hnodup|exact Hd|exact Hobject| |].
      * apply Hdeps. simpl. rewrite !elem_of_cons. auto.
      * apply Hdeps. simpl. rewrite !elem_of_cons. auto.
Defined.

(** * At most two callbacks per dispatch *)

Lemma owed_All ps : owed (All ps) = sum_list_with owed ps.
Proof.
  unfold owed. simpl. induction ps as [|p ps IH]; csimpl; [done|].
  by rewrite sum_list_with_app, IH.
Qed.

Lemma owed_Resolved : owed Resolved = 0.
Proof. done. Qed.

Lemma owed_RejectedWith e : owed (RejectedWith e) = 0.
Proof. done. Qed.

Lemma dispatchedNow_log step st :
  length (dispatchLog (dispatchedNow step st)) = S (length (dispatchLog st)).
Proof. done. Qed.

Lemma setHasErrors_log st : dispatchLog (setHasErrors st) = dispatchLog st.
Proof. done. Qed.

Lemma publish_log stepId column st : dispatchLog (publish stepId column st) = dispatchLog st.
Proof. done. Qed.

Section completion_frugal.
Variable exec : ExecutableStep → State → State * Result (option Promise).

Lemma dependentsLoop_frugal dependents :
  Forall (frugal exec) dependents →
  ∀ st promises,
    sum_list_with owed (dependentsLoop exec dependents st promises).2
      + 2 * length (dispatchLog st)
    ≤ sum_list_with owed promises
      + 2 * length (dispatchLog (dependentsLoop exec dependents st promises).1).
Proof.
  induction 1 as [|t rest Ht _ IH]; intros st promises; simpl; [lia|].
  destruct (bool_decide (id t ∈ pendingSteps st) && allMaterialized t st); [|apply IH].
  specialize (Ht st). destruct (exec t st) as [st' r]. cbn [fst snd] in *.
  specialize (IH st' (pushIfPromise promises (rejectOnThrow r))).
  destruct r as [[p|]|e]; cbn [rejectOnThrow pushIfPromise settled] in *;
    rewrite ?sum_list_with_app in IH; cbn [sum_list_with] in IH;
    rewrite ?owed_Resolved, ?owed_RejectedWith in *; lia.
Qed.

Lemma reallyCompletedStep_frugal finishedStep st :
  Forall (frugal exec) (dependentPlans finishedStep) →
  owed (settled (Ok (reallyCompletedStep_ exec finishedStep st).2))
    + 2 * length (dispatchLog st)
  ≤ 2 * length (dispatchLog (reallyCompletedStep_ exec finishedStep st).1).
Proof.
  intros Hdeps. unfold reallyCompletedStep_. case_decide; [simpl; unfold owed; simpl; lia|].
  pose proof (dependentsLoop_frugal _ Hdeps (forget (id finishedStep) st) []) as Hloop.
  destruct (dependentsLoop exec _ _ []) as [st' promises]. simpl in *.
  case_decide; simpl; [rewrite owed_All|unfold owed; simpl]; lia.
Qed.

Lemma completedStep_frugal finishedStep result noNewErrors st :
  Forall (frugal exec) (dependentPlans finishedStep) →
  owed (settled (completedStep_ exec finishedStep result noNewErrors st).2)
    + 2 * length (dispatchLog st)
  ≤ 1 + 2 * length (dispatchLog (completedStep_ exec finishedStep result noNewErrors st).1).
Proof.
  intros Hdeps. unfold completedStep_.
  destruct result as [column| |]; try (simpl; unfold owed; simpl; lia).
  case_decide; [simpl; unfold owed; simpl; lia|].
  destruct (isSyncAndSafe finishedStep && noNewErrors); [|simpl; unfold owed; simpl; lia].
  pose proof (reallyCompletedStep_frugal finishedStep
                (publish (id finishedStep) column st) Hdeps) as Hdone.
  rewrite publish_log in Hdone.
  destruct (reallyCompletedStep_ exec finishedStep _) as [st' r]. cbn [fst snd settled] in *. lia.
Qed.
End completion_frugal.

Lemma executeStep_frugal step : frugal executeStep step.
Proof.
  induction step as [step IH] using ExecutableStep_ind'. intros st.
  rewrite executeStep_unfold. case_decide; [simpl; unfold owed; simpl; lia|]. cbv zeta.
  assert (Hcatch : ∀ error,
    owed (settled (completedStep step
       (RArray (arrayOfLength (size (bucket (setHasErrors (dispatchedNow step st))))
                              (VError (newCrystalError_call error (id step)))))
       true (setHasErrors (dispatchedNow step st))).2)
      + 2 * length (dispatchLog st)
    ≤ 2 * length (dispatchLog (completedStep step
       (RArray (arrayOfLength (size (bucket (setHasErrors (dispatchedNow step st))))
                              (VError (newCrystalError_call error (id step)))))
       true (setHasErrors (dispatchedNow step st))).1)).
  { intros error.
    pose proof (completedStep_frugal executeStep step
      (RArray (arrayOfLength (size (bucket (setHasErrors (dispatchedNow step st))))
                             (VError (newCrystalError_call error (id step)))))
      true (setHasErrors (dispatchedNow step st)) IH) as Hcost.
    fold completedStep in Hcost. rewrite setHasErrors_log, dispatchedNow_log in Hcost. lia. }
  invoked step st Hinvoke.
  - apply Hcatch.
  - pose proof (completedStep_frugal executeStep step result true
                  (dispatchedNow step st) IH) as Hcost.
    fold completedStep in Hcost. rewrite dispatchedNow_log in Hcost.
    destruct (completedStep step result true (dispatchedNow step st)) as [st' [r|error]] eqn:Hc.
    + cbn [fst snd] in *. lia.
    + apply (completedStep_throws executeStep) in Hc as (-> & _ & _). apply Hcatch.
  - cbn [fst snd settled]. rewrite dispatchedNow_log. unfold owed. simpl. lia.
Qed.

Lemma executeStep_deps_frugal step : Forall (frugal executeStep) (dependentPlans step).
Proof. apply Forall_forall. intros t' _. apply executeStep_frugal. Qed.

(** A callback pays for its turn. *)
Lemma runTask_frugal t st :
  owed (settled (runTask t st).2) + 1 + 2 * length (dispatchLog st)
  ≤ taskCost t + 2 * length (dispatchLog (runTask t st).1).
Proof.
  destruct t as [step [values|error]|finishedStep result|step s errors dependencies];
    cbn [runTask taskCost]; [| | |cbn [fst snd settled]; unfold owed; simpl; lia].
  - pose proof (completedStep_frugal executeStep step values false st
                  (executeStep_deps_frugal _)) as Hcost.
    fold completedStep in Hcost. lia.
  - pose proof (completedStep_frugal executeStep step
      (RArray (arrayOfLength (size (bucket (setHasErrors st)))
                             (VError (newCrystalError_call error (id step)))))
      false (setHasErrors st) (executeStep_deps_frugal _)) as Hcost.
    fold completedStep in Hcost. rewrite setHasErrors_log in Hcost. lia.
  - unfold reduceEntries.
    pose proof (reallyCompletedStep_frugal executeStep finishedStep
      (publish (id finishedStep) (reduceEntry (id finishedStep) <$> result)
               (if existsb rejects result then setHasErrors st else st))
      (executeStep_deps_frugal _)) as Hcost.
    fold reallyCompletedStep in Hcost.
    rewrite publish_log in Hcost.
    assert (Hlog : dispatchLog (if existsb rejects result then setHasErrors st else st)
                   = dispatchLog st) by by destruct (existsb rejects result).
    rewrite Hlog in Hcost.
    destruct (reallyCompletedStep finishedStep _) as [st2 r]. cbn [fst snd settled] in *. lia.
Qed.

Lemma turn_frugal ev st p st' p' :
  turn ev st p st' p' →
  owed p' + (if isRan ev then 1 else 0) + 2 * length (dispatchLog st)
  ≤ owed p + 2 * length (dispatchLog st').
Proof.
  induction 1 as [t st|ev ps1 p ps2 st st' p' _ IH|ev p st st' p' _ IH|p st Hres].
  - pose proof (runTask_frugal t st) as H. unfold owed at 2. simpl. lia.
  - rewrite !owed_All, !sum_list_with_app. simpl. lia.
  - done.
  - rewrite executeSamePhaseChildren_state. unfold owed.
    rewrite executeSamePhaseChildren_tasks. simpl. lia.
Qed.

Lemma turns_frugal evs st p st' p' :
  turns evs st p st' p' →
  owed p' + callbacks evs + 2 * length (dispatchLog st)
  ≤ owed p + 2 * length (dispatchLog st').
Proof.
  induction 1 as [st p|ev evs st p st1 p1 st2 p2 Hturn _ IH];
    [change (callbacks []) with 0; lia|].
  apply turn_frugal in Hturn. unfold callbacks in *. rewrite filter_cons.
  destruct (isRan ev); case_decide; try done; simpl in *; lia.
Qed.

Lemma startLoop_frugal starters : ∀ st starterPromises,
  sum_list_with owed (startLoop starters st starterPromises).2
    + 2 * length (dispatchLog st)
  ≤ sum_list_with owed starterPromises
    + 2 * length (dispatchLog (startLoop starters st starterPromises).1).
Proof.
  induction starters as [|step rest IH]; intros st starterPromises; simpl; [lia|].
  pose proof (executeStep_frugal step st) as Hstep.
  destruct (executeStep step st) as [st' r]. cbn [fst snd] in *.
  specialize (IH st' (pushIfPromise starterPromises (rejectOnThrow r))).
  destruct r as [[p|]|e]; cbn [rejectOnThrow pushIfPromise settled] in *;
    rewrite ?sum_list_with_app in IH; cbn [sum_list_with] in IH;
    rewrite ?owed_Resolved, ?owed_RejectedWith in *; lia.
Qed.

Lemma executeBucket_frugal b :
  owed (settled (executeBucket b).2) ≤ 2 * length (dispatchLog (executeBucket b).1).
Proof.
  unfold executeBucket.
  pose proof (startLoop_frugal (startSteps (layerPlan b)) (initialState b) []) as Hloop.
  destruct (startLoop _ _ _) as [st starterPromises]. cbn [fst snd] in *.
  change (length (dispatchLog (initialState b))) with 0 in Hloop. simpl in Hloop.
  case_decide.
  - cbn [fst snd settled]. change (owed (ThenChildren (All starterPromises)))
      with (owed (All starterPromises)). rewrite owed_All. lia.
  - rewrite executeSamePhaseChildren_state. unfold owed.
    rewrite executeSamePhaseChildren_tasks. simpl. lia.
Qed.

Lemma NoDup_length_le (l k : list nat) :
  NoDup l → (∀ i, i ∈ l → i ∈ k) → length l ≤ length k.
Proof.
  intros Hnodup Hsub. apply submseteq_length, NoDup_submseteq; done.
Qed.

(** X23.  As the code has it, the callbacks of the steps take at most two
    turns for each dispatch, one for the future of the step and one for the
    entries of its column: the callback of the merge, which would be a
    third, is never registered, since the scan of the error-aware invoker
    raises before it finds an error value.  In a well-formed bucket no step
    is dispatched twice, so an execution runs at most twice as many such
    callbacks as the bucket has start steps and steps. *)
Theorem two_callbacks_per_dispatch (b : Bucket) (evs : list Event)
    (st : State) (p : Promise) :
  turns evs (executeBucket b).1 (settled (executeBucket b).2) st p →
  callbacks evs + owed p ≤ 2 * length (dispatchLog st)
  ∧ (∀ step s errors dependencies,
       WhenMergeSettles step s errors dependencies ∉ tasksOf p)
  ∧ (wellFormed b →
     callbacks evs
     ≤ 2 * (length (startSteps (layerPlan b)) + length (steps (layerPlan b)))).
Proof.
  intros Hturns.
  pose proof (turns_frugal _ _ _ _ _ Hturns) as Hrun.
  pose proof (executeBucket_frugal b) as Hstart.
  destruct (runsTo_effects b st p) as [He Hready]; [by exists evs|].
  split_and!; [lia| |].
  { intros step s errors dependencies Hin.
    unfold tasksReady in Hready. rewrite Forall_forall in Hready.
    destruct (Hready _ Hin) as (_ & _ & d & mode & _ & _ & _ & Ho). simpl in Ho.
    destruct (invokedAs_handed mode d) as [x Hx]. by rewrite Hx in Ho. }
  intros Hwf.
  assert (Hlog : length (dispatchLog st)
                 ≤ length (startSteps (layerPlan b)) + length (steps (layerPlan b))).
  { pose proof (turns_inv _ _ _ _ _ Hturns (executeBucket_inv b Hwf)) as (Hnodup & _).
    rewrite <- (length_fmap id (startSteps (layerPlan b))),
            <- (length_fmap id (steps (layerPlan b))), <- length_app.
    unfold dispatchedIds in Hnodup. rewrite <- (length_fmap (λ d, id (dispatched d))).
    apply NoDup_length_le; [done|].
    intros i (d & -> & Hd)%list_elem_of_fmap. apply elem_of_app.
    destruct (effects_log _ _ _ _ He d Hd) as [Hd0|[?|[_ Hpend]]].
    - by apply elem_of_nil in Hd0.
    - left. by apply list_elem_of_fmap_2.
    - right. simpl in Hpend. by apply elem_of_list_to_set in Hpend. }
  lia.
Qed.

Lemma two_callbacks_per_dispatch_witness :
  callbacks [Ran (WhenStepSettles tooShortLater (Fulfilled (RArray [VData 1])))] ≤ 2 * (1 + 1).
Proof.
  assert (Hturns : turns [Ran (WhenStepSettles tooShortLater (Fulfilled (RArray [VData 1])))]
    (executeBucket tooShortLaterBucket).1 (settled (executeBucket tooShortLaterBucket).2)
    (runTask (WhenStepSettles tooShortLater (Fulfilled (RArray [VData 1])))
             (executeBucket tooShortLaterBucket).1).1
    (ThenChildren (All ([] ++ settled (runTask
       (WhenStepSettles tooShortLater (Fulfilled (RArray [VData 1])))
       (executeBucket tooShortLaterBucket).1).2 :: [])))).
  { econstructor; [|constructor].
    apply turn_inside. apply (turn_all _ [] _ []). apply turn_task. }
  apply (two_callbacks_per_dispatch tooShortLaterBucket _ _ _ Hturns).
  split; simpl.
  - apply NoDup_singleton.
  - intros s t ->%list_elem_of_singleton ->%list_elem_of_singleton. simpl.
    apply not_elem_of_nil.
  - intros s depId ->%list_elem_of_singleton Hin. by apply elem_of_nil in Hin.
Defined.

(** * The benchmark runner *)

Lemma benchmark_runner_inBounds requests concurrency s :
  Benchmark.inBounds requests concurrency s →
  Benchmark.inFlight s < concurrency →
  Benchmark.inBounds requests concurrency (Benchmark.runner s).
Proof.
  intros (Hsum & Hmax & Hcalled & Hfull) Hroom. unfold Benchmark.runner.
  case_decide; [|done]. unfold Benchmark.inBounds. simpl.
  split_and!; try lia. intros Hexit Hpos. destruct (Hfull Hexit Hpos); lia.
Qed.

Lemma benchmark_start_iter requests concurrency j :
  j ≤ concurrency →
  let s := Nat.iter j Benchmark.runner
    {| Benchmark.remaining := requests; Benchmark.result := None;
       Benchmark.inFlight := 0; Benchmark.called := 0; Benchmark.exited := false |} in
  Benchmark.called s + Benchmark.remaining s = requests
  ∧ Benchmark.inFlight s = Benchmark.called s
  ∧ Benchmark.inFlight s ≤ j
  ∧ (Benchmark.remaining s = 0 ∨ Benchmark.inFlight s = j)
  ∧ Benchmark.exited s = false.
Proof.
  induction j as [|j IH]; intros Hj; simpl.
  - split_and!; auto with lia.
  - destruct IH as (Hsum & Hsame & Hmax & Hfull & Hexit); [lia|].
    set (s := Nat.iter j Benchmark.runner _) in *.
    unfold Benchmark.runner. case_decide; simpl; split_and!; try done; try lia.
Qed.

Lemma benchmark_start_inBounds requests concurrency :
  Benchmark.inBounds requests concurrency (Benchmark.start requests concurrency)
  ∧ Benchmark.exited (Benchmark.start requests concurrency) = false
  ∧ (0 < concurrency →
     Benchmark.inFlight (Benchmark.start requests concurrency)
       + Benchmark.remaining (Benchmark.start requests concurrency) = requests).
Proof.
  destruct (benchmark_start_iter requests concurrency concurrency (le_n _))
    as (Hsum & Hsame & Hmax & Hfull & Hexit).
  unfold Benchmark.inBounds, Benchmark.start. split_and!; auto with lia.
Qed.

Lemma benchmark_settle_inBounds requests concurrency s o :
  Benchmark.inBounds requests concurrency s →
  Benchmark.inBounds requests concurrency (Benchmark.settle s o).
Proof.
  intros Hs. unfold Benchmark.settle.
  destruct (Benchmark.exited s) eqn:Hexit; [done|]. case_decide as Hfly; [done|].
  destruct Hs as (Hsum & Hmax & Hcalled & Hfull).
  destruct o as [res|e].
  - unfold Benchmark.pass, Benchmark.runner. simpl.
    case_decide as Hrem; unfold Benchmark.inBounds; simpl; split_and!; try lia;
      intros _ Hpos; destruct (Hfull Hexit Hpos); lia.
  - unfold Benchmark.fail, Benchmark.inBounds. simpl. split_and!; try lia; done.
Qed.

Lemma benchmark_settleAll_inBounds requests concurrency outcomes : ∀ s,
  Benchmark.inBounds requests concurrency s →
  Benchmark.inBounds requests concurrency (Benchmark.settleAll outcomes s).
Proof.
  unfold Benchmark.settleAll.
  induction outcomes as [|o rest IH]; intros s Hs; simpl; [done|].
  by apply IH, benchmark_settle_inBounds.
Qed.

Lemma benchmark_exits_after_failure outcomes : ∀ s,
  Benchmark.exited s = false →
  Benchmark.exited (Benchmark.settleAll outcomes s) = true →
  Exists (λ o, Benchmark.isPasses o = false) outcomes.
Proof.
  unfold Benchmark.settleAll.
  induction outcomes as [|o rest IH]; intros s Hs Hexit; simpl in *; [congruence|].
  destruct o as [res|e]; [|by left]. right. apply (IH (Benchmark.settle s (Benchmark.Passes res))); [|done].
  unfold Benchmark.settle. rewrite Hs. case_decide; [done|].
  unfold Benchmark.pass, Benchmark.runner. simpl. by case_decide.
Qed.

(** A fulfilment takes one unit of the work that is left. *)
Lemma benchmark_passes_work requests concurrency outcomes : ∀ s,
  0 < concurrency →
  Benchmark.inBounds requests concurrency s →
  Benchmark.exited s = false →
  Forall (λ o, Benchmark.isPasses o = true) outcomes →
  Benchmark.exited (Benchmark.settleAll outcomes s) = false
  ∧ Benchmark.inFlight (Benchmark.settleAll outcomes s)
      + Benchmark.remaining (Benchmark.settleAll outcomes s)
    = Benchmark.inFlight s + Benchmark.remaining s - length outcomes.
Proof.
  unfold Benchmark.settleAll.
  induction outcomes as [|o rest IH]; intros s Hpos Hs Hexit Hpass; simpl.
  - split; [done|lia].
  - apply Forall_cons in Hpass as [Ho Hrest]. destruct o as [res|e]; [|done].
    pose proof (benchmark_settle_inBounds _ _ s (Benchmark.Passes res) Hs) as Hs'.
    destruct Hs as (Hsum & Hmax & Hcalled & Hfull).
    assert (Hstep : Benchmark.exited (Benchmark.settle s (Benchmark.Passes res)) = false
      ∧ Benchmark.inFlight (Benchmark.settle s (Benchmark.Passes res))
          + Benchmark.remaining (Benchmark.settle s (Benchmark.Passes res))
        = Benchmark.inFlight s + Benchmark.remaining s - 1).
    { unfold Benchmark.settle. rewrite Hexit. case_decide as Hfly.
      - split; [done|]. destruct (Hfull Hexit Hpos); lia.
      - unfold Benchmark.pass, Benchmark.runner. simpl. case_decide; simpl; split; try done; lia. }
    destruct Hstep as [Hexit' Hwork].
    destruct (IH _ Hpos Hs' Hexit' Hrest) as [Hdone Hleft]. split; [done|]. lia.
Qed.

(** X24.  The benchmark's [run] never has more than [CONCURRENCY] calls of
    the callback outstanding and never makes more than [NUMBER_OF_REQUESTS]
    calls; the process exits only after a call was rejected; when it has not
    exited and no call is outstanding, every one of the
    [NUMBER_OF_REQUESTS] calls was made; and [NUMBER_OF_REQUESTS]
    fulfilments are enough to get there. *)
Theorem benchmark_run_serves_every_request (outcomes : list Benchmark.Outcome) :
  let s := Benchmark.settleAll outcomes Benchmark.run in
  Benchmark.inFlight s ≤ Benchmark.CONCURRENCY
  ∧ Benchmark.called s ≤ Benchmark.NUMBER_OF_REQUESTS
  ∧ (Benchmark.exited s = true → Exists (λ o, Benchmark.isPasses o = false) outcomes)
  ∧ (Benchmark.exited s = false → Benchmark.inFlight s = 0 →
     Benchmark.called s = Benchmark.NUMBER_OF_REQUESTS)
  ∧ (Forall (λ o, Benchmark.isPasses o = true) outcomes →
     Benchmark.NUMBER_OF_REQUESTS ≤ length outcomes →
     Benchmark.exited s = false ∧ Benchmark.inFlight s = 0).
Proof.
  intros s. subst s. unfold Benchmark.run.
  assert (Hpos : 0 < Benchmark.CONCURRENCY) by (unfold Benchmark.CONCURRENCY; lia).
  destruct (benchmark_start_inBounds Benchmark.NUMBER_OF_REQUESTS Benchmark.CONCURRENCY)
    as (Hstart & Hexit & Hwork).
  pose proof (benchmark_settleAll_inBounds _ _ outcomes _ Hstart)
    as (Hsum & Hmax & Hcalled & Hfull).
  split_and!; [done|lia| | |].
  - by apply benchmark_exits_after_failure.
  - intros Hrunning Hnone. destruct (Hfull Hrunning Hpos); lia.
  - intros Hpass Hmany.
    destruct (benchmark_passes_work _ _ outcomes _ Hpos Hstart Hexit Hpass) as [Hrunning Hleft].
    split; [done|]. specialize (Hwork Hpos). lia.
Qed.
